(** * I18nProjectManager: project-structure inference and target-path
      resolution (src/i18nProjectManager.ts)

    Shallow embedding of the TypeScript class [I18nProjectManager] and of the
    parts of the JavaScript runtime it calls: strings, the regular-expression
    matcher, Node's POSIX [path] module, a small model of [fs] and of
    [console.warn].

    Conventions.
    - A JavaScript string is a list of code units; the model keeps the 8-bit
      code units ([ascii]).  Both patterns of the class only mention ASCII
      ranges, and without the [u] flag a code unit above 127 never
      canonicalises to an ASCII one, so code units outside ASCII behave like
      any other non-matching character.
    - [path] is Node's [path.posix].
    - Methods that touch the file system or the console live in the [Js]
      monad (state = file system and console, outcome = value or exception). *)

From Stdlib Require Import List Ascii String ZArith Lia Bool.
From Stdlib Require Import Sorting.Sorted Sorting.Permutation.
From stdpp Require Import base gmap strings list.

Import ListNotations.
Local Open Scope string_scope.
Local Open Scope list_scope.
Local Open Scope nat_scope.

(* ================================================================= *)
(** ** JavaScript strings *)

Abbreviation jsstring := (list ascii).

Definition str (s : string) : jsstring := list_ascii_of_string s.
Coercion str : string >-> list.

Definition code (a : ascii) : N := N_of_ascii a.

Definition in_range (lo hi a : ascii) : bool :=
  (code lo <=? code a)%N && (code a <=? code hi)%N.

Definition char_eqb (a b : ascii) : bool := Ascii.eqb a b.

Definition jseqb (s t : jsstring) : bool := bool_decide (s = t).

(** [String.prototype.toUpperCase] / [toLowerCase] on one ASCII code unit.
    The class applies them to captured subtags only, which are ASCII letters
    and digits. *)
Definition toUpperCase_char (a : ascii) : ascii :=
  if in_range "a" "z" a then ascii_of_N (code a - 32) else a.

Definition toLowerCase_char (a : ascii) : ascii :=
  if in_range "A" "Z" a then ascii_of_N (code a + 32) else a.

Definition toUpperCase (s : jsstring) : jsstring := map toUpperCase_char s.
Definition toLowerCase (s : jsstring) : jsstring := map toLowerCase_char s.

(** [s.slice(b, e)] for indices [0 <= b], [0 <= e]. *)
Definition slice (s : jsstring) (b e : Z) : jsstring :=
  take (Z.to_nat e - Z.to_nat b) (drop (Z.to_nat b) s).

(** [s.charCodeAt(i)]; out of range is NaN, which equals no code unit. *)
Definition charAt (s : jsstring) (i : nat) : option ascii := nth_error s i.

Definition is_char (c : ascii) (o : option ascii) : bool :=
  match o with Some a => char_eqb a c | None => false end.

(** [s.endsWith(suffix)] *)
Definition endsWith (s suffix : jsstring) : bool :=
  (length suffix <=? length s) &&
  jseqb (drop (length s - length suffix) s) suffix.

(** [s.startsWith(p)] on the remaining input, used by [indexOf]. *)
Fixpoint starts_with (p s : jsstring) : bool :=
  match p, s with
  | [], _ => true
  | a :: p', b :: s' => char_eqb a b && starts_with p' s'
  | _ :: _, [] => false
  end.

(** [hay.indexOf(needle)]: index of the first occurrence, -1 when absent. *)
Fixpoint indexOf_from (hay needle : jsstring) (i : Z) : Z :=
  if starts_with needle hay then i
  else match hay with
       | [] => (-1)%Z
       | _ :: hay' => indexOf_from hay' needle (i + 1)%Z
       end.

Definition indexOf (hay needle : jsstring) : Z := indexOf_from hay needle 0.

(** [s.substring(0, e)] for [0 <= e]. *)
Definition substring0 (s : jsstring) (e : Z) : jsstring := take (Z.to_nat e) s.

(** [s.split(sep)] for a one-character separator: never the empty array. *)
Fixpoint split (sep : ascii) (s : jsstring) : list jsstring :=
  match s with
  | [] => [[]]
  | a :: s' =>
      if char_eqb a sep then [] :: split sep s'
      else match split sep s' with
           | [] => [[a]]
           | p :: ps => (a :: p) :: ps
           end
  end.

(** [parts.join(sep)] *)
Fixpoint join (sep : jsstring) (parts : list jsstring) : jsstring :=
  match parts with
  | [] => []
  | [p] => p
  | p :: ps => p ++ sep ++ join sep ps
  end.

(** [s.replace(/-/g, "_")] *)
Definition replace_hyphens (s : jsstring) : jsstring :=
  map (fun a => if char_eqb a "-" then "_"%char else a) s.

(** Decimal rendering of a counter in a template literal. *)
Fixpoint digits_of (fuel n : nat) (acc : jsstring) : jsstring :=
  match fuel with
  | 0 => acc
  | S f =>
      let d := ascii_of_nat (48 + n mod 10) in
      if n / 10 =? 0 then d :: acc else digits_of f (n / 10) (d :: acc)
  end.

Definition number_to_string (n : nat) : jsstring := digits_of (S n) n [].

(* ================================================================= *)
(** ** Regular expressions: a backtracking matcher with capture groups *)

Module RegExp.

(** A character class is a union of ranges; a single character is the
    range from itself to itself. *)
Definition CharClass := list (ascii * ascii).

Inductive Regex : Type :=
| Empty
| Class (cls : CharClass)
| Seq (r1 r2 : Regex)
| Alt (r1 r2 : Regex)            (* r1|r2, r1 tried first *)
| Opt (r : Regex)                (* r?, greedy *)
| Group (idx : nat) (r : Regex). (* capturing group number idx *)

(** [r{n}] and [r{lo,hi}] (greedy), unfolded. *)
Fixpoint times (n : nat) (r : Regex) : Regex :=
  match n with
  | 0 => Empty
  | 1 => r
  | S n' => Seq r (times n' r)
  end.

Fixpoint upto (n : nat) (r : Regex) : Regex :=
  match n with
  | 0 => Empty
  | S n' => Opt (Seq r (upto n' r))
  end.

Definition repeat_range (lo hi : nat) (r : Regex) : Regex :=
  match hi - lo with
  | 0 => times lo r
  | d => Seq (times lo r) (upto d r)
  end.

(** Captures, most recent first. *)
Definition Captures := list (nat * jsstring).

Fixpoint capture (c : Captures) (idx : nat) : option jsstring :=
  match c with
  | [] => None
  | (i, s) :: c' => if i =? idx then Some s else capture c' idx
  end.

Definition class_has (cls : CharClass) (a : ascii) : bool :=
  existsb (fun r => in_range (fst r) (snd r) a) cls.

(** With the [i] flag a character matches a class when its canonical form
    equals the canonical form of a member; for ASCII ranges this is
    membership of the character or of its other-case form. *)
Definition class_match (icase : bool) (cls : CharClass) (a : ascii) : bool :=
  if icase
  then class_has cls a || class_has cls (toUpperCase_char a)
       || class_has cls (toLowerCase_char a)
  else class_has cls a.

Definition Cont := jsstring -> Captures -> option Captures.

Fixpoint run (icase : bool) (r : Regex) (s : jsstring) (c : Captures)
    (k : Cont) : option Captures :=
  match r with
  | Empty => k s c
  | Class cls =>
      match s with
      | a :: s' => if class_match icase cls a then k s' c else None
      | [] => None
      end
  | Seq r1 r2 => run icase r1 s c (fun s' c' => run icase r2 s' c' k)
  | Alt r1 r2 =>
      match run icase r1 s c k with
      | Some out => Some out
      | None => run icase r2 s c k
      end
  | Opt r1 =>
      match run icase r1 s c k with
      | Some out => Some out
      | None => k s c
      end
  | Group idx r1 =>
      run icase r1 s c
        (fun s' c' => k s' ((idx, take (length s - length s') s) :: c'))
  end.

(** A pattern [/^body$/] or [/^body$/i]. *)
Record Pattern := { body : Regex; ignoreCase : bool }.

Definition at_end : Cont :=
  fun s c => match s with [] => Some c | _ :: _ => None end.

(** [re.exec(s)] for an anchored pattern: the match starts at index 0 and
    must reach the end of the input. *)
Definition exec (re : Pattern) (s : jsstring) : option Captures :=
  run (ignoreCase re) (body re) s [] at_end.

(** [re.test(s)] *)
Definition test (re : Pattern) (s : jsstring) : bool :=
  match exec re s with Some _ => true | None => false end.

(** *** Declarative semantics: which strings a pattern denotes and which
    captures a successful parse records. *)
Inductive Sem (icase : bool) : Regex -> jsstring -> Captures -> Captures -> Prop :=
| SemEmpty c : Sem icase Empty [] c c
| SemClass cls a c :
    class_match icase cls a = true -> Sem icase (Class cls) [a] c c
| SemSeq r1 r2 s1 s2 c c1 c2 :
    Sem icase r1 s1 c c1 -> Sem icase r2 s2 c1 c2 ->
    Sem icase (Seq r1 r2) (s1 ++ s2) c c2
| SemAltL r1 r2 s c c' : Sem icase r1 s c c' -> Sem icase (Alt r1 r2) s c c'
| SemAltR r1 r2 s c c' : Sem icase r2 s c c' -> Sem icase (Alt r1 r2) s c c'
| SemOptSome r s c c' : Sem icase r s c c' -> Sem icase (Opt r) s c c'
| SemOptNone r c : Sem icase (Opt r) [] c c
| SemGroup idx r s c c' :
    Sem icase r s c c' -> Sem icase (Group idx r) s c ((idx, s) :: c').

End RegExp.

Import RegExp.

(* ================================================================= *)
(** ** Node's [path.posix] *)

Module Path.

Definition SLASH : ascii := "/"%char.
Definition DOT : ascii := "."%char.

Definition code_eqb (x y : option ascii) : bool :=
  match x, y with
  | Some a, Some b => char_eqb a b
  | _, _ => false
  end.

(** The scan of [dirname]: [for (i = n; i >= 1; --i)], returning [end]. *)
Fixpoint dirname_scan (path : jsstring) (n : nat) (matchedSlash : bool) : Z :=
  match n with
  | 0 => (-1)%Z
  | S n' =>
      if is_char SLASH (charAt path n) then
        if negb matchedSlash then Z.of_nat n
        else dirname_scan path n' matchedSlash
      else dirname_scan path n' false
  end.

Definition dirname (path : jsstring) : jsstring :=
  if length path =? 0 then "."
  else
    let hasRoot := is_char SLASH (charAt path 0) in
    let end_ := dirname_scan path (length path - 1) true in
    if (end_ =? -1)%Z then (if hasRoot then "/" else ".")
    else if hasRoot && (end_ =? 1)%Z then "//"
    else slice path 0 end_.

(** The scan of [basename] without suffix: [for (i = n - 1; i >= 0; --i)],
    returning [(start, end)]. *)
Fixpoint basename_scan (path : jsstring) (n : nat)
    (end_ : Z) (matchedSlash : bool) : Z * Z :=
  match n with
  | 0 => (0, end_)%Z
  | S i =>
      if is_char SLASH (charAt path i) then
        if negb matchedSlash then (Z.of_nat i + 1, end_)%Z
        else basename_scan path i end_ matchedSlash
      else if (end_ =? -1)%Z then basename_scan path i (Z.of_nat i + 1)%Z false
      else basename_scan path i end_ matchedSlash
  end.

(** The scan of [basename] with a suffix, returning
    [(start, end, firstNonSlashEnd)]. *)
Fixpoint basename_suffix_scan (path suffix : jsstring) (n : nat)
    (end_ : Z) (matchedSlash : bool) (extIdx firstNonSlashEnd : Z)
    : Z * Z * Z :=
  match n with
  | 0 => (0, end_, firstNonSlashEnd)%Z
  | S i =>
      let c := charAt path i in
      if is_char SLASH c then
        if negb matchedSlash then (Z.of_nat i + 1, end_, firstNonSlashEnd)%Z
        else basename_suffix_scan path suffix i end_ matchedSlash extIdx
               firstNonSlashEnd
      else
        let fresh := (firstNonSlashEnd =? -1)%Z in
        let matchedSlash1 := if fresh then false else matchedSlash in
        let first1 := if fresh then (Z.of_nat i + 1)%Z else firstNonSlashEnd in
        if (0 <=? extIdx)%Z then
          if code_eqb c (charAt suffix (Z.to_nat extIdx)) then
            let extIdx1 := (extIdx - 1)%Z in
            let end1 := if (extIdx1 =? -1)%Z then Z.of_nat i else end_ in
            basename_suffix_scan path suffix i end1 matchedSlash1 extIdx1 first1
          else
            basename_suffix_scan path suffix i first1 matchedSlash1 (-1)%Z first1
        else
          basename_suffix_scan path suffix i end_ matchedSlash1 extIdx first1
  end.

(** [path.basename(path, suffix)]; [None] is an omitted suffix. *)
Definition basename (path : jsstring) (suffix : option jsstring) : jsstring :=
  let plain :=
    let '(start, end_) := basename_scan path (length path) (-1)%Z true in
    if (end_ =? -1)%Z then [] else slice path start end_ in
  match suffix with
  | Some sfx =>
      if (0 <? length sfx) && (length sfx <=? length path) then
        if jseqb sfx path then []
        else
          let '(start, end_, firstNonSlashEnd) :=
            basename_suffix_scan path sfx (length path) (-1)%Z true
              (Z.of_nat (length sfx) - 1)%Z (-1)%Z in
          let end1 :=
            if (start =? end_)%Z then firstNonSlashEnd
            else if (end_ =? -1)%Z then Z.of_nat (length path)
            else end_ in
          slice path start end1
      else plain
  | None => plain
  end.

(** The scan of [extname], returning
    [(startDot, startPart, end, preDotState)]. *)
Fixpoint extname_scan (path : jsstring) (n : nat)
    (startDot end_ : Z) (matchedSlash : bool) (preDotState : Z)
    : Z * Z * Z * Z :=
  match n with
  | 0 => (startDot, 0, end_, preDotState)%Z
  | S i =>
      let c := charAt path i in
      if is_char SLASH c then
        if negb matchedSlash then (startDot, Z.of_nat i + 1, end_, preDotState)%Z
        else extname_scan path i startDot end_ matchedSlash preDotState
      else
        let fresh := (end_ =? -1)%Z in
        let matchedSlash1 := if fresh then false else matchedSlash in
        let end1 := if fresh then (Z.of_nat i + 1)%Z else end_ in
        if is_char DOT c then
          if (startDot =? -1)%Z
          then extname_scan path i (Z.of_nat i) end1 matchedSlash1 preDotState
          else extname_scan path i startDot end1 matchedSlash1 1%Z
        else if negb (startDot =? -1)%Z
        then extname_scan path i startDot end1 matchedSlash1 (-1)%Z
        else extname_scan path i startDot end1 matchedSlash1 preDotState
  end.

Definition extname (path : jsstring) : jsstring :=
  let '(startDot, startPart, end_, preDotState) :=
    extname_scan path (length path) (-1)%Z (-1)%Z true 0%Z in
  if (startDot =? -1)%Z || (end_ =? -1)%Z || (preDotState =? 0)%Z
     || ((preDotState =? 1)%Z && (startDot =? end_ - 1)%Z
         && (startDot =? startPart + 1)%Z)
  then []
  else slice path startDot end_.

(** [res.lastIndexOf("/")] *)
Fixpoint lastIndexOf_slash (s : jsstring) (n : nat) : Z :=
  match n with
  | 0 => (-1)%Z
  | S i => if is_char SLASH (charAt s i) then Z.of_nat i
           else lastIndexOf_slash s i
  end.

Definition zlen (s : jsstring) : Z := Z.of_nat (length s).

(** [normalizeString(path, allowAboveRoot, "/", isPosixPathSeparator)]:
    the loop [for (i = 0; i <= path.length; ++i)] with its state. *)
Fixpoint normalizeString_loop (path : jsstring) (allowAboveRoot : bool)
    (fuel i : nat) (res : jsstring) (lastSegmentLength lastSlash dots : Z)
    (code_ : option ascii) : jsstring :=
  match fuel with
  | 0 => res
  | S fuel' =>
      let next :=
        if i <? length path then Some (charAt path i)
        else if is_char SLASH code_ then None
        else Some (Some SLASH) in
      match next with
      | None => res
      | Some c =>
          let continue_ r lsl ls d :=
            normalizeString_loop path allowAboveRoot fuel' (S i) r lsl ls d c in
          let zi := Z.of_nat i in
          if is_char SLASH c then
            if (lastSlash =? zi - 1)%Z || (dots =? 1)%Z then
              continue_ res lastSegmentLength zi 0%Z
            else if (dots =? 2)%Z then
              let above :=
                if allowAboveRoot then
                  continue_ (res ++ (if 0 <? length res then "/.." else ".."))
                    2%Z zi 0%Z
                else continue_ res lastSegmentLength zi 0%Z in
              if (length res <? 2) || negb (lastSegmentLength =? 2)%Z
                 || negb (is_char DOT (charAt res (length res - 1)))
                 || negb (is_char DOT (charAt res (length res - 2)))
              then
                if 2 <? length res then
                  let lastSlashIndex := lastIndexOf_slash res (length res) in
                  if (lastSlashIndex =? -1)%Z then continue_ [] 0%Z zi 0%Z
                  else
                    let res1 := slice res 0 lastSlashIndex in
                    continue_ res1
                      (zlen res1 - 1 - lastIndexOf_slash res1 (length res1))%Z
                      zi 0%Z
                else if negb (length res =? 0) then continue_ [] 0%Z zi 0%Z
                else above
              else above
            else
              let seg := slice path (lastSlash + 1) zi in
              continue_ (if 0 <? length res then res ++ "/" ++ seg else seg)
                (zi - lastSlash - 1)%Z zi 0%Z
          else if is_char DOT c && negb (dots =? -1)%Z then
            continue_ res lastSegmentLength lastSlash (dots + 1)%Z
          else continue_ res lastSegmentLength lastSlash (-1)%Z
      end
  end.

Definition normalizeString (path : jsstring) (allowAboveRoot : bool) : jsstring :=
  normalizeString_loop path allowAboveRoot (S (length path)) 0 [] 0%Z (-1)%Z 0%Z
    (Some "000"%char).

Definition normalize (path : jsstring) : jsstring :=
  if length path =? 0 then "."
  else
    let isAbsolute := is_char SLASH (charAt path 0) in
    let trailingSeparator := is_char SLASH (charAt path (length path - 1)) in
    let p := normalizeString path (negb isAbsolute) in
    if length p =? 0 then
      (if isAbsolute then "/" else if trailingSeparator then "./" else ".")
    else
      let p1 := if trailingSeparator then p ++ "/" else p in
      if isAbsolute then "/" ++ p1 else p1.

(** [path.join(...args)] *)
Fixpoint join_args (args : list jsstring) (joined : option jsstring)
    : option jsstring :=
  match args with
  | [] => joined
  | arg :: rest =>
      if 0 <? length arg then
        match joined with
        | None => join_args rest (Some arg)
        | Some j => join_args rest (Some (j ++ "/" ++ arg))
        end
      else join_args rest joined
  end.

Definition join (args : list jsstring) : jsstring :=
  match join_args args None with
  | None => "."
  | Some joined => normalize joined
  end.

End Path.

(* ================================================================= *)
(** ** The file system, the console and the [Js] monad *)

Inductive NodeKind : Type := FileNode | DirNode.

Global Instance NodeKind_eq_dec : EqDecision NodeKind.
Proof. solve_decision. Defined.

(** The file system: the kind of entry found at each (normalised) path, and
    the directories whose listing is denied. *)
Record FileSystem : Type := mkFS {
  nodes : gmap (list ascii) NodeKind;
  unreadable : gset (list ascii)
}.

(** [fs.Dirent] as returned with [withFileTypes: true]. *)
Record Dirent : Type := mkDirent { name : jsstring; kind : NodeKind }.

Definition isFile (d : Dirent) : bool :=
  match kind d with FileNode => true | DirNode => false end.

Definition isDirectory (d : Dirent) : bool :=
  match kind d with DirNode => true | FileNode => false end.

Inductive Error : Type :=
| ENOENT (path : jsstring)
| ENOTDIR (path : jsstring)
| EACCES (path : jsstring)
| EEXIST (path : jsstring).

(** One [console.warn(message, error)] call. *)
Record Warning : Type := mkWarning { message : jsstring; cause : Error }.

Record World : Type := mkWorld { fs : FileSystem; console : list Warning }.

Inductive Outcome (A : Type) : Type :=
| Returned (a : A)
| Thrown (e : Error).
Arguments Returned {A} a.
Arguments Thrown {A} e.

Definition Js (A : Type) : Type := World -> Outcome A * World.

Definition ret {A} (a : A) : Js A := fun w => (Returned a, w).

Definition bind {A B} (m : Js A) (f : A -> Js B) : Js B :=
  fun w => match m w with
           | (Returned a, w') => f a w'
           | (Thrown e, w') => (Thrown e, w')
           end.

Definition throw {A} (e : Error) : Js A := fun w => (Thrown e, w).

(** [try { body } catch (error) { handler(error) }] *)
Definition try_catch {A} (body : Js A) (handler : Error -> Js A) : Js A :=
  fun w => match body w with
           | (Returned a, w') => (Returned a, w')
           | (Thrown e, w') => handler e w'
           end.

Notation "'let*' x ':=' m 'in' k" := (bind m (fun x => k))
  (at level 10, x name, m at level 100, k at level 200).

Module Fs.

(** [fs.existsSync(path)] *)
Definition existsSync (path : jsstring) : Js bool :=
  fun w => (Returned (bool_decide (is_Some (nodes (fs w) !! path))), w).

Definition entries_of (m : gmap (list ascii) NodeKind) (dir : jsstring)
    : list Dirent :=
  omap (fun kv : list ascii * NodeKind =>
          if jseqb (Path.dirname (fst kv)) dir && negb (jseqb (fst kv) dir)
          then Some (mkDirent (Path.basename (fst kv) None) (snd kv))
          else None)
       (map_to_list m).

(** [fs.readdirSync(path, { withFileTypes: true })] *)
Definition readdirSync (path : jsstring) : Js (list Dirent) :=
  fun w =>
    match nodes (fs w) !! path with
    | None => (Thrown (ENOENT path), w)
    | Some FileNode => (Thrown (ENOTDIR path), w)
    | Some DirNode =>
        if bool_decide (path ∈ unreadable (fs w))
        then (Thrown (EACCES path), w)
        else (Returned (entries_of (nodes (fs w)) path), w)
    end.

(** The proper ancestors of a path, nearest first. *)
Fixpoint ancestors (fuel : nat) (path : jsstring) : list jsstring :=
  match fuel with
  | 0 => []
  | S f =>
      let d := Path.dirname path in
      if jseqb d path then [] else d :: ancestors f d
  end.

Definition is_file_at (m : gmap (list ascii) NodeKind) (p : jsstring) : bool :=
  match m !! p with Some FileNode => true | _ => false end.

Definition mkdirs (chain : list jsstring) (m : gmap (list ascii) NodeKind)
    : gmap (list ascii) NodeKind :=
  foldr (fun q acc => <[q := DirNode]> acc) m chain.

(** [fs.mkdirSync(path, { recursive: true })]: creates the directory and
    its missing ancestors; a directory that already exists is not an
    error, a regular file in the way is: [EEXIST] when it stands at [path]
    itself, [ENOTDIR] when it stands at an ancestor, and either error
    carries the path given to [mkdirSync].  Other failures of [mkdir]
    (permissions, a read-only volume) are not part of the model. *)
Definition mkdirSync_recursive (path : jsstring) : Js unit :=
  fun w =>
    let chain := path :: ancestors (S (length path)) path in
    match List.find (is_file_at (nodes (fs w))) chain with
    | Some q =>
        (Thrown (if jseqb q path then EEXIST path else ENOTDIR path), w)
    | None =>
        (Returned tt,
         mkWorld (mkFS (mkdirs chain (nodes (fs w))) (unreadable (fs w)))
                 (console w))
    end.

End Fs.

(** [console.warn(message, error)] *)
Definition console_warn (msg : jsstring) (e : Error) : Js unit :=
  fun w => (Returned tt, mkWorld (fs w) (console w ++ [mkWarning msg e])).

(* ================================================================= *)
(** ** [Set<string>], [Array.prototype.sort] and [localeCompare] *)

(** A [Set<string>] keeps its members in insertion order. *)
Definition JsSet := list jsstring.

Definition set_has (s : JsSet) (x : jsstring) : bool :=
  existsb (jseqb x) s.

Definition set_add (s : JsSet) (x : jsstring) : JsSet :=
  if set_has s x then s else s ++ [x].

Definition set_delete (s : JsSet) (x : jsstring) : JsSet :=
  List.filter (fun y => negb (jseqb x y)) s.

(** [a.localeCompare(b, undefined, { sensitivity: "base" })] of the running
    host: the collation depends on the host's default locale, so it is an
    interface.  Every locale's comparison is a total preorder, and at base
    sensitivity it ignores letter case. *)
Class Collator : Type := {
  localeCompare : jsstring -> jsstring -> comparison;
  localeCompare_antisym :
    forall a b, localeCompare b a = CompOpp (localeCompare a b);
  localeCompare_trans :
    forall a b c, localeCompare a b <> Gt -> localeCompare b c <> Gt ->
                  localeCompare a c <> Gt;
  localeCompare_base :
    forall a b, localeCompare a b = localeCompare (toLowerCase a) (toLowerCase b)
}.

(** [arr.sort(cmp)]: the sort is stable; insertion from the right keeps
    equal elements in their original order. *)
Fixpoint sort_insert (cmp : jsstring -> jsstring -> comparison)
    (x : jsstring) (l : list jsstring) : list jsstring :=
  match l with
  | [] => [x]
  | y :: l' =>
      match cmp x y with
      | Gt => y :: sort_insert cmp x l'
      | _ => x :: l
      end
  end.

Definition array_sort (cmp : jsstring -> jsstring -> comparison)
    (l : list jsstring) : list jsstring :=
  foldr (sort_insert cmp) [] l.

(* ================================================================= *)
(** ** The class [I18nProjectManager] *)

Inductive ProjectStructureType : Type := FolderBased | FileBased | Unknown.

Record ProjectStructureInfo : Type := mkInfo {
  type : ProjectStructureType;
  basePath : jsstring;
  sourceLanguage : option jsstring
}.

(** Truthiness of a [string | null | undefined] value. *)
Definition truthy (v : option jsstring) : bool :=
  match v with
  | Some (_ :: _) => true
  | _ => false
  end.

Definition lower : CharClass := [("a", "z")]%char.
Definition upper : CharClass := [("A", "Z")]%char.
Definition digit : CharClass := [("0", "9")]%char.
(** [[-|_]]: inside a class the bar is a literal character. *)
Definition separator : CharClass := [("-", "-"); ("|", "|"); ("_", "_")]%char.
Definition underscore : CharClass := [("_", "_")]%char.

(** Group numbers of the named groups (groups 2 and 4 are the unnamed
    parentheses around the optional script and region parts). *)
Definition LANGUAGE : nat := 1.
Definition SCRIPT : nat := 3.
Definition REGION : nat := 5.

Definition code_body (sep : CharClass) : Regex :=
  Seq (Group LANGUAGE (repeat_range 2 3 (Class lower)))
   (Seq (Opt (Group 2 (Seq (Class sep)
                (Group SCRIPT (Seq (Class upper) (times 3 (Class lower)))))))
        (Opt (Group 4 (Seq (Class sep)
                (Group REGION (Alt (repeat_range 2 3 (Class upper))
                                   (times 3 (Class digit)))))))).

(** [/^(?<language>[a-z]{2,3})([-|_](?<script>[A-Z][a-z]{3}))?([-|_](?<region>[A-Z]{2,3}|[0-9]{3}))?$/i] *)
Definition languageCodeRegex : Pattern :=
  {| body := code_body separator; ignoreCase := true |}.

(** [/^(?<language>[a-z]{2,3})(_(?<script>[A-Z][a-z]{3}))?(_(?<region>[A-Z]{2,3}|[0-9]{3}))?$/] *)
Definition arbLanguageCodeRegex : Pattern :=
  {| body := code_body underscore; ignoreCase := false |}.

(** The loop of [extractLanguageCodeFromFileName]:
    [for (let i = 0; i < parts.length; i++)]. *)
Fixpoint extract_loop (parts : list jsstring) (fuel i : nat) : option jsstring :=
  match fuel with
  | 0 => None
  | S f =>
      if i <? length parts then
        let potentialCode := join "_" (drop i parts) in
        if test arbLanguageCodeRegex potentialCode then Some potentialCode
        else extract_loop parts f (S i)
      else None
  end.

Definition extractLanguageCodeFromFileName (fileName : jsstring)
    (isArbFile : bool) : option jsstring :=
  if isArbFile then
    let parts := split "_" fileName in
    extract_loop parts (length parts) 0
  else if test languageCodeRegex fileName then Some fileName else None.

Definition detectProjectStructure (sourceFilePath : jsstring)
    : Js ProjectStructureInfo :=
  let sourceDir := Path.dirname sourceFilePath in
  let sourceFileExt := Path.extname sourceFilePath in
  let sourceFileName := Path.basename sourceFilePath (Some sourceFileExt) in
  let isArbFile := jseqb sourceFileExt ".arb" in
  let parentDirName := Path.basename sourceDir None in
  let regex := if isArbFile then arbLanguageCodeRegex else languageCodeRegex in
  if test regex parentDirName then
    ret (mkInfo FolderBased (Path.dirname sourceDir) (Some parentDirName))
  else
    let languageCode := extractLanguageCodeFromFileName sourceFileName isArbFile in
    if truthy languageCode then ret (mkInfo FileBased sourceDir languageCode)
    else ret (mkInfo Unknown sourceDir None).

(** The two enumeration loops of [detectLanguagesFromProject]. *)
Fixpoint scan_directories (isArbFile : bool) (entries : list Dirent)
    (languageCodes : JsSet) : JsSet :=
  match entries with
  | [] => languageCodes
  | entry :: rest =>
      if isDirectory entry then
        let regex := if isArbFile then arbLanguageCodeRegex else languageCodeRegex in
        if test regex (name entry)
        then scan_directories isArbFile rest (set_add languageCodes (name entry))
        else scan_directories isArbFile rest languageCodes
      else scan_directories isArbFile rest languageCodes
  end.

Fixpoint scan_files (isArbFile : bool) (fileExtension : jsstring)
    (entries : list Dirent) (languageCodes : JsSet) : JsSet :=
  match entries with
  | [] => languageCodes
  | entry :: rest =>
      if isFile entry && endsWith (name entry) fileExtension then
        let fileName := Path.basename (name entry) (Some fileExtension) in
        let languageCode := extractLanguageCodeFromFileName fileName isArbFile in
        match languageCode with
        | Some lc =>
            if truthy languageCode
            then scan_files isArbFile fileExtension rest (set_add languageCodes lc)
            else scan_files isArbFile fileExtension rest languageCodes
        | None => scan_files isArbFile fileExtension rest languageCodes
        end
      else scan_files isArbFile fileExtension rest languageCodes
  end.

Section Methods.

Context {collator : Collator}.

Definition detectLanguagesFromProject (sourceFilePath : jsstring)
    : Js (list jsstring) :=
  let languageCodes : JsSet := [] in
  let isArbFile := endsWith sourceFilePath ".arb" in
  let* structureInfo := detectProjectStructure sourceFilePath in
  let sourceLanguage := sourceLanguage structureInfo in
  let* languageCodes :=
    match type structureInfo with
    | FolderBased =>
        try_catch
          (let* entries := Fs.readdirSync (basePath structureInfo) in
           ret (scan_directories isArbFile entries languageCodes))
          (fun error =>
             let* _ := console_warn "Error scanning for language directories:" error in
             ret languageCodes)
    | FileBased =>
        let fileExtension : jsstring := if isArbFile then ".arb" else ".json" in
        try_catch
          (let* entries := Fs.readdirSync (basePath structureInfo) in
           ret (scan_files isArbFile fileExtension entries languageCodes))
          (fun error =>
             let* _ := console_warn "Error scanning for language files:" error in
             ret languageCodes)
    | Unknown => ret languageCodes
    end in
  let languageCodes :=
    match sourceLanguage with
    | Some sl => if truthy sourceLanguage then set_delete languageCodes sl
                 else languageCodes
    | None => languageCodes
    end in
  ret (array_sort localeCompare languageCodes).

End Methods.

Definition generateTargetFilePath (sourceFilePath targetLanguage : jsstring)
    : Js jsstring :=
  let* structureInfo := detectProjectStructure sourceFilePath in
  let fileExtension := Path.extname sourceFilePath in
  let sourceFileName := Path.basename sourceFilePath (Some fileExtension) in
  let isArbFile := jseqb fileExtension ".arb" in
  let languageCode :=
    if isArbFile then replace_hyphens targetLanguage else targetLanguage in
  match type structureInfo with
  | FolderBased =>
      let targetDir := Path.join [basePath structureInfo; languageCode] in
      let* present := Fs.existsSync targetDir in
      let* _ := if negb present then Fs.mkdirSync_recursive targetDir else ret tt in
      ret (Path.join [targetDir; sourceFileName ++ fileExtension])
  | FileBased =>
      if isArbFile then
        let sourceLanguage := sourceLanguage structureInfo in
        let prefix : jsstring :=
          match sourceLanguage with
          | Some sl =>
              if truthy sourceLanguage then
                let langIndex := indexOf sourceFileName sl in
                if (0 <? langIndex)%Z then substring0 sourceFileName langIndex
                else []
              else []
          | None => []
          end in
        ret (Path.join [basePath structureInfo;
                        prefix ++ languageCode ++ fileExtension])
      else
        ret (Path.join [basePath structureInfo; languageCode ++ fileExtension])
  | Unknown =>
      let sourceDir := Path.dirname sourceFilePath in
      ret (Path.join [sourceDir;
                      sourceFileName ++ "." ++ languageCode ++ fileExtension])
  end.

(** The [do { ... } while (fs.existsSync(uniquePath))] loop of
    [getUniqueFilePath]; [None] when the fuel runs out before a free name is
    found. *)
Fixpoint unique_loop (fuel : nat) (dir baseName ext : jsstring) (counter : nat)
    : Js (option jsstring) :=
  match fuel with
  | 0 => ret None
  | S f =>
      let uniquePath :=
        Path.join [dir; baseName ++ " (" ++ number_to_string counter ++ ")" ++ ext] in
      let* taken := Fs.existsSync uniquePath in
      if taken then unique_loop f dir baseName ext (S counter)
      else ret (Some uniquePath)
  end.

Definition getUniqueFilePath (fuel : nat) (filePath : jsstring)
    : Js (option jsstring) :=
  let* present := Fs.existsSync filePath in
  if negb present then ret (Some filePath)
  else
    let dir := Path.dirname filePath in
    let ext := Path.extname filePath in
    let baseName := Path.basename filePath (Some ext) in
    unique_loop fuel dir baseName ext 1.

Definition normalizeLanguageCode (code : jsstring) : jsstring :=
  match exec languageCodeRegex code with
  | None => code
  | Some groups =>
      let language := capture groups LANGUAGE in
      let script := capture groups SCRIPT in
      let region := capture groups REGION in
      let normalized := toLowerCase (default [] language) in
      let normalized :=
        match script with
        | Some sc =>
            if truthy script
            then normalized ++ "-" ++ toUpperCase (take 1 sc)
                            ++ toLowerCase (drop 1 sc)
            else normalized
        | None => normalized
        end in
      let normalized :=
        match region with
        | Some rg =>
            if truthy region then normalized ++ "-" ++ toUpperCase rg
            else normalized
        | None => normalized
        end in
      normalized
  end.

Definition validateLanguageCode (code : jsstring) : bool :=
  truthy (Some code) && test languageCodeRegex code.

(* ================================================================= *)
(** ** Specification-level definitions *)

(** *** The language-code grammars, stated without the matcher *)

Inductive Format : Type := Standard | Arb.

Definition is_lower (a : ascii) : bool := in_range "a" "z" a.
Definition is_upper (a : ascii) : bool := in_range "A" "Z" a.
Definition is_digit (a : ascii) : bool := in_range "0" "9" a.
Definition is_letter (a : ascii) : bool := is_lower a || is_upper a.
Definition is_separator (a : ascii) : bool :=
  char_eqb a "-" || char_eqb a "|" || char_eqb a "_".
Definition is_underscore (a : ascii) : bool := char_eqb a "_".

(** The four character sets a grammar is made of: the standard grammar
    ignores case, the ARB grammar is case-strict and joins with [_] only. *)
Record CharSets : Type := mkSets {
  small : ascii -> bool;     (* [a-z] *)
  capital : ascii -> bool;   (* [A-Z] *)
  joiner : ascii -> bool;    (* the separator class *)
  numeral : ascii -> bool    (* [0-9] *)
}.

Definition char_sets (fmt : Format) : CharSets :=
  match fmt with
  | Standard => mkSets is_letter is_letter is_separator is_digit
  | Arb => mkSets is_lower is_upper is_underscore is_digit
  end.

(** A parsed code: the language subtag, and the optional script and region
    subtags, each with the separator written before it. *)
Record Subtags : Type := mkSubtags {
  language : jsstring;
  script : option (ascii * jsstring);
  region : option (ascii * jsstring)
}.

Definition render_part (p : option (ascii * jsstring)) : jsstring :=
  match p with
  | Some (sep, tag) => sep :: tag
  | None => []
  end.

Definition render (t : Subtags) : jsstring :=
  language t ++ render_part (script t) ++ render_part (region t).

Definition all_in (P : ascii -> bool) (s : jsstring) : bool := forallb P s.

Definition language_ok (cs : CharSets) (l : jsstring) : bool :=
  ((length l =? 2) || (length l =? 3)) && all_in (small cs) l.

Definition script_ok (cs : CharSets) (p : option (ascii * jsstring)) : bool :=
  match p with
  | None => true
  | Some (sep, tag) =>
      joiner cs sep && (length tag =? 4)
      && all_in (capital cs) (take 1 tag) && all_in (small cs) (drop 1 tag)
  end.

Definition region_ok (cs : CharSets) (p : option (ascii * jsstring)) : bool :=
  match p with
  | None => true
  | Some (sep, tag) =>
      joiner cs sep
      && ((((length tag =? 2) || (length tag =? 3)) && all_in (capital cs) tag)
          || ((length tag =? 3) && all_in (numeral cs) tag))
  end.

Definition well_formed_with (cs : CharSets) (t : Subtags) : bool :=
  language_ok cs (language t) && script_ok cs (script t)
  && region_ok cs (region t).

Definition well_formed (fmt : Format) (t : Subtags) : bool :=
  well_formed_with (char_sets fmt) t.

(** The character sets a pattern built by [code_body] tests with. *)
Definition pattern_sets (icase : bool) (sep : CharClass) : CharSets :=
  mkSets (class_match icase lower) (class_match icase upper)
         (class_match icase sep) (class_match icase digit).

(** A string fully matches the grammar of a format. *)
Definition Matches (fmt : Format) (s : jsstring) : Prop :=
  exists t, render t = s /\ well_formed fmt t = true.

(** The grammars in the words of the specification: the standard surface
    syntax joins the segments with [-] or [_], the ARB one with [_] only.
    (The class [[-|_]] of the standard pattern also contains the bar.) *)
Definition is_hyphen_or_underscore (a : ascii) : bool :=
  char_eqb a "-" || char_eqb a "_".

Definition documented_sets (fmt : Format) : CharSets :=
  match fmt with
  | Standard => mkSets is_letter is_letter is_hyphen_or_underscore is_digit
  | Arb => mkSets is_lower is_upper is_underscore is_digit
  end.

Definition DocumentedCode (fmt : Format) (s : jsstring) : Prop :=
  exists t, render t = s /\ well_formed_with (documented_sets fmt) t = true.

Definition BAR : ascii := "|"%char.

Definition pattern_of (fmt : Format) : Pattern :=
  match fmt with
  | Standard => languageCodeRegex
  | Arb => arbLanguageCodeRegex
  end.

Definition separator_class (fmt : Format) : CharClass :=
  match fmt with Standard => separator | Arb => underscore end.

(** The subtags recorded by the capture groups of a successful match. *)
Definition captured_part (c : Captures) (outer inner : nat)
    : option (ascii * jsstring) :=
  match capture c outer, capture c inner with
  | Some (sep :: _), Some tag => Some (sep, tag)
  | _, _ => None
  end.

Definition subtags_of (c : Captures) : Subtags :=
  mkSubtags (default [] (capture c LANGUAGE))
            (captured_part c 2 SCRIPT) (captured_part c 4 REGION).

(** The canonical form: language lower-case, script title-case, region
    upper-case, joined with hyphens. *)
Definition title_case (s : jsstring) : jsstring :=
  toUpperCase (take 1 s) ++ toLowerCase (drop 1 s).

Definition canonical (t : Subtags) : jsstring :=
  toLowerCase (language t)
  ++ match script t with Some (_, sc) => "-" ++ title_case sc | None => [] end
  ++ match region t with Some (_, rg) => "-" ++ toUpperCase rg | None => [] end.

(** The parse whose rendering is the canonical form. *)
Definition canonical_subtags (t : Subtags) : Subtags :=
  mkSubtags (toLowerCase (language t))
    (match script t with
     | Some (_, sc) => Some ("-"%char, title_case sc)
     | None => None
     end)
    (match region t with
     | Some (_, rg) => Some ("-"%char, toUpperCase rg)
     | None => None
     end).

(** The format a source path selects: ARB iff its extension is [.arb]. *)
Definition format_of (sourceFilePath : jsstring) : Format :=
  if jseqb (Path.extname sourceFilePath) ".arb" then Arb else Standard.

(** A name fully matches the grammar the source path selects. *)
Definition is_code_for (sourceFilePath name : jsstring) : Prop :=
  Matches (format_of sourceFilePath) name.

(** *** The structure [detectProjectStructure] returns

    The method touches neither the file system nor the console, so its
    result can be read off a run in the empty world. *)
Definition empty_world : World := mkWorld (mkFS ∅ ∅) [].

Definition structure_of (sourceFilePath : jsstring) : ProjectStructureInfo :=
  match fst (detectProjectStructure sourceFilePath empty_world) with
  | Returned info => info
  | Thrown _ => mkInfo Unknown [] None
  end.

(** The name of the immediate parent directory, and the grandparent. *)
Definition parent_name (sourceFilePath : jsstring) : jsstring :=
  Path.basename (Path.dirname sourceFilePath) None.

Definition grandparent (sourceFilePath : jsstring) : jsstring :=
  Path.dirname (Path.dirname sourceFilePath).

(** The base name of the source file, extension stripped. *)
Definition base_name (sourceFilePath : jsstring) : jsstring :=
  Path.basename sourceFilePath (Some (Path.extname sourceFilePath)).

Definition is_arb (sourceFilePath : jsstring) : bool :=
  jseqb (Path.extname sourceFilePath) ".arb".

(** *** ARB file names: the right-aligned suffixes of the segments *)

Definition suffix_candidates (fileName : jsstring) : list jsstring :=
  let parts := split "_" fileName in
  map (fun i => join "_" (drop i parts)) (seq 0 (length parts)).

(** The token and the target directory of [generateTargetFilePath]. *)
Definition token_of (sourceFilePath targetLanguage : jsstring) : jsstring :=
  if is_arb sourceFilePath then replace_hyphens targetLanguage
  else targetLanguage.

Definition target_dir (sourceFilePath targetLanguage : jsstring) : jsstring :=
  Path.join [grandparent sourceFilePath; token_of sourceFilePath targetLanguage].

(** The prefix [generateTargetFilePath] keeps for a file-based ARB source:
    what precedes the first occurrence of the source language in the base
    name. *)
Definition arb_prefix_of (sourceFilePath : jsstring) : jsstring :=
  let sourceLanguage := sourceLanguage (structure_of sourceFilePath) in
  match sourceLanguage with
  | Some sl =>
      if truthy sourceLanguage then
        let langIndex := indexOf (base_name sourceFilePath) sl in
        if (0 <? langIndex)%Z
        then substring0 (base_name sourceFilePath) langIndex
        else []
      else []
  | None => []
  end.

(** The file name [generateTargetFilePath] gives a file-based target. *)
Definition generated_name (sourceFilePath targetLanguage : jsstring)
    : jsstring :=
  (if is_arb sourceFilePath then arb_prefix_of sourceFilePath else [])
  ++ token_of sourceFilePath targetLanguage ++ Path.extname sourceFilePath.

(** [needle] occurs in [hay] right after the prefix [pre]. *)
Definition occurs_after (needle hay pre : jsstring) : Prop :=
  exists post, hay = pre ++ needle ++ post.

(** *** The candidates of collision resolution *)

Definition candidate (dir baseName ext : jsstring) (n : nat) : jsstring :=
  Path.join [dir; baseName ++ " (" ++ number_to_string n ++ ")" ++ ext].

Definition numbered (filePath : jsstring) (n : nat) : jsstring :=
  candidate (Path.dirname filePath) (base_name filePath)
            (Path.extname filePath) n.

Definition exists_in (w : World) (p : jsstring) : bool :=
  bool_decide (is_Some (nodes (fs w) !! p)).

Definition is_directory_in (w : World) (p : jsstring) : bool :=
  bool_decide (nodes (fs w) !! p = Some DirNode).

(** *** A concrete collation for worked examples

    Primary weights of the root collation on the characters language codes
    are made of: low line, hyphen, bar, digits, then letters without regard
    to case.  Every other code unit is placed after them, by code. *)
Definition primary_weight (a : ascii) : N :=
  if char_eqb a "_" then 1
  else if char_eqb a "-" then 2
  else if char_eqb a "|" then 3
  else if is_digit a then (10 + (code a - 48))%N
  else if is_letter a then (100 + code (toLowerCase_char a))%N
  else (1000 + code a)%N.

Fixpoint root_compare (a b : jsstring) : comparison :=
  match a, b with
  | [], [] => Eq
  | [], _ :: _ => Lt
  | _ :: _, [] => Gt
  | x :: a', y :: b' =>
      match (primary_weight x ?= primary_weight y)%N with
      | Eq => root_compare a' b'
      | c => c
      end
  end.

(** The set after [languageCodes.delete(sourceLanguage)] under its guard. *)
Definition without_source (languageCodes : JsSet) (source : option jsstring)
    : JsSet :=
  match source with
  | Some sl => if truthy source then set_delete languageCodes sl
               else languageCodes
  | None => languageCodes
  end.

(** The format and the extension the enumeration scans with: both follow
    from [sourceFilePath.endsWith(".arb")]. *)
Definition scan_arb (sourceFilePath : jsstring) : bool :=
  endsWith sourceFilePath ".arb".

Definition scan_format (sourceFilePath : jsstring) : Format :=
  if scan_arb sourceFilePath then Arb else Standard.

Definition scan_extension (sourceFilePath : jsstring) : jsstring :=
  if scan_arb sourceFilePath then ".arb" else ".json".

(** A language code is listed by the directory entries [entries] of the base
    path: as the name of a directory matching the grammar (folder-based), or
    as the code extracted from the name of a file with the scanned extension
    (file-based). *)
Definition listed (sourceFilePath : jsstring) (entries : list Dirent)
    (l : jsstring) : Prop :=
  match type (structure_of sourceFilePath) with
  | FolderBased =>
      exists d, d ∈ entries /\ isDirectory d = true /\ name d = l
                /\ Matches (scan_format sourceFilePath) l
  | FileBased =>
      exists d, d ∈ entries /\ isFile d = true
                /\ endsWith (name d) (scan_extension sourceFilePath) = true
                /\ extractLanguageCodeFromFileName
                     (Path.basename (name d)
                        (Some (scan_extension sourceFilePath)))
                     (scan_arb sourceFilePath) = Some l
                /\ l <> []
  | Unknown => False
  end.

(** The world after one more [console.warn]. *)
Definition warned (w : World) (msg : jsstring) (e : Error) : World :=
  mkWorld (fs w) (console w ++ [mkWarning msg e]).

(** The array [detectLanguagesFromProject] returns for a scanned set. *)
Definition sorted_codes {collator : Collator} (codes : JsSet)
    (src : option jsstring) : list jsstring :=
  array_sort localeCompare (without_source codes src).

(** The order [arr.sort] establishes for a comparator. *)
Definition in_order (cmp : jsstring -> jsstring -> comparison)
    (a b : jsstring) : Prop := cmp a b <> Gt.

(** *** Worlds used in worked examples *)

Definition world_of (entries : list (string * NodeKind)) : World :=
  mkWorld (mkFS (list_to_map (map (fun e => (str (fst e), snd e)) entries)) ∅) [].

(** [locales/en/common.json] next to the folders [locales/fr] and
    [locales/de]. *)
Definition locales_world : World :=
  world_of [("locales", DirNode); ("locales/en", DirNode);
            ("locales/fr", DirNode); ("locales/de", DirNode);
            ("locales/en/common.json", FileNode)].

(** [i18n/fr.json] and [i18n/fr (1).json] exist. *)
Definition collision_world : World :=
  world_of [("i18n", DirNode); ("i18n/en.json", FileNode);
            ("i18n/fr.json", FileNode); ("i18n/fr (1).json", FileNode)].

(** Only the source language folder exists. *)
Definition english_only_world : World :=
  world_of [("locales", DirNode); ("locales/en", DirNode);
            ("locales/en/common.json", FileNode)].

(** A Flutter project with the English source and a Spanish translation. *)
Definition flutter_world : World :=
  world_of [("lib/l10n", DirNode); ("lib/l10n/app_en_US.arb", FileNode);
            ("lib/l10n/app_es.arb", FileNode)].

(** A regular file named [locales/fr] stands where the target folder would go. *)
Definition blocked_world : World :=
  world_of [("locales", DirNode); ("locales/en", DirNode);
            ("locales/en/common.json", FileNode); ("locales/fr", FileNode)].

(** [translations/messages.json] with language-coded siblings. *)
Definition siblings_world : World :=
  world_of [("translations", DirNode); ("translations/messages.json", FileNode);
            ("translations/fr.json", FileNode); ("translations/de", DirNode)].

(** The listing of [locales] is denied. *)
Definition denied_world : World :=
  mkWorld (mkFS (nodes (fs locales_world)) {[ str "locales" ]}) [].

(* ================================================================= *)
(** * Properties *)

(** ** Characters *)

Ltac all_chars a := destruct a as [[] [] [] [] [] [] [] []]; vm_compute; try reflexivity.

Lemma class_lower_icase a : class_match true lower a = is_letter a.
Proof. all_chars a. Qed.

Lemma class_upper_icase a : class_match true upper a = is_letter a.
Proof. all_chars a. Qed.

Lemma class_separator_icase a : class_match true separator a = is_separator a.
Proof. all_chars a. Qed.

Lemma class_digit_icase a : class_match true digit a = is_digit a.
Proof. all_chars a. Qed.

Lemma class_lower_strict a : class_match false lower a = is_lower a.
Proof. all_chars a. Qed.

Lemma class_upper_strict a : class_match false upper a = is_upper a.
Proof. all_chars a. Qed.

Lemma class_underscore_strict a : class_match false underscore a = is_underscore a.
Proof. all_chars a. Qed.

Lemma class_digit_strict a : class_match false digit a = is_digit a.
Proof. all_chars a. Qed.

(** ** The matcher agrees with the declarative semantics *)

Lemma take_consumed (s1 s2 : jsstring) :
  take (length (s1 ++ s2) - length s2) (s1 ++ s2) = s1.
Proof.
  rewrite length_app.
  replace (length s1 + length s2 - length s2) with (length s1) by lia.
  apply take_app_length.
Qed.

Lemma run_sound icase r :
  forall s c k out,
    run icase r s c k = Some out ->
    exists s1 s2 c1,
      s = s1 ++ s2 /\ Sem icase r s1 c c1 /\ k s2 c1 = Some out.
Proof.
  induction r as [| cls | r1 IH1 r2 IH2 | r1 IH1 r2 IH2 | r1 IH1 | idx r1 IH1];
    intros s c k out Hrun; simpl in Hrun.
  - exists [], s, c. repeat split; [constructor | assumption].
  - destruct s as [| a s']; [discriminate |].
    destruct (class_match icase cls a) eqn:Hcls; [| discriminate].
    exists [a], s', c. repeat split; [constructor; assumption | assumption].
  - apply IH1 in Hrun as (s1 & s2 & c1 & -> & Hs1 & Hrest).
    apply IH2 in Hrest as (s3 & s4 & c2 & -> & Hs3 & Hk).
    exists (s1 ++ s3), s4, c2. rewrite <- app_assoc.
    repeat split; [econstructor; eassumption | assumption].
  - destruct (run icase r1 s c k) eqn:H1.
    + injection Hrun as ->.
      apply IH1 in H1 as (s1 & s2 & c1 & -> & Hs1 & Hk).
      exists s1, s2, c1. repeat split; [apply SemAltL; assumption | assumption].
    + apply IH2 in Hrun as (s1 & s2 & c1 & -> & Hs1 & Hk).
      exists s1, s2, c1. repeat split; [apply SemAltR; assumption | assumption].
  - destruct (run icase r1 s c k) eqn:H1.
    + injection Hrun as ->.
      apply IH1 in H1 as (s1 & s2 & c1 & -> & Hs1 & Hk).
      exists s1, s2, c1. repeat split; [apply SemOptSome; assumption | assumption].
    + exists [], s, c. repeat split; [apply SemOptNone | assumption].
  - apply IH1 in Hrun as (s1 & s2 & c1 & -> & Hs1 & Hk).
    rewrite take_consumed in Hk.
    exists s1, s2, ((idx, s1) :: c1).
    repeat split; [constructor; assumption | assumption].
Qed.

Lemma run_complete icase r s1 c c1 :
  Sem icase r s1 c c1 ->
  forall c0 s2 (k : Cont),
    (forall c', is_Some (k s2 c')) ->
    is_Some (run icase r (s1 ++ s2) c0 k).
Proof.
  induction 1 as [c | cls a c Hcls | r1 r2 s1 s2 c c1 c2 _ IH1 _ IH2
                 | r1 r2 s c c' _ IH | r1 r2 s c c' _ IH
                 | r s c c' _ IH | r c | idx r s c c' _ IH];
    intros c0 s0 k Hk; simpl.
  - apply Hk.
  - rewrite Hcls. apply Hk.
  - rewrite <- app_assoc. apply IH1. intros c'. apply IH2, Hk.
  - destruct (IH c0 s0 k Hk) as [out ->]. eauto.
  - destruct (run icase r1 (s ++ s0) c0 k); [eauto |]. apply IH, Hk.
  - destruct (IH c0 s0 k Hk) as [out ->]. eauto.
  - destruct (run icase r s0 c0 k); [eauto |]. apply Hk.
  - apply IH. intros c'1. apply Hk.
Qed.

Lemma exec_sound re s c :
  exec re s = Some c -> Sem (ignoreCase re) (body re) s [] c.
Proof.
  unfold exec. intros H.
  apply run_sound in H as (s1 & s2 & c1 & -> & Hsem & Hend).
  destruct s2; [| discriminate]. injection Hend as ->.
  rewrite app_nil_r. assumption.
Qed.

Lemma test_iff_sem re s :
  test re s = true <-> exists c, Sem (ignoreCase re) (body re) s [] c.
Proof.
  unfold test. split.
  - destruct (exec re s) eqn:H; [| discriminate].
    intros _. eexists. apply exec_sound. eassumption.
  - intros [c Hsem].
    destruct (run_complete _ _ _ _ _ Hsem [] [] at_end) as [out Hout].
    + intros c'. simpl. eauto.
    + rewrite app_nil_r in Hout. unfold exec. rewrite Hout. reflexivity.
Qed.

(** ** The two patterns denote the two grammars *)

Arguments class_match : simpl never.

Ltac inv_sem :=
  repeat match goal with
         | H : Sem _ Empty _ _ _ |- _ => inversion H; subst; clear H
         | H : Sem _ (Class _) _ _ _ |- _ => inversion H; subst; clear H
         | H : Sem _ (Seq _ _) _ _ _ |- _ => inversion H; subst; clear H
         | H : Sem _ (Alt _ _) _ _ _ |- _ => inversion H; subst; clear H
         | H : Sem _ (Opt _) _ _ _ |- _ => inversion H; subst; clear H
         | H : Sem _ (Group _ _) _ _ _ |- _ => inversion H; subst; clear H
         end.

Ltac use_classes :=
  repeat match goal with
         | H : class_match _ _ _ = true |- _ => rewrite H; clear H
         end.

Lemma code_body_parse icase sep s c :
  Sem icase (code_body sep) s [] c ->
  render (subtags_of c) = s
  /\ well_formed_with (pattern_sets icase sep) (subtags_of c) = true.
Proof.
  unfold code_body. cbn [repeat_range times upto Nat.sub].
  intros H. inv_sem; (split; [reflexivity |]);
    unfold well_formed_with, pattern_sets; cbn; use_classes; cbn;
    rewrite ?orb_true_r; reflexivity.
Qed.

Lemma SemSeq_at icase r1 r2 (s1 s2 s : jsstring) c c1 c2 :
  s = s1 ++ s2 -> Sem icase r1 s1 c c1 -> Sem icase r2 s2 c1 c2 ->
  Sem icase (Seq r1 r2) s c c2.
Proof. intros ->. apply SemSeq. Qed.

(** Derivation search on a concrete regex and a list of known shape: a
    sequence tries every split point of the list. *)
Ltac sem_search :=
  lazymatch goal with
  | |- Sem _ Empty [] _ _ => apply SemEmpty
  | |- Sem _ (Class _) [_] _ _ => apply SemClass; assumption
  | |- Sem _ (Seq _ _) ?s _ _ => sem_split (@nil ascii) s
  | |- Sem _ (Alt _ _) _ _ _ =>
      (apply SemAltL; sem_search) + (apply SemAltR; sem_search)
  | |- Sem _ (Opt _) _ _ _ =>
      (apply SemOptSome; sem_search) + (apply SemOptNone)
  | |- Sem _ (Group _ _) _ _ _ => apply SemGroup; sem_search
  end
with sem_split pre post :=
  (eapply (SemSeq_at _ _ _ pre post); [reflexivity | sem_search | sem_search])
  + lazymatch post with
    | ?x :: ?post' => let pre' := eval cbn in (pre ++ [x]) in sem_split pre' post'
    end.

Ltac bools :=
  repeat match goal with
         | H : _ && _ = true |- _ => apply andb_prop in H as [? ?]
         | H : _ || _ = true |- _ => apply orb_prop in H as [H | H]
         | H : false = true |- _ => discriminate H
         | H : true = true |- _ => clear H
         end.

Ltac shape l :=
  repeat (destruct l as [| ? l]; try (cbn in *; lia); try discriminate).

Lemma well_formed_shape cs t :
  well_formed_with cs t = true ->
  ((exists a b, language t = [a; b]) \/ (exists a b c, language t = [a; b; c]))
  /\ (script t = None \/ exists sep w x y z, script t = Some (sep, [w; x; y; z]))
  /\ (region t = None \/ (exists sep x y, region t = Some (sep, [x; y]))
      \/ (exists sep x y z, region t = Some (sep, [x; y; z]))).
Proof.
  destruct t as [l sc rg].
  unfold well_formed_with, language_ok, script_ok, region_ok.
  cbn [language script region].
  intros H. apply andb_prop in H as [H Hrg]. apply andb_prop in H as [Hl Hsc].
  apply andb_prop in Hl as [Hlen Hl].
  split; [| split].
  - destruct l as [| a [| b [| c [| d l]]]]; try discriminate; eauto.
  - destruct sc as [[j tag] |]; [right | left; reflexivity].
    apply andb_prop in Hsc as [Hsc _]. apply andb_prop in Hsc as [Hsc _].
    apply andb_prop in Hsc as [_ Hsc].
    destruct tag as [| w [| x [| y [| z [| v tag]]]]]; try discriminate.
    eauto 8.
  - destruct rg as [[j tag] |]; [right | left; reflexivity].
    apply andb_prop in Hrg as [_ Hrg].
    destruct tag as [| x [| y [| z [| v tag]]]]; try discriminate; eauto 8.
Qed.

Ltac shapes H t :=
  let l := fresh "l" in let sc := fresh "sc" in let rg := fresh "rg" in
  destruct t as [l sc rg];
  let S := fresh "S" in
  pose proof (well_formed_shape _ _ H) as S;
  cbn [language script region] in S;
  destruct S as ([(? & ? & ->) | (? & ? & ? & ->)]
                 & [-> | (? & ? & ? & ? & ? & ->)]
                 & [-> | [(? & ? & ? & ->) | (? & ? & ? & ? & ->)]]);
  unfold well_formed_with, language_ok, script_ok, region_ok in H;
  cbn in H; bools.

Lemma code_body_complete icase sep t :
  well_formed_with (pattern_sets icase sep) t = true ->
  exists c, Sem icase (code_body sep) (render t) [] c.
Proof.
  intros H. unfold code_body, render. cbn [repeat_range times upto Nat.sub].
  shapes H t; eexists; cbn [app render_part language script region];
    solve [sem_search].
Qed.

Lemma all_in_ext (P Q : ascii -> bool) s :
  (forall a, P a = Q a) -> all_in P s = all_in Q s.
Proof.
  intros H. induction s as [| a s IH]; [reflexivity |].
  cbn. rewrite H. unfold all_in in IH. rewrite IH. reflexivity.
Qed.

Lemma well_formed_with_ext cs1 cs2 t :
  (forall a, small cs1 a = small cs2 a) ->
  (forall a, capital cs1 a = capital cs2 a) ->
  (forall a, joiner cs1 a = joiner cs2 a) ->
  (forall a, numeral cs1 a = numeral cs2 a) ->
  well_formed_with cs1 t = well_formed_with cs2 t.
Proof.
  intros Hs Hc Hj Hn. destruct t as [l sc rg].
  unfold well_formed_with, language_ok, script_ok, region_ok.
  cbn [language script region].
  rewrite (all_in_ext _ _ l Hs). f_equal; [f_equal |].
  - destruct sc as [[j tag] |]; [| reflexivity].
    rewrite Hj, (all_in_ext _ _ (take 1 tag) Hc),
      (all_in_ext _ _ (drop 1 tag) Hs). reflexivity.
  - destruct rg as [[j tag] |]; [| reflexivity].
    rewrite Hj, (all_in_ext _ _ tag Hc), (all_in_ext _ _ tag Hn). reflexivity.
Qed.

Lemma pattern_of_body fmt :
  body (pattern_of fmt) = code_body (separator_class fmt).
Proof. destruct fmt; reflexivity. Qed.

Lemma pattern_sets_format fmt t :
  well_formed_with
    (pattern_sets (ignoreCase (pattern_of fmt)) (separator_class fmt)) t
  = well_formed fmt t.
Proof.
  unfold well_formed. apply well_formed_with_ext; destruct fmt; intros a; cbn.
  - apply class_lower_icase.
  - apply class_lower_strict.
  - apply class_upper_icase.
  - apply class_upper_strict.
  - apply class_separator_icase.
  - apply class_underscore_strict.
  - apply class_digit_icase.
  - apply class_digit_strict.
Qed.

(** A successful [exec] records a well-formed parse of its input. *)
Lemma exec_parse fmt s c :
  exec (pattern_of fmt) s = Some c ->
  render (subtags_of c) = s /\ well_formed fmt (subtags_of c) = true.
Proof.
  intros H. apply exec_sound in H. rewrite pattern_of_body in H.
  apply code_body_parse in H. rewrite pattern_sets_format in H. exact H.
Qed.

(** [test] decides the grammar. *)
Lemma test_matches fmt s : test (pattern_of fmt) s = true <-> Matches fmt s.
Proof.
  split.
  - unfold test. destruct (exec (pattern_of fmt) s) eqn:H; [| discriminate].
    intros _. exists (subtags_of c). apply exec_parse. assumption.
  - intros (t & <- & Hwf). apply test_iff_sem.
    rewrite pattern_of_body. apply code_body_complete.
    rewrite pattern_sets_format. assumption.
Qed.

Lemma test_not_matches fmt s : test (pattern_of fmt) s = false <-> ~ Matches fmt s.
Proof.
  rewrite <- test_matches. destruct (test (pattern_of fmt) s); split; intros H;
    try discriminate; try reflexivity; try (intros ?; discriminate).
  exfalso. apply H. reflexivity.
Qed.

Lemma joiner_not_small fmt a :
  joiner (char_sets fmt) a = true -> small (char_sets fmt) a = true -> False.
Proof.
  destruct fmt; cbn; revert a; intros a; all_chars a; intros; discriminate.
Qed.

(** A string has at most one well-formed parse. *)
Lemma parse_unique fmt t t' :
  well_formed fmt t = true -> well_formed fmt t' = true ->
  render t = render t' -> t = t'.
Proof.
  unfold well_formed. intros H H' Heq. pose proof (joiner_not_small fmt) as D.
  unfold render in Heq.
  shapes H t; shapes H' t'; cbn in Heq; try discriminate Heq;
    simplify_eq; try reflexivity;
    match goal with
    | Hj : joiner _ ?a = true, Hs : small _ ?a = true |- _ =>
        destruct (D a Hj Hs)
    end.
Qed.


(** ** Validation and normalisation *)

Lemma validate_is_test code :
  validateLanguageCode code = test languageCodeRegex code.
Proof.
  unfold validateLanguageCode. destruct code as [| a code]; reflexivity.
Qed.

(** *** The documented grammars and the patterns *)

Lemma joiner_documented fmt a :
  joiner (documented_sets fmt) a = true ->
  joiner (char_sets fmt) a = true /\ a <> BAR.
Proof. destruct fmt; cbn; all_chars a; intros; split; congruence. Qed.

Lemma joiner_without_bar fmt a :
  joiner (char_sets fmt) a = true -> a <> BAR ->
  joiner (documented_sets fmt) a = true.
Proof.
  destruct fmt; cbn; all_chars a; intros; try congruence.
Qed.

Lemma letters_have_no_bar fmt (s : jsstring) :
  all_in (small (char_sets fmt)) s = true
  \/ all_in (capital (char_sets fmt)) s = true
  \/ all_in (numeral (char_sets fmt)) s = true ->
  ~ In BAR s.
Proof.
  intros H Hin.
  assert (Hbar : small (char_sets fmt) BAR = false
                 /\ capital (char_sets fmt) BAR = false
                 /\ numeral (char_sets fmt) BAR = false)
    by (destruct fmt; repeat split).
  destruct Hbar as (H1 & H2 & H3). unfold all_in in H.
  rewrite !forallb_forall in H.
  destruct H as [H | [H | H]]; specialize (H _ Hin); congruence.
Qed.

Lemma well_formed_joiner cs1 cs2 t :
  small cs1 = small cs2 -> capital cs1 = capital cs2 ->
  numeral cs1 = numeral cs2 ->
  (forall j tag, script t = Some (j, tag) \/ region t = Some (j, tag) ->
                 joiner cs1 j = true -> joiner cs2 j = true) ->
  well_formed_with cs1 t = true -> well_formed_with cs2 t = true.
Proof.
  destruct cs1 as [s1 c1 j1 n1], cs2 as [s2 c2 j2 n2]. cbn.
  intros -> -> -> Hj. destruct t as [l sc rg].
  unfold well_formed_with, language_ok, script_ok, region_ok.
  cbn [language script region small capital joiner numeral] in *.
  intros H. apply andb_prop in H as [H Hrg]. apply andb_prop in H as [Hl Hsc].
  rewrite Hl. cbn [andb]. apply andb_true_intro. split.
  - destruct sc as [[j tag] |]; [| reflexivity].
    destruct (j1 j) eqn:E; [| discriminate].
    rewrite (Hj j tag (or_introl eq_refl) E). exact Hsc.
  - destruct rg as [[j tag] |]; [| reflexivity].
    destruct (j1 j) eqn:E; [| discriminate].
    rewrite (Hj j tag (or_intror eq_refl) E). exact Hrg.
Qed.

Lemma documented_is_pattern fmt s : DocumentedCode fmt s -> Matches fmt s.
Proof.
  intros (t & <- & H). exists t. split; [reflexivity |].
  unfold well_formed. revert H.
  apply well_formed_joiner; try (destruct fmt; reflexivity).
  intros j tag _ Hj. apply (joiner_documented fmt j Hj).
Qed.






Lemma code_body_captures icase sep s c :
  Sem icase (code_body sep) s [] c ->
  capture c LANGUAGE = Some (language (subtags_of c))
  /\ capture c SCRIPT = snd <$> script (subtags_of c)
  /\ capture c REGION = snd <$> region (subtags_of c).
Proof.
  unfold code_body. cbn [repeat_range times upto Nat.sub].
  intros H. inv_sem; repeat split; reflexivity.
Qed.

Lemma normalize_matched code c :
  exec languageCodeRegex code = Some c ->
  normalizeLanguageCode code = canonical (subtags_of c).
Proof.
  intros H. unfold normalizeLanguageCode. rewrite H.
  pose proof (exec_parse Standard _ _ H) as [_ Hwf].
  apply exec_sound, code_body_captures in H as (Hl & Hs & Hr).
  rewrite Hl, Hs, Hr. unfold canonical, well_formed in *.
  remember (subtags_of c) as t eqn:Ht. clear Ht Hl Hs Hr.
  shapes Hwf t; reflexivity.
Qed.

Lemma letter_lower a :
  is_letter a = true -> is_letter (toLowerCase_char a) = true.
Proof. all_chars a; intros H; exact H. Qed.

Lemma letter_upper a :
  is_letter a = true -> is_letter (toUpperCase_char a) = true.
Proof. all_chars a; intros H; exact H. Qed.

Lemma digit_upper a :
  is_digit a = true -> is_digit (toUpperCase_char a) = true.
Proof. all_chars a; intros H; exact H. Qed.

Arguments is_letter : simpl never.
Arguments is_digit : simpl never.
Arguments toLowerCase_char : simpl never.
Arguments toUpperCase_char : simpl never.

Ltac use_cases :=
  repeat match goal with
         | H : is_letter ?a = true |- _ =>
             rewrite ?(letter_lower a H), ?(letter_upper a H); clear H
         | H : is_digit ?a = true |- _ =>
             rewrite ?(digit_upper a H); clear H
         end.

(** The canonical form is itself a code of the documented grammar, joined
    with hyphens. *)
Lemma canonical_documented t :
  well_formed Standard t = true ->
  render (canonical_subtags t) = canonical t
  /\ well_formed_with (documented_sets Standard) (canonical_subtags t) = true.
Proof.
  unfold well_formed. intros H.
  shapes H t; (split; [reflexivity |]);
    unfold well_formed_with, language_ok, script_ok, region_ok; cbn;
    use_cases; cbn; rewrite ?orb_true_r; reflexivity.
Qed.

Lemma normalize_cases code :
  (exists t, render t = code /\ well_formed Standard t = true
             /\ normalizeLanguageCode code = canonical t
             /\ DocumentedCode Standard (canonical t))
  \/ (~ Matches Standard code /\ normalizeLanguageCode code = code).
Proof.
  destruct (exec languageCodeRegex code) as [c |] eqn:H.
  - left. exists (subtags_of c).
    destruct (exec_parse Standard _ _ H) as [Hr Hwf].
    repeat split; try assumption; [apply normalize_matched; assumption |].
    exists (canonical_subtags (subtags_of c)).
    apply canonical_documented. assumption.
  - right. split.
    + apply (test_not_matches Standard). unfold test. cbn [pattern_of].
      rewrite H. reflexivity.
    + unfold normalizeLanguageCode. rewrite H. reflexivity.
Qed.

(** The canonical form does not depend on how the input is parsed: every
    well-formed parse of the input is the one the matcher finds. *)
Lemma normalize_render t :
  well_formed Standard t = true ->
  normalizeLanguageCode (render t) = canonical t.
Proof.
  intros Hwf.
  destruct (normalize_cases (render t)) as [(t' & Hr & Hwf' & -> & _) | [Hno _]].
  - f_equal. apply (parse_unique Standard); assumption.
  - destruct Hno. exists t. split; [reflexivity | assumption].
Qed.

(** The characters a code can be made of. *)
Definition code_char (cs : CharSets) (a : ascii) : bool :=
  small cs a || capital cs a || joiner cs a || numeral cs a.

Lemma well_formed_chars cs t :
  well_formed_with cs t = true -> forallb (code_char cs) (render t) = true.
Proof.
  intros H. unfold render.
  shapes H t; cbn [app render_part language script region forallb];
    unfold code_char;
    repeat match goal with
           | E : _ = true |- _ => rewrite E; clear E
           end;
    rewrite ?orb_true_r; reflexivity.
Qed.

Lemma well_formed_without_bar fmt t :
  ~ In BAR (render t) -> well_formed fmt t = true ->
  well_formed_with (documented_sets fmt) t = true.
Proof.
  intros Hbar H. unfold well_formed in H. revert H.
  apply well_formed_joiner; try (destruct fmt; reflexivity).
  intros j tag Hin Hj. apply joiner_without_bar; [assumption |].
  intros ->. apply Hbar. unfold render. rewrite !in_app_iff.
  destruct Hin as [-> | ->]; cbn; auto.
Qed.

Lemma documented_has_no_bar fmt (s : jsstring) :
  DocumentedCode fmt s -> ~ In BAR s.
Proof.
  intros (t & <- & Hwf) Hin. apply well_formed_chars in Hwf.
  rewrite forallb_forall in Hwf. specialize (Hwf _ Hin).
  destruct fmt; vm_compute in Hwf; discriminate.
Qed.

(** C8: the claim holds for every input without a bar: such an input
    either is a code of the documented grammar (separators [-] and [_]) and
    the result is its canonical form, language lower-case, script
    title-case, region upper-case, joined with hyphens, or it is not and
    is returned unchanged.  The separator class [[-|_]] of the pattern also
    contains the bar, so at [en|US], which the grammar does not admit, the
    code returns [en-US] instead of the input. *)
Theorem normalizeLanguageCode_rewrites_bar_separated :
  (forall code,
      ~ In BAR code ->
      (exists t, render t = code
                 /\ well_formed_with (documented_sets Standard) t = true
                 /\ normalizeLanguageCode code = canonical t
                 /\ DocumentedCode Standard (canonical t))
      \/ (~ DocumentedCode Standard code /\ normalizeLanguageCode code = code))
  /\ normalizeLanguageCode "ZH-hans-CN" = "zh-Hans-CN"
  /\ normalizeLanguageCode "invalid-code" = "invalid-code"
  /\ ~ DocumentedCode Standard "en|US"
  /\ normalizeLanguageCode "en|US" = "en-US"
  /\ str "en|US" <> str "en-US".
Proof.
  split; [| split; [reflexivity | split; [reflexivity | split;
                    [| split; [reflexivity | discriminate]]]]].
  - intros code Hbar.
    destruct (normalize_cases code) as [(t & Hr & Hwf & Hn & Hd) | [Hno Hn]].
    + left. exists t. repeat split; try assumption.
      apply well_formed_without_bar; [rewrite Hr; exact Hbar | exact Hwf].
    + right. split; [| exact Hn].
      intros Hd. apply Hno. apply documented_is_pattern. exact Hd.
  - intros Hd. apply documented_has_no_bar in Hd. apply Hd.
    cbn. tauto.
Qed.

Lemma normalizeLanguageCode_rewrites_bar_separated_witness :
  (exists t, render t = str "zh_hans_cn"
             /\ well_formed_with (documented_sets Standard) t = true
             /\ normalizeLanguageCode "zh_hans_cn" = canonical t
             /\ DocumentedCode Standard (canonical t))
  \/ (~ DocumentedCode Standard "zh_hans_cn"
      /\ normalizeLanguageCode "zh_hans_cn" = str "zh_hans_cn").
Proof.
  apply (proj1 normalizeLanguageCode_rewrites_bar_separated "zh_hans_cn").
  cbn. intuition discriminate.
Defined.

Example normalize_zh_hans_cn : normalizeLanguageCode "zh_hans_cn" = "zh-Hans-CN".
Proof. reflexivity. Qed.

(** ** Splitting and joining *)

Lemma char_eqb_eq a b : char_eqb a b = true <-> a = b.
Proof. apply Ascii.eqb_eq. Qed.

Lemma split_nonempty sep s : split sep s <> [].
Proof.
  destruct s as [| a s]; cbn; [discriminate |].
  destruct (char_eqb a sep); [discriminate |].
  destruct (split sep s); discriminate.
Qed.

Lemma join_cons sep p ps :
  ps <> [] -> join sep (p :: ps) = p ++ sep ++ join sep ps.
Proof. destruct ps; [congruence | reflexivity]. Qed.

Lemma join_split sep s : join [sep] (split sep s) = s.
Proof.
  induction s as [| a s IH]; [reflexivity |].
  cbn [split]. destruct (char_eqb a sep) eqn:E.
  - apply char_eqb_eq in E as ->.
    rewrite join_cons by apply split_nonempty. rewrite IH. reflexivity.
  - pose proof (split_nonempty sep s) as Hne.
    destruct (split sep s) as [| p ps]; [congruence |].
    destruct ps as [| q ps]; cbn in *; rewrite <- IH; reflexivity.
Qed.

Lemma join_app sep l1 l2 :
  l1 <> [] -> l2 <> [] ->
  join sep (l1 ++ l2) = join sep l1 ++ sep ++ join sep l2.
Proof.
  induction l1 as [| p l1 IH]; intros H1 H2; [congruence |].
  destruct l1 as [| q l1].
  - cbn [app]. rewrite join_cons by assumption. reflexivity.
  - change ((p :: q :: l1) ++ l2) with (p :: ((q :: l1) ++ l2)).
    rewrite join_cons by discriminate.
    rewrite IH by (assumption || discriminate).
    rewrite (join_cons sep p (q :: l1)) by discriminate.
    rewrite <- !app_assoc. reflexivity.
Qed.

(** Every candidate is a right-aligned suffix of the name, and a later
    candidate is strictly shorter than an earlier one. *)
Lemma drop_join_suffix sep parts i :
  0 < i -> i < length parts ->
  join sep parts = join sep (take i parts) ++ sep ++ join sep (drop i parts).
Proof.
  intros Hi Hlt. rewrite <- (take_drop i parts) at 1.
  apply join_app.
  - intros E. apply (f_equal length) in E. rewrite length_take in E.
    cbn in E. lia.
  - intros E. apply (f_equal length) in E. rewrite length_drop in E.
    cbn in E. lia.
Qed.

Lemma candidates_lookup fileName i :
  i < length (split "_" fileName) ->
  suffix_candidates fileName !! i
  = Some (join "_" (drop i (split "_" fileName))).
Proof.
  intros Hi. unfold suffix_candidates.
  rewrite list_lookup_fmap, lookup_seq_lt by assumption. reflexivity.
Qed.

Lemma candidates_length fileName :
  length (suffix_candidates fileName) = length (split "_" fileName).
Proof. unfold suffix_candidates. rewrite length_map, length_seq. reflexivity. Qed.

Lemma candidate_is_suffix fileName i c :
  suffix_candidates fileName !! i = Some c ->
  exists pre, fileName = pre ++ c /\ (i = 0 <-> pre = []).
Proof.
  intros H. assert (Hi : i < length (split "_" fileName)).
  { rewrite <- candidates_length. eapply lookup_lt_Some. eassumption. }
  rewrite candidates_lookup in H by assumption. injection H as <-.
  destruct i as [| i].
  - exists []. rewrite drop_0. change (str "_") with ["_"%char].
    rewrite join_split. split; [reflexivity | tauto].
  - exists (join "_" (take (S i) (split "_" fileName)) ++ "_").
    rewrite <- app_assoc. change (str "_") with ["_"%char].
    rewrite <- drop_join_suffix by (assumption || lia).
    rewrite join_split. split; [reflexivity |].
    split; [discriminate |]. intros E. apply (f_equal length) in E.
    rewrite length_app in E. cbn in E. lia.
Qed.

Lemma candidates_shrink fileName i j c c' :
  i < j ->
  suffix_candidates fileName !! i = Some c ->
  suffix_candidates fileName !! j = Some c' ->
  length c' < length c.
Proof.
  intros Hij Hi Hj.
  assert (Hjl : j < length (split "_" fileName)).
  { rewrite <- candidates_length. eapply lookup_lt_Some. eassumption. }
  rewrite candidates_lookup in Hi, Hj by lia.
  injection Hi as <-. injection Hj as <-.
  set (rest := drop i (split "_" fileName)).
  replace (drop j (split "_" fileName)) with (drop (j - i) rest)
    by (unfold rest; rewrite drop_drop; f_equal; lia).
  assert (Hr : j - i < length rest) by (unfold rest; rewrite length_drop; lia).
  change (str "_") with ["_"%char].
  rewrite (drop_join_suffix ["_"%char] rest (j - i)) by (lia || assumption).
  rewrite !length_app. cbn. lia.
Qed.

(** ** Extraction of a language code from a file name *)

Lemma find_first {A} (f : A -> bool) (l : list A) x :
  List.find f l = Some x <->
  exists i, l !! i = Some x /\ f x = true
            /\ forall j y, j < i -> l !! j = Some y -> f y = false.
Proof.
  induction l as [| a l IH]; cbn.
  - split; [discriminate | intros (i & H & _); destruct i; discriminate].
  - destruct (f a) eqn:Ha.
    + split.
      * intros [= <-]. exists 0. repeat split; [assumption |]. intros; lia.
      * intros (i & Hi & Hx & Hmin). destruct i as [| i]; [exact Hi |].
        specialize (Hmin 0 a (Nat.lt_0_succ i) eq_refl). congruence.
    + rewrite IH. split.
      * intros (i & Hi & Hx & Hmin). exists (S i). repeat split; try assumption.
        intros [| j] y Hj Hy; [cbn in Hy; congruence |].
        apply (Hmin j); [lia | exact Hy].
      * intros (i & Hi & Hx & Hmin). destruct i as [| i].
        { cbn in Hi. congruence. }
        exists i. repeat split; try assumption.
        intros j y Hj Hy. apply (Hmin (S j)); [lia | exact Hy].
Qed.

Lemma find_none_iff {A} (f : A -> bool) (l : list A) :
  List.find f l = None <-> forall x, x ∈ l -> f x = false.
Proof.
  induction l as [| a l IH]; cbn.
  - split; [intros _ x Hx; inversion Hx | reflexivity].
  - destruct (f a) eqn:Ha.
    + split; [discriminate |]. intros H.
      rewrite (H a) in Ha by constructor. discriminate.
    + rewrite IH. split.
      * intros H x Hx. inversion Hx; subst; [assumption | apply H; assumption].
      * intros H x Hx. apply H. constructor. assumption.
Qed.

Lemma extract_loop_find parts fuel i :
  i + fuel = length parts ->
  extract_loop parts fuel i
  = List.find (test arbLanguageCodeRegex)
      (map (fun j => join "_" (drop j parts)) (seq i fuel)).
Proof.
  revert i. induction fuel as [| fuel IH]; intros i Hlen; [reflexivity |].
  cbn [extract_loop seq map List.find].
  destruct (Nat.ltb_spec i (length parts)) as [_ | Hge]; [| lia].
  destruct (test arbLanguageCodeRegex (join "_" (drop i parts))); [reflexivity |].
  apply IH. lia.
Qed.

(** The loop is the search for the first matching candidate. *)
Lemma extract_arb_find fileName :
  extractLanguageCodeFromFileName fileName true
  = List.find (test arbLanguageCodeRegex) (suffix_candidates fileName).
Proof.
  unfold extractLanguageCodeFromFileName, suffix_candidates.
  apply extract_loop_find. reflexivity.
Qed.

Lemma extract_arb_candidates (fileName : jsstring) :
  let candidates := suffix_candidates fileName in
  let parts := split "_" fileName in
  (* the candidates: one per segment, the whole name first, the last
     segment last, each a suffix of the name, strictly shrinking *)
  length candidates = length parts
  /\ candidates !! 0 = Some fileName
  /\ last candidates = last parts
  /\ (forall i c, candidates !! i = Some c -> exists pre, fileName = pre ++ c)
  /\ (forall i j c c', i < j -> candidates !! i = Some c ->
        candidates !! j = Some c' -> length c' < length c)
  (* the result is the first candidate matching the grammar *)
  /\ (forall code,
        extractLanguageCodeFromFileName fileName true = Some code <->
        exists i, candidates !! i = Some code /\ Matches Arb code
                  /\ forall j c, j < i -> candidates !! j = Some c ->
                                 ~ Matches Arb c)
  (* it fails iff no candidate matches *)
  /\ (extractLanguageCodeFromFileName fileName true = None <->
      forall c, c ∈ candidates -> ~ Matches Arb c).
Proof.
  cbn zeta. split; [apply candidates_length |].
  pose proof (split_nonempty "_" fileName) as Hne.
  assert (Hpos : 0 < length (split "_" fileName)).
  { destruct (split "_" fileName); [congruence | cbn; lia]. }
  split; [| split; [| split; [| split; [| split]]]].
  - rewrite candidates_lookup by assumption. rewrite drop_0.
    change (str "_") with ["_"%char]. rewrite join_split. reflexivity.
  - rewrite !last_lookup, candidates_length.
    rewrite candidates_lookup by lia.
    set (n := pred (length (split "_" fileName))).
    destruct (split "_" fileName !! n) as [p |] eqn:Hp.
    + rewrite (drop_S _ p n Hp).
      rewrite drop_ge by (subst n; lia). reflexivity.
    + apply lookup_ge_None in Hp. subst n. lia.
  - intros i c Hc. destruct (candidate_is_suffix _ _ _ Hc) as (pre & -> & _).
    eauto.
  - apply candidates_shrink.
  - intros code. rewrite extract_arb_find, find_first.
    split; intros (i & Hi & Hm & Hmin); exists i; repeat split; try assumption.
    + apply (test_matches Arb). assumption.
    + intros j c Hj Hc. apply (test_not_matches Arb). eapply Hmin; eassumption.
    + apply (test_matches Arb). assumption.
    + intros j c Hj Hc. apply (test_not_matches Arb). eapply Hmin; eassumption.
  - rewrite extract_arb_find, find_none_iff.
    split; intros H c Hc; apply (test_not_matches Arb), H, Hc.
Qed.

(** C3: for an ARB base name the extraction splits the name on underscores
    and tests the right-aligned suffixes of the segments from the whole name
    down to the last segment; it returns the first, hence longest, suffix
    that matches the ARB grammar, and returns nothing iff no suffix matches.
    [app_en_US] yields [en_US] and [my_app_fr] yields [fr]. *)
Theorem extract_arb_longest_suffix :
  (forall fileName : jsstring,
      let candidates := suffix_candidates fileName in
      let parts := split "_" fileName in
      length candidates = length parts
      /\ candidates !! 0 = Some fileName
      /\ last candidates = last parts
      /\ (forall i c, candidates !! i = Some c -> exists pre, fileName = pre ++ c)
      /\ (forall i j c c', i < j -> candidates !! i = Some c ->
            candidates !! j = Some c' -> length c' < length c)
      /\ (forall code,
            extractLanguageCodeFromFileName fileName true = Some code <->
            exists i, candidates !! i = Some code /\ Matches Arb code
                      /\ forall j c, j < i -> candidates !! j = Some c ->
                                     ~ Matches Arb c)
      /\ (extractLanguageCodeFromFileName fileName true = None <->
          forall c, c ∈ candidates -> ~ Matches Arb c))
  /\ extractLanguageCodeFromFileName "app_en_US" true = Some (str "en_US")
  /\ extractLanguageCodeFromFileName "my_app_fr" true = Some (str "fr")
  /\ extractLanguageCodeFromFileName "messages" true = None.
Proof.
  split; [exact extract_arb_candidates | repeat split; reflexivity].
Qed.

Lemma extract_arb_longest_suffix_witness :
  exists i,
    suffix_candidates "app_en_US" !! i = Some (str "en_US")
    /\ Matches Arb "en_US"
    /\ forall j c, j < i -> suffix_candidates "app_en_US" !! j = Some c ->
                   ~ Matches Arb c.
Proof.
  destruct (proj1 extract_arb_longest_suffix "app_en_US")
    as (_ & _ & _ & _ & _ & Hfirst & _).
  apply Hfirst. reflexivity.
Defined.

(** ** Structure detection *)

Lemma detect_pure p w :
  detectProjectStructure p w = (Returned (structure_of p), w).
Proof.
  unfold structure_of, detectProjectStructure.
  destruct (test _ _); [reflexivity |].
  destruct (truthy _); reflexivity.
Qed.

Lemma test_format p s :
  test (if jseqb (Path.extname p) ".arb"
        then arbLanguageCodeRegex else languageCodeRegex) s
  = test (pattern_of (format_of p)) s.
Proof. unfold format_of. destruct (jseqb _ _); reflexivity. Qed.

Lemma structure_folder p :
  is_code_for p (parent_name p) ->
  structure_of p = mkInfo FolderBased (grandparent p) (Some (parent_name p)).
Proof.
  intros H. apply test_matches in H.
  unfold structure_of, detectProjectStructure.
  rewrite test_format. unfold parent_name in H. rewrite H. reflexivity.
Qed.

Lemma structure_not_folder p :
  ~ is_code_for p (parent_name p) ->
  structure_of p
  = let languageCode := extractLanguageCodeFromFileName (base_name p) (is_arb p) in
    if truthy languageCode then mkInfo FileBased (Path.dirname p) languageCode
    else mkInfo Unknown (Path.dirname p) None.
Proof.
  intros H. apply test_not_matches in H.
  unfold structure_of, detectProjectStructure.
  rewrite test_format. unfold parent_name in H. rewrite H.
  cbn zeta. fold (base_name p). fold (is_arb p).
  destruct (truthy _); reflexivity.
Qed.

(** C1: when the name of the immediate parent directory fully matches the
    grammar the file selects, the structure is FolderBased, the base path is
    the grandparent directory and the source language is the parent name as
    written; the file's own base name is not consulted ([locales/en/fr.json]
    is FolderBased with source language [en]) and the casing is kept
    ([ZH-hans-CN] stays as it is). *)
Theorem detect_folder_based_first :
  (forall p w,
      is_code_for p (parent_name p) ->
      detectProjectStructure p w
      = (Returned (mkInfo FolderBased (grandparent p) (Some (parent_name p))), w))
  /\ (forall w,
        detectProjectStructure "locales/en/fr.json" w
        = (Returned (mkInfo FolderBased "locales" (Some (str "en"))), w)
        /\ extractLanguageCodeFromFileName "fr" false = Some (str "fr"))
  /\ (forall w,
        detectProjectStructure "locales/ZH-hans-CN/app.json" w
        = (Returned (mkInfo FolderBased "locales" (Some (str "ZH-hans-CN"))), w)).
Proof.
  split; [| split].
  - intros p w H. rewrite detect_pure, (structure_folder p H). reflexivity.
  - intros w. split; reflexivity.
  - intros w. reflexivity.
Qed.

Lemma detect_folder_based_first_witness :
  is_code_for "lib/l10n/en_US/app.arb" (parent_name "lib/l10n/en_US/app.arb")
  /\ detectProjectStructure "lib/l10n/en_US/app.arb" empty_world
     = (Returned (mkInfo FolderBased "lib/l10n" (Some (str "en_US"))), empty_world).
Proof.
  assert (H : is_code_for "lib/l10n/en_US/app.arb"
                (parent_name "lib/l10n/en_US/app.arb")).
  { apply (test_matches Arb). reflexivity. }
  split; [exact H |].
  exact (proj1 detect_folder_based_first _ empty_world H).
Defined.

(** C10: structure detection reads nothing from the file system: in any two
    worlds it returns the same structure and leaves the world as it was.  A
    file whose parent directory name and own base name encode no language
    code is Unknown whatever its siblings are. *)
Theorem detect_independent_of_file_system :
  (forall p w1 w2,
      exists info,
        detectProjectStructure p w1 = (Returned info, w1)
        /\ detectProjectStructure p w2 = (Returned info, w2))
  /\ (forall p w,
        ~ is_code_for p (parent_name p) ->
        extractLanguageCodeFromFileName (base_name p) (is_arb p) = None ->
        detectProjectStructure p w
        = (Returned (mkInfo Unknown (Path.dirname p) None), w))
  /\ detectProjectStructure "translations/messages.json" siblings_world
     = (Returned (mkInfo Unknown "translations" None), siblings_world)
  /\ exists_in siblings_world "translations/fr.json" = true.
Proof.
  split; [| split; [| split]].
  - intros p w1 w2. exists (structure_of p). split; apply detect_pure.
  - intros p w Hp Hx. rewrite detect_pure, (structure_not_folder p Hp), Hx.
    reflexivity.
  - reflexivity.
  - reflexivity.
Qed.

Lemma detect_independent_of_file_system_witness :
  detectProjectStructure "translations/messages.json" locales_world
  = (Returned (mkInfo Unknown "translations" None), locales_world).
Proof.
  apply (proj1 (proj2 detect_independent_of_file_system)).
  - apply (test_not_matches Standard). reflexivity.
  - reflexivity.
Defined.

(** ** [indexOf] finds the first occurrence *)

Lemma starts_with_iff needle hay :
  starts_with needle hay = true <-> exists post, hay = needle ++ post.
Proof.
  revert hay. induction needle as [| a needle IH]; intros hay; cbn.
  - split; [eauto | reflexivity].
  - destruct hay as [| b hay].
    + split; [discriminate | intros (post & H); discriminate].
    + rewrite andb_true_iff, char_eqb_eq, IH. split.
      * intros (-> & post & ->). eauto.
      * intros (post & [= -> ->]). eauto.
Qed.

Lemma indexOf_from_found hay needle i pre :
  occurs_after needle hay pre ->
  exists first,
    occurs_after needle hay first
    /\ (forall pre', occurs_after needle hay pre' -> length first <= length pre')
    /\ indexOf_from hay needle i = (i + Z.of_nat (length first))%Z.
Proof.
  revert i pre. induction hay as [| b hay IH]; intros i pre Hocc.
  - destruct Hocc as (post & H). symmetry in H.
    apply app_eq_nil in H as [-> H]. apply app_eq_nil in H as [-> ->].
    exists []. repeat split.
    + exists []. reflexivity.
    + intros; cbn; lia.
    + cbn. lia.
  - cbn [indexOf_from]. destruct (starts_with needle (b :: hay)) eqn:E.
    + exists []. repeat split.
      * apply starts_with_iff in E. exact E.
      * intros; cbn; lia.
      * cbn. lia.
    + destruct pre as [| a pre].
      { exfalso. destruct Hocc as (post & H). cbn in H.
        assert (starts_with needle (b :: hay) = true)
          by (apply starts_with_iff; eauto).
        congruence. }
      destruct Hocc as (post & Hocc). injection Hocc as -> Hocc.
      destruct (IH (i + 1)%Z pre (ex_intro _ post Hocc))
        as (first & (post1 & H1) & Hmin & Hidx).
      exists (a :: first). repeat split.
      * exists post1. cbn. rewrite <- H1. reflexivity.
      * intros [| a' pre'] (post' & H').
        { exfalso. cbn in H'.
          assert (starts_with needle (a :: hay) = true)
            by (apply starts_with_iff; eauto).
          congruence. }
        injection H' as <- H'. cbn. apply le_n_S, Hmin. exists post'. exact H'.
      * rewrite Hidx. cbn [length]. lia.
Qed.

Lemma occurs_after_take needle hay first :
  occurs_after needle hay first -> take (length first) hay = first.
Proof. intros (post & ->). apply take_app_length. Qed.

(** The prefix computed by the ARB branch of [generateTargetFilePath]. *)
Lemma arb_prefix name code pre :
  occurs_after code name pre ->
  exists first,
    occurs_after code name first
    /\ (forall pre', occurs_after code name pre' -> length first <= length pre')
    /\ (let langIndex := indexOf name code in
        if (0 <? langIndex)%Z then substring0 name langIndex else []) = first.
Proof.
  intros H. destruct (indexOf_from_found name code 0 pre H)
    as (first & Hocc & Hmin & Hidx).
  exists first. repeat split; try assumption.
  cbn zeta. unfold indexOf. rewrite Hidx.
  destruct first as [| a first]; [reflexivity |].
  destruct (Z.ltb_spec 0 (0 + Z.of_nat (length (a :: first)))) as [_ | Hle];
    [| cbn in Hle; lia].
  unfold substring0. rewrite Z.add_0_l, Nat2Z.id.
  apply (occurs_after_take code). assumption.
Qed.

(** ** Target paths for file-based ARB projects *)

Lemma structure_file_based p :
  type (structure_of p) = FileBased ->
  exists code,
    truthy (Some code) = true
    /\ extractLanguageCodeFromFileName (base_name p) (is_arb p) = Some code
    /\ structure_of p = mkInfo FileBased (Path.dirname p) (Some code).
Proof.
  intros Hty.
  destruct (test (pattern_of (format_of p)) (parent_name p)) eqn:Ht.
  - apply test_matches in Ht. rewrite (structure_folder p Ht) in Hty.
    discriminate.
  - apply test_not_matches in Ht. rewrite (structure_not_folder p Ht) in *.
    cbn zeta in *.
    destruct (extractLanguageCodeFromFileName (base_name p) (is_arb p))
      as [code |] eqn:Hx; [| discriminate].
    destruct (truthy (Some code)) eqn:Htr; [| discriminate].
    exists code. repeat split; assumption || reflexivity.
Qed.

Lemma extracted_arb_occurs name code :
  extractLanguageCodeFromFileName name true = Some code ->
  exists pre, occurs_after code name pre.
Proof.
  intros H. apply (proj1 (proj2 (proj2 (proj2 (proj2 (proj2
                    (extract_arb_candidates name))))))) in H
    as (i & Hi & _).
  apply candidate_is_suffix in Hi as (pre & -> & _).
  exists pre, []. rewrite app_nil_r. reflexivity.
Qed.

Lemma replace_hyphens_spec target :
  ~ In "-"%char (replace_hyphens target)
  /\ length (replace_hyphens target) = length target
  /\ forall i a, target !! i = Some a ->
       replace_hyphens target !! i
       = Some (if char_eqb a "-" then "_"%char else a).
Proof.
  unfold replace_hyphens. split; [| split].
  - rewrite in_map_iff. intros (a & Ha & _).
    destruct (char_eqb a "-") eqn:E; [discriminate |].
    subst a. discriminate.
  - apply length_map.
  - intros i a Hi. rewrite list_lookup_fmap, Hi. reflexivity.
Qed.

Lemma generate_file_based_arb p target w code :
  Path.extname p = str ".arb" ->
  truthy (Some code) = true ->
  structure_of p = mkInfo FileBased (Path.dirname p) (Some code) ->
  generateTargetFilePath p target w
  = (Returned (Path.join [Path.dirname p;
       (let langIndex := indexOf (base_name p) code in
        if (0 <? langIndex)%Z then substring0 (base_name p) langIndex else [])
       ++ replace_hyphens target ++ ".arb"]), w).
Proof.
  intros Hext Htr Hs. unfold generateTargetFilePath, bind.
  rewrite detect_pure, Hs. cbn [type basePath sourceLanguage].
  rewrite Htr. fold (base_name p). rewrite Hext. reflexivity.
Qed.

(** C2: for a file-based ARB source, the target path is the base path joined
    with prefix, token and extension, where the token is the target language
    with every hyphen turned into an underscore and the prefix is what
    precedes the first occurrence of the detected source language in the
    source base name (a source language is always detected for a file-based
    structure); [lib/l10n/app_en_US.arb] with target [es] gives
    [lib/l10n/app_es.arb]. *)
Theorem generate_arb_prefix_token :
  (forall p target w,
      Path.extname p = str ".arb" ->
      type (structure_of p) = FileBased ->
      exists code prefix,
        sourceLanguage (structure_of p) = Some code
        /\ basePath (structure_of p) = Path.dirname p
        /\ occurs_after code (base_name p) prefix
        /\ (forall pre', occurs_after code (base_name p) pre' ->
                         length prefix <= length pre')
        /\ generateTargetFilePath p target w
           = (Returned (Path.join [basePath (structure_of p);
                          prefix ++ replace_hyphens target
                                 ++ Path.extname p]), w))
  /\ (forall target,
        ~ In "-"%char (replace_hyphens target)
        /\ length (replace_hyphens target) = length target
        /\ forall i a, target !! i = Some a ->
             replace_hyphens target !! i
             = Some (if char_eqb a "-" then "_"%char else a))
  /\ (forall w,
        generateTargetFilePath "lib/l10n/app_en_US.arb" "es" w
        = (Returned (str "lib/l10n/app_es.arb"), w)).
Proof.
  split; [| split].
  - intros p target w Hext Hty.
    destruct (structure_file_based p Hty) as (code & Htr & Hx & Hs).
    assert (Harb : is_arb p = true) by (unfold is_arb; rewrite Hext; reflexivity).
    rewrite Harb in Hx.
    destruct (extracted_arb_occurs _ _ Hx) as (pre & Hocc).
    destruct (arb_prefix _ _ _ Hocc) as (first & Hfirst & Hmin & Hcomp).
    exists code, first.
    rewrite (generate_file_based_arb p target w code Hext Htr Hs).
    rewrite Hcomp, Hs, Hext. cbn [sourceLanguage basePath].
    repeat split; assumption.
  - exact replace_hyphens_spec.
  - intros w. reflexivity.
Qed.

Lemma generate_arb_prefix_token_witness :
  exists code prefix,
    sourceLanguage (structure_of "l10n/my_app_fr.arb") = Some code
    /\ basePath (structure_of "l10n/my_app_fr.arb") = Path.dirname "l10n/my_app_fr.arb"
    /\ occurs_after code (base_name "l10n/my_app_fr.arb") prefix
    /\ (forall pre', occurs_after code (base_name "l10n/my_app_fr.arb") pre' ->
                     length prefix <= length pre')
    /\ generateTargetFilePath "l10n/my_app_fr.arb" "pt-BR" empty_world
       = (Returned (Path.join [basePath (structure_of "l10n/my_app_fr.arb");
                      prefix ++ replace_hyphens "pt-BR"
                             ++ Path.extname "l10n/my_app_fr.arb"]), empty_world).
Proof.
  apply (proj1 generate_arb_prefix_token); reflexivity.
Defined.

Example generate_my_app_pt_BR :
  generateTargetFilePath "l10n/my_app_fr.arb" "pt-BR" empty_world
  = (Returned (str "l10n/my_app_pt_BR.arb"), empty_world).
Proof. reflexivity. Qed.

(** ** Collision resolution *)

Lemma existsSync_run p w : Fs.existsSync p w = (Returned (exists_in w p), w).
Proof. reflexivity. Qed.

Lemma unique_loop_step fuel dir baseName ext counter w :
  unique_loop (S fuel) dir baseName ext counter w
  = if exists_in w (candidate dir baseName ext counter)
    then unique_loop fuel dir baseName ext (S counter) w
    else (Returned (Some (candidate dir baseName ext counter)), w).
Proof.
  cbn [unique_loop]. unfold bind. rewrite existsSync_run.
  fold (candidate dir baseName ext counter).
  destruct (exists_in w _); reflexivity.
Qed.

Lemma unique_loop_first_free dir baseName ext w n :
  exists_in w (candidate dir baseName ext n) = false ->
  forall fuel counter,
    counter <= n -> n - counter < fuel ->
    (forall k, counter <= k < n ->
               exists_in w (candidate dir baseName ext k) = true) ->
    unique_loop fuel dir baseName ext counter w
    = (Returned (Some (candidate dir baseName ext n)), w).
Proof.
  intros Hfree. induction fuel as [| fuel IH]; intros counter Hle Hfuel Hbusy;
    [lia |].
  rewrite unique_loop_step.
  destruct (Nat.eq_dec counter n) as [-> | Hne].
  - rewrite Hfree. reflexivity.
  - rewrite Hbusy by lia. apply IH; [lia | lia |].
    intros k Hk. apply Hbusy. lia.
Qed.

Lemma unique_loop_exhausted dir baseName ext w :
  forall fuel counter,
    unique_loop fuel dir baseName ext counter w = (Returned None, w) ->
    forall k, counter <= k < counter + fuel ->
              exists_in w (candidate dir baseName ext k) = true.
Proof.
  induction fuel as [| fuel IH]; intros counter H k Hk; [lia |].
  rewrite unique_loop_step in H.
  destruct (exists_in w (candidate dir baseName ext counter)) eqn:E;
    [| discriminate].
  destruct (Nat.eq_dec k counter) as [-> | Hne]; [assumption |].
  apply (IH (S counter)); [assumption | lia].
Qed.

Lemma unique_loop_reads_only dir baseName ext :
  forall fuel counter w r w',
    unique_loop fuel dir baseName ext counter w = (r, w') -> w' = w.
Proof.
  induction fuel as [| fuel IH]; intros counter w r w' H.
  - cbn in H. unfold ret in H. congruence.
  - rewrite unique_loop_step in H.
    destruct (exists_in w _); [eapply IH; eassumption | congruence].
Qed.

Lemma getUniqueFilePath_unfold fuel p w :
  getUniqueFilePath fuel p w
  = if exists_in w p
    then unique_loop fuel (Path.dirname p) (base_name p) (Path.extname p) 1 w
    else (Returned (Some p), w).
Proof.
  unfold getUniqueFilePath, bind. rewrite existsSync_run.
  destruct (exists_in w p); reflexivity.
Qed.

(** C5: [getUniqueFilePath] returns its argument when nothing exists there;
    otherwise it returns the first of the paths [<baseName> (n)<ext>],
    n = 1, 2, 3, ..., in the same directory at which nothing exists.  It only
    reads the file system, so repeated calls against the same file system
    give the same answer.  With [i18n/fr.json] and [i18n/fr (1).json]
    present the answer for [i18n/fr.json] is [i18n/fr (2).json]. *)
Theorem getUniqueFilePath_first_free :
  (forall p w fuel,
      exists_in w p = false ->
      getUniqueFilePath fuel p w = (Returned (Some p), w))
  /\ (forall p w n fuel,
        exists_in w p = true ->
        1 <= n ->
        (forall k, 1 <= k < n -> exists_in w (numbered p k) = true) ->
        exists_in w (numbered p n) = false ->
        n <= fuel ->
        getUniqueFilePath fuel p w = (Returned (Some (numbered p n)), w))
  /\ (forall p w fuel,
        getUniqueFilePath fuel p w = (Returned None, w) ->
        forall k, 1 <= k <= fuel -> exists_in w (numbered p k) = true)
  /\ (forall p w fuel r w',
        getUniqueFilePath fuel p w = (r, w') ->
        w' = w /\ getUniqueFilePath fuel p w' = (r, w'))
  /\ (forall fuel,
        2 <= fuel ->
        getUniqueFilePath fuel "i18n/fr.json" collision_world
        = (Returned (Some (str "i18n/fr (2).json")), collision_world)).
Proof.
  assert (Hfree : forall p w n fuel,
             exists_in w p = true -> 1 <= n ->
             (forall k, 1 <= k < n -> exists_in w (numbered p k) = true) ->
             exists_in w (numbered p n) = false -> n <= fuel ->
             getUniqueFilePath fuel p w = (Returned (Some (numbered p n)), w)).
  { intros p w n fuel Hp Hn Hbusy Hfree Hfuel.
    rewrite getUniqueFilePath_unfold, Hp.
    apply (unique_loop_first_free _ _ _ w n Hfree); [lia | lia |].
    intros k Hk. apply Hbusy. lia. }
  split; [| split; [| split; [| split]]].
  - intros p w fuel Hp. rewrite getUniqueFilePath_unfold, Hp. reflexivity.
  - exact Hfree.
  - intros p w fuel H k Hk. rewrite getUniqueFilePath_unfold in H.
    destruct (exists_in w p); [| discriminate].
    apply (unique_loop_exhausted _ _ _ w fuel 1 H). lia.
  - intros p w fuel r w' H.
    assert (w' = w).
    { rewrite getUniqueFilePath_unfold in H.
      destruct (exists_in w p); [| congruence].
      eapply unique_loop_reads_only. eassumption. }
    subst w'. split; [reflexivity | assumption].
  - intros fuel Hfuel.
    apply (Hfree "i18n/fr.json" collision_world 2 fuel);
      [reflexivity | lia | | reflexivity | assumption].
    intros k Hk. assert (k = 1) as -> by lia. reflexivity.
Qed.

Lemma getUniqueFilePath_first_free_witness :
  getUniqueFilePath 5 "i18n/fr.json" collision_world
  = (Returned (Some (numbered "i18n/fr.json" 2)), collision_world).
Proof.
  apply (proj1 (proj2 getUniqueFilePath_first_free)
           "i18n/fr.json" collision_world 2 5);
    [reflexivity | lia | | reflexivity | lia].
  intros k Hk. assert (k = 1) as -> by lia. reflexivity.
Defined.

(** ** Target paths for folder-based projects *)

Lemma mkdirs_lookup_in (chain : list jsstring)
    (m : gmap (list ascii) NodeKind) (q : jsstring) :
  q ∈ chain -> Fs.mkdirs chain m !! q = Some DirNode.
Proof.
  induction chain as [| c chain IH]; intros H; [inversion H |].
  cbn. destruct (decide (c = q)) as [-> | Hne].
  - apply lookup_insert_eq.
  - rewrite lookup_insert_ne by assumption. apply IH.
    inversion H; subst; [congruence | assumption].
Qed.

Lemma mkdirs_lookup_notin (chain : list jsstring)
    (m : gmap (list ascii) NodeKind) (q : jsstring) :
  q ∉ chain -> Fs.mkdirs chain m !! q = m !! q.
Proof.
  induction chain as [| c chain IH]; intros H; [reflexivity |].
  cbn. rewrite lookup_insert_ne.
  - apply IH. intros Hin. apply H. constructor. assumption.
  - intros ->. apply H. constructor.
Qed.

Lemma absent_is_no_file (w : World) (path : jsstring) :
  exists_in w path = false -> Fs.is_file_at (nodes (fs w)) path = false.
Proof.
  unfold Fs.is_file_at, exists_in. intros Hex.
  destruct (nodes (fs w) !! path) eqn:E; [| reflexivity].
  apply bool_decide_eq_false in Hex. destruct Hex. eauto.
Qed.

Lemma mkdir_obstructed (path q : jsstring) (w : World) :
  Fs.is_file_at (nodes (fs w)) path = false ->
  q ∈ Fs.ancestors (S (length path)) path ->
  Fs.is_file_at (nodes (fs w)) q = true ->
  Fs.mkdirSync_recursive path w = (Thrown (ENOTDIR path), w).
Proof.
  intros Hnot Hq Hfile. unfold Fs.mkdirSync_recursive. cbn [List.find].
  rewrite Hnot.
  destruct (List.find (Fs.is_file_at (nodes (fs w)))
              (Fs.ancestors (S (length path)) path)) as [q0 |] eqn:Hfind.
  - assert (H0 : jseqb q0 path = false).
    { apply bool_decide_eq_false. intros ->.
      apply List.find_some in Hfind as [_ Hf]. congruence. }
    rewrite H0. reflexivity.
  - rewrite find_none_iff in Hfind. specialize (Hfind q Hq). congruence.
Qed.

Lemma structure_folder_based p :
  type (structure_of p) = FolderBased ->
  is_code_for p (parent_name p)
  /\ structure_of p = mkInfo FolderBased (grandparent p) (Some (parent_name p)).
Proof.
  intros Hty.
  destruct (test (pattern_of (format_of p)) (parent_name p)) eqn:Ht.
  - apply test_matches in Ht. split; [assumption | apply structure_folder, Ht].
  - apply test_not_matches in Ht. rewrite (structure_not_folder p Ht) in Hty.
    cbn zeta in Hty. destruct (truthy _); discriminate.
Qed.

Lemma generate_folder_based p target w :
  type (structure_of p) = FolderBased ->
  generateTargetFilePath p target w
  = (let targetDir := target_dir p target in
     let* present := Fs.existsSync targetDir in
     let* _ := if negb present then Fs.mkdirSync_recursive targetDir
               else ret tt in
     ret (Path.join [targetDir; base_name p ++ Path.extname p])) w.
Proof.
  intros Hty. destruct (structure_folder_based p Hty) as [_ Hs].
  unfold generateTargetFilePath. unfold bind at 1.
  rewrite detect_pure, Hs. reflexivity.
Qed.

(** C6, as amended: for a folder-based source the result is
    [basePath/<token>/<sourceBaseName><extension>] in two cases.  When a
    directory already exists at [basePath/<token>] it is left as it is and
    nothing is thrown.  When nothing exists there and no regular file stands
    at an ancestor, the directory and its missing ancestors are created,
    every other path is left as it was, and a second call changes nothing.
    With a regular file at an ancestor the error of [mkdirSync] propagates:
    no path is returned and nothing is created. *)
Theorem generate_folder_creates_when_absent :
  forall p target w,
    type (structure_of p) = FolderBased ->
    let targetDir := target_dir p target in
    let result := Path.join [targetDir; base_name p ++ Path.extname p] in
    basePath (structure_of p) = grandparent p
    /\ (is_directory_in w targetDir = true ->
        generateTargetFilePath p target w = (Returned result, w))
    /\ (exists_in w targetDir = false ->
        (forall q, q ∈ Fs.ancestors (S (length targetDir)) targetDir ->
                   Fs.is_file_at (nodes (fs w)) q = false) ->
        exists w',
          generateTargetFilePath p target w = (Returned result, w')
          /\ is_directory_in w' targetDir = true
          /\ (forall q, q ∈ Fs.ancestors (S (length targetDir)) targetDir ->
                        is_directory_in w' q = true)
          /\ (forall q, q <> targetDir ->
                        q ∉ Fs.ancestors (S (length targetDir)) targetDir ->
                        nodes (fs w') !! q = nodes (fs w) !! q)
          /\ console w' = console w
          /\ generateTargetFilePath p target w' = (Returned result, w'))
    /\ (exists_in w targetDir = false ->
        forall q, q ∈ Fs.ancestors (S (length targetDir)) targetDir ->
                  Fs.is_file_at (nodes (fs w)) q = true ->
                  exists e, generateTargetFilePath p target w = (Thrown e, w)).
Proof.
  intros p target w Hty targetDir result.
  destruct (structure_folder_based p Hty) as [_ Hs].
  assert (Hpresent : forall w0, is_directory_in w0 targetDir = true ->
            generateTargetFilePath p target w0 = (Returned result, w0)).
  { intros w0 Hdir. rewrite (generate_folder_based p target w0 Hty).
    cbn zeta. fold targetDir. unfold bind. rewrite existsSync_run.
    assert (Hex : exists_in w0 targetDir = true).
    { apply bool_decide_eq_true. apply bool_decide_eq_true in Hdir.
      rewrite Hdir. eauto. }
    rewrite Hex. reflexivity. }
  split; [rewrite Hs; reflexivity |].
  split; [apply Hpresent |].
  split.
  - intros Hex Hanc.
    set (chain := targetDir :: Fs.ancestors (S (length targetDir)) targetDir).
    assert (Hfind : List.find (Fs.is_file_at (nodes (fs w))) chain = None).
    { apply find_none_iff. intros q Hq. subst chain.
      inversion Hq as [| ? ? ? Hq']; subst; [| apply Hanc; assumption].
      apply absent_is_no_file. exact Hex. }
    set (w' := mkWorld (mkFS (Fs.mkdirs chain (nodes (fs w)))
                             (unreadable (fs w))) (console w)).
    assert (Hdir : is_directory_in w' targetDir = true).
    { apply bool_decide_eq_true.
      change (Fs.mkdirs chain (nodes (fs w)) !! targetDir = Some DirNode).
      apply mkdirs_lookup_in. constructor. }
    exists w'. repeat split.
    + rewrite (generate_folder_based p target w Hty).
      cbn zeta. fold targetDir. unfold bind. rewrite existsSync_run, Hex.
      cbn [negb]. unfold Fs.mkdirSync_recursive. fold chain. rewrite Hfind.
      reflexivity.
    + exact Hdir.
    + intros q Hq. apply bool_decide_eq_true.
      change (Fs.mkdirs chain (nodes (fs w)) !! q = Some DirNode).
      apply mkdirs_lookup_in. constructor. assumption.
    + intros q Hne Hq.
      change (Fs.mkdirs chain (nodes (fs w)) !! q = nodes (fs w) !! q).
      apply mkdirs_lookup_notin.
      intros Hin. inversion Hin; subst; [congruence | contradiction].
    + apply Hpresent. exact Hdir.
  - intros Hex q Hq Hfile. exists (ENOTDIR targetDir).
    rewrite (generate_folder_based p target w Hty).
    cbn zeta. fold targetDir. unfold bind. rewrite existsSync_run, Hex.
    cbn [negb].
    rewrite (mkdir_obstructed targetDir q w (absent_is_no_file _ _ Hex) Hq Hfile).
    reflexivity.
Qed.

Lemma generate_folder_creates_when_absent_witness :
  exists w',
    generateTargetFilePath "locales/en/common.json" "fr" english_only_world
    = (Returned (str "locales/fr/common.json"), w')
    /\ is_directory_in w' "locales/fr" = true
    /\ is_directory_in english_only_world "locales/fr" = false.
Proof.
  destruct (generate_folder_creates_when_absent
              "locales/en/common.json" "fr" english_only_world eq_refl)
    as (_ & _ & H & _).
  destruct H as (w' & Hrun & Hdir & _).
  - reflexivity.
  - intros q Hq. vm_compute in Hq.
    repeat (inversion Hq as [| ? ? ? Hq']; subst; try reflexivity;
            clear Hq; rename Hq' into Hq).
  - exists w'. split; [exact Hrun | split; [exact Hdir | reflexivity]].
Defined.

(** C6, as stated, fails: with a regular file at [locales/fr] the call for
    the target [fr/CA] does not return a path; the error of [mkdirSync]
    propagates and no directory exists at [locales/fr/CA] afterwards. *)
Lemma generate_folder_throws_when_obstructed :
  type (structure_of "locales/en/common.json") = FolderBased
  /\ generateTargetFilePath "locales/en/common.json" "fr/CA" blocked_world
     = (Thrown (ENOTDIR "locales/fr/CA"), blocked_world)
  /\ Path.join [basePath (structure_of "locales/en/common.json"); str "fr/CA"]
     = str "locales/fr/CA"
  /\ is_directory_in blocked_world "locales/fr/CA" = false.
Proof. repeat split. Qed.

(** The guard before [mkdirSync] is [fs.existsSync], which a regular file
    satisfies as well: with a regular file at [locales/fr] the call for the
    target [fr] returns [locales/fr/common.json] and creates nothing. *)
Example generate_folder_blocked_by_file :
  type (structure_of "locales/en/common.json") = FolderBased
  /\ generateTargetFilePath "locales/en/common.json" "fr" blocked_world
     = (Returned (str "locales/fr/common.json"), blocked_world)
  /\ is_directory_in blocked_world
       (Path.join [basePath (structure_of "locales/en/common.json"); str "fr"])
     = false.
Proof. repeat split. Qed.

(** ** Sets and sorting *)

Lemma set_has_iff (s : JsSet) x : set_has s x = true <-> x ∈ s.
Proof.
  unfold set_has. rewrite existsb_exists. split.
  - intros (y & Hy & E). apply bool_decide_eq_true in E as ->.
    apply list_elem_of_In. assumption.
  - intros H. exists x. split; [apply list_elem_of_In; assumption |].
    apply bool_decide_eq_true. reflexivity.
Qed.

Lemma set_add_elem (s : JsSet) x y : y ∈ set_add s x <-> y ∈ s \/ y = x.
Proof.
  unfold set_add. destruct (set_has s x) eqn:E.
  - apply set_has_iff in E. split; [tauto | intros [H | ->]; assumption].
  - rewrite elem_of_app, list_elem_of_singleton. reflexivity.
Qed.

Lemma set_add_nodup (s : JsSet) x : NoDup s -> NoDup (set_add s x).
Proof.
  intros H. unfold set_add. destruct (set_has s x) eqn:E; [assumption |].
  apply NoDup_app. repeat split; [assumption | | apply NoDup_singleton].
  intros y Hy Hx. apply list_elem_of_singleton in Hx as ->.
  apply set_has_iff in Hy. congruence.
Qed.

Lemma set_delete_elem (s : JsSet) x y : y ∈ set_delete s x <-> y ∈ s /\ y <> x.
Proof.
  unfold set_delete. rewrite !list_elem_of_In, filter_In, negb_true_iff.
  unfold jseqb. rewrite bool_decide_eq_false. split; intros [H1 H2];
    (split; [assumption | congruence]).
Qed.

Lemma set_delete_nodup (s : JsSet) x : NoDup s -> NoDup (set_delete s x).
Proof.
  intros H. apply NoDup_ListNoDup. apply List.NoDup_filter.
  apply NoDup_ListNoDup. assumption.
Qed.

Section Sorting.

Variable cmp : jsstring -> jsstring -> comparison.
Hypothesis cmp_antisym : forall a b, cmp b a = CompOpp (cmp a b).
Hypothesis cmp_trans :
  forall a b c, cmp a b <> Gt -> cmp b c <> Gt -> cmp a c <> Gt.

Lemma sort_insert_perm x l : Permutation (sort_insert cmp x l) (x :: l).
Proof.
  induction l as [| y l IH]; cbn; [reflexivity |].
  destruct (cmp x y); try reflexivity.
  rewrite IH. apply perm_swap.
Qed.

Lemma array_sort_perm l : Permutation (array_sort cmp l) l.
Proof.
  induction l as [| x l IH]; cbn; [reflexivity |].
  fold (array_sort cmp l). rewrite sort_insert_perm, IH. reflexivity.
Qed.

Lemma sort_insert_sorted x l :
  StronglySorted (in_order cmp) l ->
  StronglySorted (in_order cmp) (sort_insert cmp x l).
Proof.
  induction l as [| y l IH]; intros Hs; cbn.
  - constructor; constructor.
  - inversion Hs as [| ? ? Hl Hy]; subst.
    assert (Hkeep : cmp x y <> Gt ->
                    StronglySorted (in_order cmp) (x :: y :: l)).
    { intros Hxy. constructor; [assumption |]. constructor; [assumption |].
      eapply List.Forall_impl; [| exact Hy].
      intros z Hz. eapply cmp_trans; eassumption. }
    destruct (cmp x y) eqn:E; try (apply Hkeep; discriminate).
    constructor; [apply IH; assumption |].
    rewrite (sort_insert_perm x l). constructor; [| assumption].
    unfold in_order. rewrite cmp_antisym, E. discriminate.
Qed.

Lemma array_sort_sorted l : StronglySorted (in_order cmp) (array_sort cmp l).
Proof.
  induction l as [| x l IH]; cbn; [constructor |].
  apply sort_insert_sorted. exact IH.
Qed.

End Sorting.

(** ** The collation used in worked examples is a collation *)

Lemma primary_weight_base a :
  primary_weight (toLowerCase_char a) = primary_weight a.
Proof. all_chars a. Qed.

Lemma root_compare_antisym a b : root_compare b a = CompOpp (root_compare a b).
Proof.
  revert b. induction a as [| x a IH]; intros [| y b]; cbn; try reflexivity.
  rewrite (N.compare_antisym (primary_weight x) (primary_weight y)).
  destruct (primary_weight x ?= primary_weight y)%N; cbn; auto.
Qed.

Lemma root_compare_trans a b c :
  root_compare a b <> Gt -> root_compare b c <> Gt -> root_compare a c <> Gt.
Proof.
  revert b c. induction a as [| x a IH]; intros [| y b] [| z c]; cbn;
    try congruence.
  destruct (N.compare_spec (primary_weight x) (primary_weight y)) as [E | L | G];
    destruct (N.compare_spec (primary_weight y) (primary_weight z)) as [E' | L' | G'];
    try congruence; intros H1 H2.
  - rewrite E, E', N.compare_refl. eapply IH; eassumption.
  - rewrite E. apply N.compare_lt_iff in L'. rewrite L'. discriminate.
  - rewrite <- E'. apply N.compare_lt_iff in L. rewrite L. discriminate.
  - assert (Hlt : (primary_weight x < primary_weight z)%N) by lia.
    apply N.compare_lt_iff in Hlt. rewrite Hlt. discriminate.
Qed.

Lemma root_compare_base a b :
  root_compare a b = root_compare (toLowerCase a) (toLowerCase b).
Proof.
  revert b. induction a as [| x a IH]; intros [| y b]; cbn; try reflexivity.
  rewrite !primary_weight_base, IH. reflexivity.
Qed.

Definition root_collator : Collator :=
  {| localeCompare := root_compare;
     localeCompare_antisym := root_compare_antisym;
     localeCompare_trans := root_compare_trans;
     localeCompare_base := root_compare_base |}.

(** ** Enumeration of the languages of a project *)

Lemma readdirSync_reads_only dir w r w' :
  Fs.readdirSync dir w = (r, w') -> w' = w.
Proof.
  unfold Fs.readdirSync.
  destruct (nodes (fs w) !! dir) as [[] |]; try congruence.
  destruct (bool_decide _); congruence.
Qed.

Lemma truthy_nonempty l : truthy (Some l) = true <-> l <> [].
Proof. destruct l; cbn; split; congruence. Qed.

Lemma scan_directories_elem isArb es acc (l : jsstring) :
  l ∈ scan_directories isArb es acc <->
  l ∈ acc \/ exists d, d ∈ es /\ isDirectory d = true /\ name d = l
                       /\ test (if isArb then arbLanguageCodeRegex
                                else languageCodeRegex) l = true.
Proof.
  revert acc. induction es as [| e es IH]; intros acc; cbn [scan_directories].
  - split; [tauto |]. intros [H | (d & Hd & _)]; [assumption | inversion Hd].
  - destruct (isDirectory e) eqn:Hdir;
      [destruct (test _ (name e)) eqn:Ht |]; rewrite IH; clear IH.
    + rewrite set_add_elem. split.
      * intros [[H | ->] | (d & Hd & H)]; [tauto | |].
        { right. exists e. repeat split; try assumption. constructor. }
        { right. exists d. split; [constructor; assumption | assumption]. }
      * intros [H | (d & Hd & Hdd & Hn & Htt)]; [tauto |].
        inversion Hd; subst; [tauto |]. right. exists d. tauto.
    + split.
      * intros [H | (d & Hd & H)]; [tauto |].
        right. exists d. split; [constructor; assumption | assumption].
      * intros [H | (d & Hd & Hdd & Hn & Htt)]; [tauto |].
        inversion Hd; subst; [congruence |]. right. exists d. tauto.
    + split.
      * intros [H | (d & Hd & H)]; [tauto |].
        right. exists d. split; [constructor; assumption | assumption].
      * intros [H | (d & Hd & Hdd & Hn & Htt)]; [tauto |].
        inversion Hd; subst; [congruence |]. right. exists d. tauto.
Qed.

Lemma scan_directories_nodup isArb es acc :
  NoDup acc -> NoDup (scan_directories isArb es acc).
Proof.
  revert acc. induction es as [| e es IH]; intros acc H; cbn; [assumption |].
  destruct (isDirectory e); [destruct (test _ (name e)) |]; apply IH;
    try assumption. apply set_add_nodup. assumption.
Qed.

Lemma scan_files_elem isArb ext es acc (l : jsstring) :
  l ∈ scan_files isArb ext es acc <->
  l ∈ acc \/ exists d, d ∈ es /\ isFile d = true
                       /\ endsWith (name d) ext = true
                       /\ extractLanguageCodeFromFileName
                            (Path.basename (name d) (Some ext)) isArb = Some l
                       /\ l <> [].
Proof.
  revert acc. induction es as [| e es IH]; intros acc; cbn [scan_files].
  - split; [tauto |]. intros [H | (d & Hd & _)]; [assumption | inversion Hd].
  - assert (Hskip :
      ~ (isFile e = true /\ endsWith (name e) ext = true
         /\ extractLanguageCodeFromFileName
              (Path.basename (name e) (Some ext)) isArb = Some l /\ l <> []) ->
      (l ∈ acc \/ (exists d, d ∈ es /\ isFile d = true
                       /\ endsWith (name d) ext = true
                       /\ extractLanguageCodeFromFileName
                            (Path.basename (name d) (Some ext)) isArb = Some l
                       /\ l <> []))
      <-> (l ∈ acc \/ exists d, d ∈ e :: es /\ isFile d = true
                       /\ endsWith (name d) ext = true
                       /\ extractLanguageCodeFromFileName
                            (Path.basename (name d) (Some ext)) isArb = Some l
                       /\ l <> [])).
    { intros Hno. split.
      - intros [H | (d & Hd & H)]; [tauto |].
        right. exists d. split; [constructor; assumption | assumption].
      - intros [H | (d & Hd & H)]; [tauto |].
        inversion Hd; subst; [tauto |]. right. exists d. tauto. }
    destruct (isFile e && endsWith (name e) ext) eqn:Hfe.
    + apply andb_prop in Hfe as [Hf He].
      destruct (extractLanguageCodeFromFileName _ isArb) as [lc |] eqn:Hx.
      * destruct (truthy (Some lc)) eqn:Htr; rewrite IH.
        { rewrite set_add_elem. apply truthy_nonempty in Htr. split.
          - intros [[H | ->] | (d & Hd & H)]; [tauto | |].
            + right. exists e. repeat split; try assumption. constructor.
            + right. exists d. split; [constructor; assumption | assumption].
          - intros [H | (d & Hd & H)]; [tauto |].
            inversion Hd; subst.
            + destruct H as (_ & _ & Hx' & _). left. right. congruence.
            + right. exists d. tauto. }
        { apply Hskip. intros (_ & _ & Hx' & Hne).
          apply truthy_nonempty in Hne. congruence. }
      * rewrite IH. apply Hskip. intros (_ & _ & Hx' & _). congruence.
    + rewrite IH. apply Hskip. intros (Hf & He & _).
      rewrite Hf, He in Hfe. discriminate.
Qed.

Lemma scan_files_nodup isArb ext es acc :
  NoDup acc -> NoDup (scan_files isArb ext es acc).
Proof.
  revert acc. induction es as [| e es IH]; intros acc H; cbn; [assumption |].
  destruct (isFile e && endsWith (name e) ext); [| apply IH; assumption].
  destruct (extractLanguageCodeFromFileName _ isArb) as [lc |];
    [| apply IH; assumption].
  destruct (truthy (Some lc)); apply IH; try assumption.
  apply set_add_nodup. assumption.
Qed.

Lemma without_source_nodup codes src :
  NoDup codes -> NoDup (without_source codes src).
Proof.
  intros H. unfold without_source. destruct src as [sl |]; [| assumption].
  destruct (truthy (Some sl)); [apply set_delete_nodup |]; assumption.
Qed.

Lemma without_source_elem codes src (l : jsstring) :
  l ∈ without_source codes src <->
  l ∈ codes /\ (truthy src = true -> src <> Some l).
Proof.
  unfold without_source. destruct src as [sl |].
  - destruct (truthy (Some sl)) eqn:E.
    + rewrite set_delete_elem. split; intros [H1 H2]; split; try assumption.
      * intros _. congruence.
      * intros ->. apply H2; reflexivity.
    + split; [intros H; split; [assumption | discriminate] | tauto].
  - cbn. split; [intros H; split; [assumption | discriminate] | tauto].
Qed.

Lemma StronglySorted_ext {A} (R S : A -> A -> Prop) l :
  (forall a b, R a b -> S a b) -> StronglySorted R l -> StronglySorted S l.
Proof.
  intros H. induction 1 as [| a l Hl IH Ha]; constructor; [assumption |].
  eapply List.Forall_impl; [| exact Ha]. intros b. apply H.
Qed.

Section Enumeration.

Context {collator : Collator}.

Lemma sorted_codes_empty src : sorted_codes [] src = [].
Proof.
  unfold sorted_codes, without_source. destruct src as [sl |]; [| reflexivity].
  destruct (truthy (Some sl)); reflexivity.
Qed.

(** What a call does, by structure kind and by the outcome of the listing. *)
Lemma detectLanguages_run p w :
  detectLanguagesFromProject p w
  = let info := structure_of p in
    match type info with
    | FolderBased =>
        match Fs.readdirSync (basePath info) w with
        | (Returned es, _) =>
            (Returned (sorted_codes (scan_directories (scan_arb p) es [])
                         (sourceLanguage info)), w)
        | (Thrown e, _) =>
            (Returned [], warned w "Error scanning for language directories:" e)
        end
    | FileBased =>
        match Fs.readdirSync (basePath info) w with
        | (Returned es, _) =>
            (Returned (sorted_codes
                         (scan_files (scan_arb p) (scan_extension p) es [])
                         (sourceLanguage info)), w)
        | (Thrown e, _) =>
            (Returned [], warned w "Error scanning for language files:" e)
        end
    | Unknown => (Returned [], w)
    end.
Proof.
  unfold detectLanguagesFromProject. unfold bind at 1. rewrite detect_pure.
  cbn zeta. fold (scan_arb p).
  destruct (type (structure_of p)); unfold bind, try_catch, ret.
  - destruct (Fs.readdirSync _ w) as [[es | e] w1] eqn:Hr;
      apply readdirSync_reads_only in Hr as ->.
    + reflexivity.
    + cbn. destruct (sourceLanguage (structure_of p)) as [sl |];
        [destruct (truthy (Some sl)) |]; reflexivity.
  - fold (scan_extension p).
    destruct (Fs.readdirSync _ w) as [[es | e] w1] eqn:Hr;
      apply readdirSync_reads_only in Hr as ->.
    + reflexivity.
    + cbn. destruct (sourceLanguage (structure_of p)) as [sl |];
        [destruct (truthy (Some sl)) |]; reflexivity.
  - cbn. destruct (sourceLanguage (structure_of p)) as [sl |];
      [destruct (truthy (Some sl)) |]; reflexivity.
Qed.

End Enumeration.

Lemma matches_nonempty fmt s : Matches fmt s -> s <> [].
Proof.
  intros H ->. apply test_matches in H. destruct fmt; discriminate.
Qed.

Lemma source_language_nonempty p sl :
  sourceLanguage (structure_of p) = Some sl -> sl <> [].
Proof.
  destruct (test (pattern_of (format_of p)) (parent_name p)) eqn:Ht.
  - apply test_matches in Ht. rewrite (structure_folder p Ht).
    intros [= <-]. eapply matches_nonempty. exact Ht.
  - apply test_not_matches in Ht. rewrite (structure_not_folder p Ht).
    cbn zeta.
    destruct (extractLanguageCodeFromFileName (base_name p) (is_arb p))
      as [code |]; [| discriminate].
    destruct (truthy (Some code)) eqn:Htr; [| discriminate].
    intros [= <-]. apply truthy_nonempty. assumption.
Qed.

Section EnumerationProperties.

Context {collator : Collator}.

Lemma sorted_codes_elem codes src (l : jsstring) :
  l ∈ sorted_codes codes src <-> l ∈ without_source codes src.
Proof.
  unfold sorted_codes.
  rewrite (array_sort_perm localeCompare (without_source codes src)).
  reflexivity.
Qed.

Lemma sorted_codes_nodup codes src :
  NoDup codes -> NoDup (sorted_codes codes src).
Proof.
  intros H. unfold sorted_codes.
  rewrite (array_sort_perm localeCompare (without_source codes src)).
  apply without_source_nodup. assumption.
Qed.

Lemma sorted_codes_sorted codes src :
  StronglySorted
    (in_order (fun a b => localeCompare (toLowerCase a) (toLowerCase b)))
    (sorted_codes codes src).
Proof.
  apply (StronglySorted_ext (in_order localeCompare)).
  - intros a b. unfold in_order. rewrite <- localeCompare_base. tauto.
  - apply array_sort_sorted.
    + apply localeCompare_antisym.
    + apply localeCompare_trans.
Qed.

Lemma sorted_codes_excludes codes p sl :
  sourceLanguage (structure_of p) = Some sl ->
  sl ∉ sorted_codes codes (sourceLanguage (structure_of p)).
Proof.
  intros Hs Hin. apply sorted_codes_elem, without_source_elem in Hin as [_ Hne].
  apply Hne; [| assumption]. rewrite Hs. apply truthy_nonempty.
  eapply source_language_nonempty. eassumption.
Qed.

(** Every call returns a list with the stated properties. *)
Lemma detectLanguages_properties p w :
  exists langs w',
    detectLanguagesFromProject p w = (Returned langs, w')
    /\ fs w' = fs w
    /\ NoDup langs
    /\ StronglySorted
         (in_order (fun a b => localeCompare (toLowerCase a) (toLowerCase b)))
         langs
    /\ (forall sl, sourceLanguage (structure_of p) = Some sl -> sl ∉ langs)
    /\ (type (structure_of p) = Unknown -> langs = [] /\ w' = w)
    /\ (forall es,
          Fs.readdirSync (basePath (structure_of p)) w = (Returned es, w) ->
          w' = w
          /\ forall l, l ∈ langs <->
                       listed p es l
                       /\ sourceLanguage (structure_of p) <> Some l).
Proof.
  rewrite detectLanguages_run. cbn zeta.
  assert (Hnil : forall w1 : World,
    fs w1 = fs w ->
    (type (structure_of p) = Unknown -> w1 = w) ->
    (forall es, Fs.readdirSync (basePath (structure_of p)) w = (Returned es, w)
                -> w1 = w /\ forall l, ~ listed p es l) ->
    exists langs w',
      (Returned (@nil jsstring), w1) = (Returned langs, w')
      /\ fs w' = fs w /\ NoDup langs
      /\ StronglySorted
           (in_order (fun a b => localeCompare (toLowerCase a) (toLowerCase b)))
           langs
      /\ (forall sl, sourceLanguage (structure_of p) = Some sl -> sl ∉ langs)
      /\ (type (structure_of p) = Unknown -> langs = [] /\ w' = w)
      /\ (forall es,
            Fs.readdirSync (basePath (structure_of p)) w = (Returned es, w) ->
            w' = w
            /\ forall l, l ∈ langs <->
                         listed p es l
                         /\ sourceLanguage (structure_of p) <> Some l)).
  { intros w1 Hfs Hw Hno. exists [], w1.
    split; [reflexivity |]. split; [assumption |].
    split; [constructor |]. split; [constructor |].
    split; [intros sl _ Hin; inversion Hin |].
    split; [intros Hu; split; [reflexivity | apply Hw, Hu] |].
    intros es H. destruct (Hno es H) as [-> Hl]. split; [reflexivity |].
    intros l. split; [intros Hin; inversion Hin |].
    intros [Hli _]. destruct (Hl l Hli). }
  assert (Hsome : forall codes es,
    NoDup codes ->
    type (structure_of p) <> Unknown ->
    Fs.readdirSync (basePath (structure_of p)) w = (Returned es, w) ->
    (forall l, l ∈ codes <-> listed p es l) ->
    exists langs w',
      (Returned (sorted_codes codes (sourceLanguage (structure_of p))), w)
      = (Returned langs, w')
      /\ fs w' = fs w /\ NoDup langs
      /\ StronglySorted
           (in_order (fun a b => localeCompare (toLowerCase a) (toLowerCase b)))
           langs
      /\ (forall sl, sourceLanguage (structure_of p) = Some sl -> sl ∉ langs)
      /\ (type (structure_of p) = Unknown -> langs = [] /\ w' = w)
      /\ (forall es,
            Fs.readdirSync (basePath (structure_of p)) w = (Returned es, w) ->
            w' = w
            /\ forall l, l ∈ langs <->
                         listed p es l
                         /\ sourceLanguage (structure_of p) <> Some l)).
  { intros codes es Hnd Hty Hr Hlisted.
    exists (sorted_codes codes (sourceLanguage (structure_of p))), w.
    split; [reflexivity |]. split; [reflexivity |].
    split; [apply sorted_codes_nodup; assumption |].
    split; [apply sorted_codes_sorted |].
    split; [intros sl Hs; apply sorted_codes_excludes; assumption |].
    split; [intros Hu; contradiction |].
    intros es' Hr'. rewrite Hr in Hr'. injection Hr' as <-.
    split; [reflexivity |]. intros l.
    rewrite sorted_codes_elem, without_source_elem, Hlisted.
    split; intros [H1 H2]; split; try assumption.
    - intros Hs. apply H2; [| assumption]. rewrite Hs.
      apply truthy_nonempty. eapply source_language_nonempty. eassumption.
    - intros _. assumption. }
  destruct (type (structure_of p)) eqn:Hty.
  - destruct (Fs.readdirSync _ w) as [[es | e] w1] eqn:Hr;
      pose proof (readdirSync_reads_only _ _ _ _ Hr) as ->.
    + apply (Hsome _ es); [apply scan_directories_nodup; constructor
                          | discriminate | reflexivity |].
      intros l. unfold listed. rewrite Hty, scan_directories_elem.
      unfold scan_format. split.
      * intros [H | (d & Hd & Hdir & Hn & Ht)]; [inversion H |].
        exists d. repeat split; try assumption.
        destruct (scan_arb p); [apply (test_matches Arb)
                               | apply (test_matches Standard)]; assumption.
      * intros (d & Hd & Hdir & Hn & Hm). right. exists d.
        repeat split; try assumption.
        destruct (scan_arb p); [apply (test_matches Arb) in Hm
                               | apply (test_matches Standard) in Hm];
          assumption.
    + apply Hnil; [reflexivity | discriminate | intros es; discriminate].
  - destruct (Fs.readdirSync _ w) as [[es | e] w1] eqn:Hr;
      pose proof (readdirSync_reads_only _ _ _ _ Hr) as ->.
    + apply (Hsome _ es); [apply scan_files_nodup; constructor
                          | discriminate | reflexivity |].
      intros l. unfold listed. rewrite Hty, scan_files_elem.
      split; [intros [H | H]; [inversion H | exact H] | intros H; right; exact H].
    + apply Hnil; [reflexivity | discriminate | intros es; discriminate].
  - apply Hnil; [reflexivity | reflexivity |].
    intros es _. split; [reflexivity |]. intros l. unfold listed.
    rewrite Hty. tauto.
Qed.

End EnumerationProperties.

(** C7: [detectLanguagesFromProject] returns a list without duplicates,
    sorted by the host's case-insensitive comparison, whose entries are the
    names and extracted codes exactly as they are written in the directory
    listing, without the detected source language; for an Unknown structure
    the list is empty.  For [locales/en/common.json] next to [locales/fr]
    and [locales/de] the result is [de], [fr]. *)
Theorem detectLanguages_sorted_distinct :
  (forall (collator : Collator) p w,
      exists langs w',
        detectLanguagesFromProject p w = (Returned langs, w')
        /\ fs w' = fs w
        /\ NoDup langs
        /\ StronglySorted
             (in_order (fun a b => localeCompare (toLowerCase a) (toLowerCase b)))
             langs
        /\ (forall sl, sourceLanguage (structure_of p) = Some sl -> sl ∉ langs)
        /\ (type (structure_of p) = Unknown -> langs = [] /\ w' = w)
        /\ (forall es,
              Fs.readdirSync (basePath (structure_of p)) w = (Returned es, w) ->
              w' = w
              /\ forall l, l ∈ langs <->
                           listed p es l
                           /\ sourceLanguage (structure_of p) <> Some l))
  /\ structure_of "locales/en/common.json"
     = mkInfo FolderBased "locales" (Some (str "en"))
  /\ @detectLanguagesFromProject root_collator "locales/en/common.json"
       locales_world
     = (Returned [str "de"; str "fr"], locales_world)
  /\ @detectLanguagesFromProject root_collator "translations/messages.json"
       siblings_world
     = (Returned [], siblings_world).
Proof.
  split; [intros collator p w; apply detectLanguages_properties |].
  repeat split.
Qed.

Lemma detectLanguages_sorted_distinct_witness :
  exists langs w',
    @detectLanguagesFromProject root_collator "i18n/en.json" collision_world
    = (Returned langs, w')
    /\ NoDup langs
    /\ (str "en") ∉ langs.
Proof.
  destruct (proj1 detectLanguages_sorted_distinct root_collator
              "i18n/en.json" collision_world)
    as (langs & w' & Hrun & _ & Hnd & _ & Hsrc & _).
  exists langs, w'. split; [exact Hrun |]. split; [exact Hnd |].
  apply Hsrc. reflexivity.
Defined.

(** C9: when listing the base directory throws (access denied, directory
    gone, not a directory), [detectLanguagesFromProject] catches the error,
    logs one warning carrying it, and returns the empty list; no call ever
    throws. *)
Theorem detectLanguages_survives_read_failure :
  (forall (collator : Collator) p w e,
      type (structure_of p) <> Unknown ->
      Fs.readdirSync (basePath (structure_of p)) w = (Thrown e, w) ->
      exists msg,
        detectLanguagesFromProject p w = (Returned [], warned w msg e))
  /\ (forall (collator : Collator) p w,
        exists langs w',
          detectLanguagesFromProject p w = (Returned langs, w')
          /\ fs w' = fs w)
  /\ @detectLanguagesFromProject root_collator "locales/en/common.json"
       denied_world
     = (Returned [],
        warned denied_world "Error scanning for language directories:"
          (EACCES "locales"))
  /\ @detectLanguagesFromProject root_collator "i18n/en.json" empty_world
     = (Returned [],
        warned empty_world "Error scanning for language files:"
          (ENOENT "i18n")).
Proof.
  split; [| split; [| split; reflexivity]].
  - intros collator p w e Hty Hr. rewrite detectLanguages_run. cbn zeta.
    destruct (type (structure_of p)); [| | congruence]; rewrite Hr; eauto.
  - intros collator p w.
    destruct (detectLanguages_properties p w) as (langs & w' & H & Hfs & _).
    eauto.
Qed.

Lemma detectLanguages_survives_read_failure_witness :
  exists msg,
    @detectLanguagesFromProject root_collator "locales/en/common.json"
      denied_world
    = (Returned [], warned denied_world msg (EACCES "locales")).
Proof.
  apply (proj1 detectLanguages_survives_read_failure root_collator
           "locales/en/common.json" denied_world (EACCES "locales")).
  - discriminate.
  - reflexivity.
Defined.

(* ================================================================= *)
(** * Further properties of the class *)

(** ** Normalisation composes with itself and with validation *)

Lemma lower_lower a :
  toLowerCase_char (toLowerCase_char a) = toLowerCase_char a.
Proof. all_chars a. Qed.

Lemma upper_upper a :
  toUpperCase_char (toUpperCase_char a) = toUpperCase_char a.
Proof. all_chars a. Qed.

Lemma lower_upper a :
  toLowerCase_char (toUpperCase_char a) = toLowerCase_char a.
Proof. all_chars a. Qed.

Lemma upper_lower a :
  toUpperCase_char (toLowerCase_char a) = toUpperCase_char a.
Proof. all_chars a. Qed.

Lemma canonical_subtags_well_formed t :
  well_formed Standard t = true ->
  well_formed Standard (canonical_subtags t) = true.
Proof.
  intros H. destruct (canonical_documented t H) as [Hr Hd].
  destruct (documented_is_pattern Standard (render (canonical_subtags t)))
    as (t' & Hr' & Hwf').
  - exists (canonical_subtags t). split; [reflexivity | exact Hd].
  - unfold well_formed in *. revert Hd.
    apply well_formed_joiner; try reflexivity.
    intros j tag _ Hj. apply (joiner_documented Standard j Hj).
Qed.

Lemma canonical_canonical t :
  well_formed Standard t = true ->
  canonical (canonical_subtags t) = canonical t.
Proof.
  unfold well_formed. intros H.
  shapes H t; unfold canonical, canonical_subtags, title_case; cbn;
    rewrite ?lower_lower, ?upper_upper, ?lower_upper, ?upper_lower;
    reflexivity.
Qed.

(** X1: normalising twice is normalising once, for every input. *)
Theorem normalizeLanguageCode_idempotent (code : jsstring) :
  normalizeLanguageCode (normalizeLanguageCode code)
  = normalizeLanguageCode code.
Proof.
  destruct (normalize_cases code) as [(t & Hr & Hwf & Hn & _) | [_ Hn]].
  - rewrite Hn.
    replace (normalizeLanguageCode (canonical t))
      with (normalizeLanguageCode (render (canonical_subtags t)))
      by (f_equal; apply canonical_documented; assumption).
    rewrite (normalize_render _ (canonical_subtags_well_formed t Hwf)).
    apply canonical_canonical. assumption.
  - rewrite Hn. exact Hn.
Qed.

(** X2: normalisation neither creates nor destroys validity: the normalised
    code passes [validateLanguageCode] exactly when the input does. *)
Theorem validate_normalized (code : jsstring) :
  validateLanguageCode (normalizeLanguageCode code)
  = validateLanguageCode code.
Proof.
  destruct (normalize_cases code) as [(t & Hr & Hwf & Hn & Hd) | [_ Hn]].
  - rewrite Hn.
    assert (H1 : validateLanguageCode (canonical t) = true).
    { rewrite validate_is_test. apply (test_matches Standard).
      apply documented_is_pattern. exact Hd. }
    assert (H2 : validateLanguageCode code = true).
    { rewrite validate_is_test. apply (test_matches Standard).
      exists t. split; assumption. }
    congruence.
  - rewrite Hn. reflexivity.
Qed.

(** ** ARB codes under the standard pattern *)

(** The inverse of [replace_hyphens] on ARB codes: [_] becomes [-]. *)
Definition replace_underscores (s : jsstring) : jsstring :=
  map (fun a => if char_eqb a "_" then "-"%char else a) s.

Arguments is_lower : simpl never.
Arguments is_upper : simpl never.
Arguments is_underscore : simpl never.
Arguments is_separator : simpl never.

Lemma well_formed_mono cs1 cs2 t :
  (forall a, small cs1 a = true -> small cs2 a = true) ->
  (forall a, capital cs1 a = true -> capital cs2 a = true) ->
  (forall a, joiner cs1 a = true -> joiner cs2 a = true) ->
  (forall a, numeral cs1 a = true -> numeral cs2 a = true) ->
  well_formed_with cs1 t = true -> well_formed_with cs2 t = true.
Proof.
  intros Hs Hc Hj Hn H.
  shapes H t; unfold well_formed_with, language_ok, script_ok, region_ok; cbn;
    repeat match goal with
           | H : small cs1 _ = true |- _ => apply Hs in H; rewrite H; clear H
           | H : capital cs1 _ = true |- _ => apply Hc in H; rewrite H; clear H
           | H : joiner cs1 _ = true |- _ => apply Hj in H; rewrite H; clear H
           | H : numeral cs1 _ = true |- _ => apply Hn in H; rewrite H; clear H
           end; cbn; rewrite ?orb_true_r; reflexivity.
Qed.

Lemma arb_is_standard s : Matches Arb s -> Matches Standard s.
Proof.
  intros (t & Hr & Hwf). exists t. split; [assumption |].
  revert Hwf. unfold well_formed.
  apply well_formed_mono; intros a; cbn; all_chars a; intros H; exact H.
Qed.

Lemma lower_fixed a : is_lower a = true -> toLowerCase_char a = a.
Proof. all_chars a; discriminate. Qed.

Lemma upper_fixed a : is_upper a = true -> toUpperCase_char a = a.
Proof. all_chars a; discriminate. Qed.

Lemma digit_fixed a : is_digit a = true -> toUpperCase_char a = a.
Proof. all_chars a; discriminate. Qed.

Lemma underscore_is a : is_underscore a = true -> a = "_"%char.
Proof. apply char_eqb_eq. Qed.

Lemma lower_not_joined a :
  is_lower a = true -> char_eqb a "_" = false /\ char_eqb a "-" = false.
Proof. all_chars a; (discriminate || (intros _; split; reflexivity)). Qed.

Lemma upper_not_joined a :
  is_upper a = true -> char_eqb a "_" = false /\ char_eqb a "-" = false.
Proof. all_chars a; (discriminate || (intros _; split; reflexivity)). Qed.

Lemma digit_not_joined a :
  is_digit a = true -> char_eqb a "_" = false /\ char_eqb a "-" = false.
Proof. all_chars a; (discriminate || (intros _; split; reflexivity)). Qed.

Ltac arb_chars :=
  repeat match goal with
         | H : is_underscore ?a = true |- _ =>
             apply underscore_is in H; subst a
         | H : is_lower ?a = true |- _ =>
             rewrite ?(lower_fixed a H);
             rewrite ?(proj1 (lower_not_joined a H)),
                     ?(proj2 (lower_not_joined a H)); clear H
         | H : is_upper ?a = true |- _ =>
             rewrite ?(upper_fixed a H);
             rewrite ?(proj1 (upper_not_joined a H)),
                     ?(proj2 (upper_not_joined a H)); clear H
         | H : is_digit ?a = true |- _ =>
             rewrite ?(digit_fixed a H);
             rewrite ?(proj1 (digit_not_joined a H)),
                     ?(proj2 (digit_not_joined a H)); clear H
         end.

Lemma canonical_arb t :
  well_formed Arb t = true ->
  canonical t = replace_underscores (render t)
  /\ replace_hyphens (canonical t) = render t.
Proof.
  unfold well_formed. intros H.
  shapes H t;
    unfold canonical, render, title_case, replace_underscores, replace_hyphens,
      toLowerCase, toUpperCase;
    cbn [language script region render_part app map take drop str
         list_ascii_of_string];
    arb_chars; split; reflexivity.
Qed.

(** X3: every well-formed ARB code passes [validateLanguageCode], and
    [normalizeLanguageCode] only swaps its underscores for hyphens; turning
    the hyphens back into underscores, as [generateTargetFilePath] does for
    ARB files, gives the original code. *)
Theorem arb_code_round_trip (s : jsstring) :
  Matches Arb s ->
  validateLanguageCode s = true
  /\ normalizeLanguageCode s = replace_underscores s
  /\ replace_hyphens (normalizeLanguageCode s) = s.
Proof.
  intros H. pose proof (arb_is_standard s H) as Hstd.
  destruct H as (t & <- & Hwf).
  assert (Hs : well_formed Standard t = true).
  { revert Hwf. unfold well_formed.
    apply well_formed_mono; intros a; cbn; all_chars a; intros H; exact H. }
  split; [rewrite validate_is_test; apply (test_matches Standard); exact Hstd |].
  rewrite (normalize_render t Hs). apply canonical_arb. assumption.
Qed.

Lemma arb_code_round_trip_witness :
  validateLanguageCode "zh_Hans_CN" = true
  /\ normalizeLanguageCode "zh_Hans_CN" = replace_underscores "zh_Hans_CN"
  /\ replace_hyphens (normalizeLanguageCode "zh_Hans_CN") = str "zh_Hans_CN".
Proof.
  apply (arb_code_round_trip "zh_Hans_CN").
  apply (test_matches Arb). reflexivity.
Defined.

(** ** What an extracted code looks like *)

Lemma candidate_prefix fileName i c :
  suffix_candidates fileName !! i = Some c ->
  c = fileName \/ exists pre, fileName = pre ++ "_" ++ c.
Proof.
  intros H. assert (Hi : i < length (split "_" fileName)).
  { rewrite <- candidates_length. eapply lookup_lt_Some. eassumption. }
  rewrite candidates_lookup in H by assumption. injection H as <-.
  change (str "_") with ["_"%char].
  destruct i as [| i].
  - left. rewrite drop_0. apply join_split.
  - right. exists (join ["_"%char] (take (S i) (split "_" fileName))).
    rewrite <- drop_join_suffix by (assumption || lia).
    symmetry. apply join_split.
Qed.

Lemma extracted_matches (fileName : jsstring) (isArbFile : bool)
    (code : jsstring) :
  extractLanguageCodeFromFileName fileName isArbFile = Some code ->
  Matches (if isArbFile then Arb else Standard) code
  /\ (code = fileName
      \/ (isArbFile = true /\ exists pre, fileName = pre ++ "_" ++ code)).
Proof.
  intros H. destruct isArbFile.
  - rewrite extract_arb_find in H. apply find_first in H as (i & Hi & Ht & _).
    split; [apply (test_matches Arb); exact Ht |].
    destruct (candidate_prefix _ _ _ Hi) as [-> | Hpre]; [left | right]; auto.
  - unfold extractLanguageCodeFromFileName in H.
    destruct (test languageCodeRegex fileName) eqn:Ht; [| discriminate].
    injection H as <-. split; [apply (test_matches Standard); exact Ht |].
    left. reflexivity.
Qed.

(** X4: whatever [extractLanguageCodeFromFileName] returns fully matches
    the grammar of the format asked for and is not empty.  For a non-ARB
    name it is the whole name; for an ARB name it is the whole name or the
    part after one of its underscores. *)
Theorem extracted_code_is_well_formed (fileName : jsstring) (isArbFile : bool)
    (code : jsstring) :
  extractLanguageCodeFromFileName fileName isArbFile = Some code ->
  Matches (if isArbFile then Arb else Standard) code
  /\ code <> []
  /\ (code = fileName
      \/ (isArbFile = true /\ exists pre, fileName = pre ++ "_" ++ code)).
Proof.
  intros H. destruct (extracted_matches _ _ _ H) as [Hm Hsuf].
  split; [exact Hm |]. split; [| exact Hsuf].
  eapply matches_nonempty. exact Hm.
Qed.

Lemma extracted_code_is_well_formed_witness :
  Matches Arb "en_US"
  /\ str "en_US" <> []
  /\ (str "en_US" = str "app_en_US"
      \/ (true = true /\ exists pre, str "app_en_US" = pre ++ "_" ++ "en_US")).
Proof.
  apply (extracted_code_is_well_formed "app_en_US" true "en_US"). reflexivity.
Defined.

Lemma split_app sep (a b : jsstring) :
  split sep (a ++ sep :: b) = split sep a ++ split sep b.
Proof.
  induction a as [| x a IH]; cbn [app split].
  - assert (char_eqb sep sep = true) as -> by (apply char_eqb_eq; reflexivity).
    reflexivity.
  - destruct (char_eqb x sep); rewrite IH; [reflexivity |].
    pose proof (split_nonempty sep a) as Hne.
    destruct (split sep a) as [| p ps]; [congruence | reflexivity].
Qed.

Lemma extract_arb_trailing (prefix code : jsstring) :
  Matches Arb code ->
  exists found pre,
    extractLanguageCodeFromFileName (prefix ++ "_" ++ code) true = Some found
    /\ found = pre ++ code.
Proof.
  intros Hm. set (fileName := prefix ++ "_" ++ code).
  set (parts := split "_" fileName).
  set (i := length (split "_" prefix)).
  assert (Hparts : parts = split "_" prefix ++ split "_" code).
  { unfold parts, fileName. change (str "_") with ["_"%char]. cbn [app].
    apply split_app. }
  assert (Hdrop : drop i parts = split "_" code).
  { rewrite Hparts. unfold i. apply drop_app_length. }
  assert (Hi : i < length parts).
  { rewrite Hparts, length_app. fold i.
    pose proof (split_nonempty "_" code) as Hne.
    destruct (split "_" code); [congruence | cbn; lia]. }
  assert (Hcand : suffix_candidates fileName !! i = Some code).
  { rewrite candidates_lookup by exact Hi. fold parts. rewrite Hdrop.
    change (str "_") with ["_"%char]. rewrite join_split. reflexivity. }
  destruct (extractLanguageCodeFromFileName fileName true) as [found |] eqn:Hx.
  - exists found. rewrite extract_arb_find in Hx.
    apply find_first in Hx as (j & Hj & Ht & Hmin).
    assert (Hji : j <= i).
    { destruct (Nat.le_gt_cases j i) as [Hle | Hgt]; [exact Hle |].
      specialize (Hmin i code Hgt Hcand).
      apply (test_matches Arb) in Hm. cbn [pattern_of] in Hm. congruence. }
    destruct (Nat.eq_dec j i) as [-> | Hne].
    + exists []. split; [reflexivity | cbn [app]; congruence].
    + pose proof Hj as Hj'.
      rewrite candidates_lookup in Hj' by (unfold parts in Hi; lia).
      injection Hj' as <-. fold parts.
      set (rest := drop j parts).
      assert (Hrest : drop (i - j) rest = split "_" code).
      { unfold rest. rewrite drop_drop. replace (j + (i - j)) with i by lia.
        exact Hdrop. }
      assert (Hlen : i - j < length rest).
      { unfold rest. rewrite length_drop. lia. }
      change (str "_") with ["_"%char].
      rewrite (drop_join_suffix ["_"%char] rest (i - j)) by lia.
      rewrite Hrest, join_split.
      exists (join ["_"%char] (take (i - j) rest) ++ ["_"%char]).
      split; [reflexivity |]. rewrite <- app_assoc. reflexivity.
  - exfalso. rewrite extract_arb_find in Hx.
    rewrite find_none_iff in Hx.
    assert (Hin : code ∈ suffix_candidates fileName).
    { apply list_elem_of_lookup. eauto. }
    apply Hx in Hin. apply (test_matches Arb) in Hm. cbn [pattern_of] in Hm.
    congruence.
Qed.

(** X5: an ARB name that ends with an underscore followed by a well-formed
    ARB code always yields a code, and the code found ends with that one
    (it is that code or a longer match reaching further left). *)
Theorem extract_arb_finds_trailing_code (prefix code : jsstring) :
  Matches Arb code ->
  exists found pre,
    extractLanguageCodeFromFileName (prefix ++ "_" ++ code) true = Some found
    /\ found = pre ++ code.
Proof. apply extract_arb_trailing. Qed.

Lemma extract_arb_finds_trailing_code_witness :
  exists found pre,
    extractLanguageCodeFromFileName (str "my_app" ++ "_" ++ "fr") true
    = Some found
    /\ found = pre ++ "fr".
Proof.
  apply (extract_arb_finds_trailing_code "my_app" "fr").
  apply (test_matches Arb). reflexivity.
Defined.

(** ** Generated names are found again by the scan *)

Lemma matches_no_slash fmt (s : jsstring) : Matches fmt s -> ~ In Path.SLASH s.
Proof.
  intros (t & <- & Hwf) Hin. apply well_formed_chars in Hwf.
  rewrite forallb_forall in Hwf. specialize (Hwf _ Hin).
  destruct fmt; vm_compute in Hwf; discriminate.
Qed.

Lemma charAt_app_r (name ext : jsstring) k :
  charAt (name ++ ext) (length name + k) = charAt ext k.
Proof.
  unfold charAt. rewrite nth_error_app2 by lia. f_equal. lia.
Qed.

Lemma charAt_no_slash (s : jsstring) i :
  ~ In Path.SLASH s -> is_char Path.SLASH (charAt s i) = false.
Proof.
  intros Hs. unfold charAt, is_char.
  destruct (nth_error s i) as [a |] eqn:E; [| reflexivity].
  apply nth_error_In in E. unfold char_eqb.
  destruct (Ascii.eqb_spec a Path.SLASH) as [-> | _]; [tauto | reflexivity].
Qed.

Lemma basename_scan_rest (path sfx : jsstring) n end_ ms first :
  ~ In Path.SLASH path -> first <> (-1)%Z ->
  Path.basename_suffix_scan path sfx n end_ ms (-1) first
  = (0%Z, end_, first).
Proof.
  intros Hs Hf. revert ms.
  induction n as [| i IH]; intros ms; cbn [Path.basename_suffix_scan];
    [reflexivity |].
  rewrite (charAt_no_slash path i Hs). cbv zeta.
  apply Z.eqb_neq in Hf. rewrite Hf.
  change (0 <=? -1)%Z with false. cbv iota. apply IH.
Qed.

Lemma basename_scan_step (name ext : jsstring) k ms first :
  ~ In Path.SLASH (name ++ ext) ->
  k < length ext ->
  first = Z.of_nat (length (name ++ ext))
  \/ (S k = length ext /\ first = (-1)%Z) ->
  Path.basename_suffix_scan (name ++ ext) ext (S (length name + k)) (-1) ms
    (Z.of_nat k) first
  = Path.basename_suffix_scan (name ++ ext) ext (length name + k)
      (if (Z.of_nat k - 1 =? -1)%Z then Z.of_nat (length name + k) else (-1)%Z)
      (if (first =? -1)%Z then false else ms)
      (Z.of_nat k - 1) (Z.of_nat (length (name ++ ext))).
Proof.
  intros Hs Hk Hfirst. cbn [Path.basename_suffix_scan].
  rewrite (charAt_no_slash _ _ Hs). cbv zeta.
  rewrite charAt_app_r, Nat2Z.id.
  destruct (charAt ext k) as [x |] eqn:Hx;
    [| apply nth_error_None in Hx; lia].
  replace (0 <=? Z.of_nat k)%Z with true by (symmetry; apply Z.leb_le; lia).
  cbn [Path.code_eqb]. unfold char_eqb. rewrite Ascii.eqb_refl.
  replace (if (first =? -1)%Z
           then (Z.of_nat (length name + k) + 1)%Z else first)
    with (Z.of_nat (length (name ++ ext))); [reflexivity |].
  rewrite length_app. destruct Hfirst as [-> | [Hlen ->]].
  - rewrite length_app.
    destruct (Z.eqb_spec (Z.of_nat (length name + length ext)) (-1));
      [lia | reflexivity].
  - change (-1 =? -1)%Z with true. cbv iota. lia.
Qed.

Lemma basename_scan_suffix (name ext : jsstring) k ms first :
  ~ In Path.SLASH (name ++ ext) ->
  k < length ext ->
  first = Z.of_nat (length (name ++ ext))
  \/ (S k = length ext /\ first = (-1)%Z) ->
  Path.basename_suffix_scan (name ++ ext) ext (length name + S k) (-1) ms
    (Z.of_nat k) first
  = (0%Z, Z.of_nat (length name), Z.of_nat (length (name ++ ext))).
Proof.
  intros Hs. revert ms first.
  induction k as [| k IH]; intros ms first Hk Hfirst;
    rewrite Nat.add_succ_r, (basename_scan_step name ext _ ms first Hs Hk Hfirst).
  - change (Z.of_nat 0 - 1 =? -1)%Z with true. cbv iota.
    change (Z.of_nat 0 - 1)%Z with (-1)%Z. rewrite Nat.add_0_r.
    apply basename_scan_rest; [exact Hs | lia].
  - replace (Z.of_nat (S k) - 1)%Z with (Z.of_nat k) by lia.
    replace (Z.of_nat k =? -1)%Z with false
      by (symmetry; apply Z.eqb_neq; lia).
    apply IH; [lia | left; reflexivity].
Qed.

Lemma basename_strip (name ext : jsstring) :
  name <> [] -> ext <> [] ->
  ~ In Path.SLASH name -> ~ In Path.SLASH ext ->
  Path.basename (name ++ ext) (Some ext) = name.
Proof.
  intros Hn He Hsn Hse.
  assert (Hs : ~ In Path.SLASH (name ++ ext))
    by (rewrite in_app_iff; tauto).
  assert (Hln : 0 < length name) by (destruct name; [congruence | cbn; lia]).
  assert (Hle : 0 < length ext) by (destruct ext; [congruence | cbn; lia]).
  unfold Path.basename.
  replace ((0 <? length ext) && (length ext <=? length (name ++ ext)))
    with true
    by (symmetry; apply andb_true_intro; split;
        [apply Nat.ltb_lt; lia | apply Nat.leb_le; rewrite length_app; lia]).
  replace (jseqb ext (name ++ ext)) with false
    by (symmetry; apply bool_decide_eq_false; intros E;
        apply (f_equal (@length ascii)) in E; rewrite length_app in E; lia).
  destruct (length ext) as [| k] eqn:Hlen; [lia |].
  replace (length (name ++ ext)) with (length name + S k)
    by (rewrite length_app; lia).
  replace (Z.of_nat (S k) - 1)%Z with (Z.of_nat k) by lia.
  rewrite basename_scan_suffix; [| exact Hs | lia | right; split; [lia | reflexivity]].
  replace (0 =? Z.of_nat (length name))%Z with false
    by (symmetry; apply Z.eqb_neq; lia).
  replace (Z.of_nat (length name) =? -1)%Z with false
    by (symmetry; apply Z.eqb_neq; lia).
  unfold slice. rewrite Nat2Z.id. change (Z.to_nat 0) with 0.
  rewrite Nat.sub_0_r, drop_0. apply take_app_length.
Qed.

Lemma endsWith_app (name ext : jsstring) : endsWith (name ++ ext) ext = true.
Proof.
  unfold endsWith. apply andb_true_intro. split.
  - apply Nat.leb_le. rewrite length_app. lia.
  - apply bool_decide_eq_true. rewrite length_app.
    replace (length name + length ext - length ext) with (length name) by lia.
    apply drop_app_length.
Qed.

Lemma extract_whole_name (isArb : bool) (l : jsstring) :
  Matches (if isArb then Arb else Standard) l ->
  extractLanguageCodeFromFileName l isArb = Some l.
Proof.
  intros Hm. destruct isArb.
  - rewrite extract_arb_find. apply find_first. exists 0.
    pose proof (split_nonempty "_" l) as Hne.
    rewrite candidates_lookup
      by (destruct (split "_" l); [congruence | cbn; lia]).
    rewrite drop_0. change (str "_") with ["_"%char]. rewrite join_split.
    split; [reflexivity |]. split; [| intros j y Hj; lia].
    apply (test_matches Arb) in Hm. exact Hm.
  - unfold extractLanguageCodeFromFileName.
    apply (test_matches Standard) in Hm. cbn [pattern_of] in Hm.
    rewrite Hm. reflexivity.
Qed.

Lemma scan_finds_named_entry (isArb : bool) (prefix l : jsstring)
    (es : list Dirent) (acc : JsSet) :
  let ext := if isArb then str ".arb" else str ".json" in
  Matches (if isArb then Arb else Standard) l ->
  prefix = [] \/ (isArb = true /\ exists stem, prefix = stem ++ "_") ->
  ~ In Path.SLASH prefix ->
  mkDirent (prefix ++ l ++ ext) FileNode ∈ es ->
  exists found pre,
    found ∈ scan_files isArb ext es acc
    /\ found = pre ++ l
    /\ (prefix = [] -> found = l).
Proof.
  intros ext Hm Hprefix Hslash Hin.
  pose proof (matches_nonempty _ _ Hm) as Hne.
  pose proof (matches_no_slash _ _ Hm) as Hl.
  assert (Hbase : Path.basename (prefix ++ l ++ ext) (Some ext) = prefix ++ l).
  { rewrite app_assoc. apply basename_strip.
    - destruct prefix; [exact Hne | discriminate].
    - unfold ext. destruct isArb; discriminate.
    - rewrite in_app_iff. tauto.
    - unfold ext. destruct isArb; cbn; intuition discriminate. }
  assert (Hx : exists found pre,
             extractLanguageCodeFromFileName (prefix ++ l) isArb = Some found
             /\ found = pre ++ l /\ (prefix = [] -> found = l)).
  { destruct Hprefix as [-> | [-> (stem & ->)]].
    - exists l, []. cbn [app]. split; [| split; [reflexivity | reflexivity]].
      apply extract_whole_name. exact Hm.
    - destruct (extract_arb_trailing stem l Hm) as (found & pre & Hf & ->).
      exists (pre ++ l), pre. rewrite <- app_assoc.
      split; [exact Hf | split; [reflexivity |]].
      intros E. destruct stem; discriminate E. }
  destruct Hx as (found & pre & Hf & -> & Hwhole).
  exists (pre ++ l), pre. split; [| split; [reflexivity | exact Hwhole]].
  apply scan_files_elem. right.
  exists (mkDirent (prefix ++ l ++ ext) FileNode).
  split; [exact Hin |]. split; [reflexivity |]. cbn [name].
  split; [rewrite app_assoc; apply endsWith_app |].
  split; [rewrite Hbase; exact Hf |].
  destruct pre; [cbn [app]; exact Hne | discriminate].
Qed.

Lemma generate_file_based p target w :
  type (structure_of p) = FileBased ->
  generateTargetFilePath p target w
  = (Returned (Path.join [Path.dirname p; generated_name p target]), w).
Proof.
  intros Hty. destruct (structure_file_based p Hty) as (code & Htr & _ & Hs).
  unfold generateTargetFilePath, bind, generated_name, arb_prefix_of, token_of.
  rewrite detect_pure, Hs. cbn [type basePath sourceLanguage].
  fold (base_name p). fold (is_arb p).
  destruct (is_arb p); reflexivity.
Qed.

Lemma scan_matches_extension p :
  Path.extname p = scan_extension p -> is_arb p = scan_arb p.
Proof.
  unfold scan_extension, is_arb. intros ->.
  destruct (scan_arb p); reflexivity.
Qed.

(** X17: for a file-based source whose extension is the one the scan
    looks for, whose token fully matches the scanned grammar, and whose ARB
    prefix is empty or ends with an underscore, the file
    [generateTargetFilePath] names is found again: once an entry with that
    name is listed in the source's directory, [detectLanguagesFromProject]
    returns a code that ends with the token (the token itself when there is
    no prefix), unless that code is the source language. *)
Theorem generated_file_is_found_again (collator : Collator)
    (p target : jsstring) (w w1 : World) (es : list Dirent) :
  let prefix := if is_arb p then arb_prefix_of p else [] in
  let token := token_of p target in
  type (structure_of p) = FileBased ->
  Path.extname p = scan_extension p ->
  Matches (scan_format p) token ->
  prefix = [] \/ ((exists stem, prefix = stem ++ "_") /\ ~ In Path.SLASH prefix) ->
  Fs.readdirSync (Path.dirname p) w1 = (Returned es, w1) ->
  mkDirent (generated_name p target) FileNode ∈ es ->
  generateTargetFilePath p target w
  = (Returned (Path.join [Path.dirname p; generated_name p target]), w)
  /\ exists found pre langs,
       detectLanguagesFromProject p w1 = (Returned langs, w1)
       /\ found = pre ++ token
       /\ (prefix = [] -> found = token)
       /\ (found ∈ langs \/ sourceLanguage (structure_of p) = Some found).
Proof.
  intros prefix token Hty Hext Hm Hprefix Hread Hin.
  split; [apply generate_file_based; exact Hty |].
  pose proof (scan_matches_extension p Hext) as Harb.
  destruct (structure_file_based p Hty) as (code & Htr & _ & Hs).
  assert (Hscan : exists found pre,
             found ∈ scan_files (scan_arb p) (scan_extension p) es []
             /\ found = pre ++ token /\ (prefix = [] -> found = token)).
  { apply (scan_finds_named_entry (scan_arb p) prefix token es []).
    - exact Hm.
    - destruct Hprefix as [-> | [(stem & Hst) _]]; [left; reflexivity |].
      right. split; [| exists stem; exact Hst].
      unfold prefix in Hst. rewrite <- Harb.
      destruct (is_arb p); [reflexivity |].
      destruct stem; discriminate Hst.
    - destruct Hprefix as [-> | [_ Hs']]; [intros [] | exact Hs'].
    - unfold generated_name in Hin. fold prefix token in Hin.
      rewrite Hext in Hin. exact Hin. }
  destruct Hscan as (found & pre & Hfound & Hpre & Hwhole).
  exists found, pre.
  rewrite detectLanguages_run. cbn zeta. rewrite Hs.
  cbn [type basePath sourceLanguage]. rewrite Hread.
  eexists. split; [reflexivity |]. split; [exact Hpre |].
  split; [exact Hwhole |].
  destruct (decide (code = found)) as [-> | Hne]; [right; reflexivity |].
  left. apply sorted_codes_elem, without_source_elem.
  split; [exact Hfound |]. intros _. congruence.
Qed.

Lemma generated_file_is_found_again_witness :
  generateTargetFilePath "lib/l10n/app_en_US.arb" "es" empty_world
  = (Returned (str "lib/l10n/app_es.arb"), empty_world)
  /\ exists found pre langs,
       @detectLanguagesFromProject root_collator "lib/l10n/app_en_US.arb"
         flutter_world
       = (Returned langs, flutter_world)
       /\ found = pre ++ str "es"
       /\ (str "app_" = [] -> found = str "es")
       /\ (found ∈ langs
           \/ sourceLanguage (structure_of "lib/l10n/app_en_US.arb")
              = Some found).
Proof.
  apply (generated_file_is_found_again root_collator
           "lib/l10n/app_en_US.arb" "es" empty_world flutter_world
           (Fs.entries_of (nodes (fs flutter_world)) "lib/l10n")).
  - reflexivity.
  - reflexivity.
  - apply (test_matches Arb). reflexivity.
  - right. split; [exists (str "app"); reflexivity |].
    vm_compute. intuition discriminate.
  - reflexivity.
  - vm_compute. repeat constructor.
Defined.

(** Outside these conditions the generated name is not found again, or is
    found as another language. *)
Example generated_names_outside_the_round_trip :
  (forall w, generateTargetFilePath "l10n/offre_fr.arb" "es" w
             = (Returned (str "l10n/ofes.arb"), w))
  /\ scan_files true ".arb" [mkDirent "ofes.arb" FileNode] [] = []
  /\ (forall w, generateTargetFilePath "l10n/app_en.arb" "pt-br" w
                = (Returned (str "l10n/app_pt_br.arb"), w))
  /\ scan_files true ".arb" [mkDirent "app_pt_br.arb" FileNode] [] = [str "br"]
  /\ (forall w, generateTargetFilePath "i18n/en.yaml" "fr" w
                = (Returned (str "i18n/fr.yaml"), w))
  /\ scan_files false ".json" [mkDirent "fr.yaml" FileNode] [] = [].
Proof. repeat split. Qed.


(** ** Invariants of the detected structure *)

Lemma structure_cases p :
  (is_code_for p (parent_name p)
   /\ structure_of p = mkInfo FolderBased (grandparent p) (Some (parent_name p)))
  \/ (~ is_code_for p (parent_name p)
      /\ exists code,
           extractLanguageCodeFromFileName (base_name p) (is_arb p) = Some code
           /\ structure_of p = mkInfo FileBased (Path.dirname p) (Some code))
  \/ (~ is_code_for p (parent_name p)
      /\ extractLanguageCodeFromFileName (base_name p) (is_arb p) = None
      /\ structure_of p = mkInfo Unknown (Path.dirname p) None).
Proof.
  destruct (test (pattern_of (format_of p)) (parent_name p)) eqn:Ht.
  - left. apply test_matches in Ht. split; [exact Ht | apply structure_folder, Ht].
  - right. apply test_not_matches in Ht. rewrite (structure_not_folder p Ht).
    cbn zeta.
    destruct (extractLanguageCodeFromFileName (base_name p) (is_arb p))
      as [code |] eqn:Hx.
    + left. split; [exact Ht |]. exists code. split; [reflexivity |].
      destruct (extracted_matches _ _ _ Hx) as (Hm & _).
      apply matches_nonempty, truthy_nonempty in Hm. rewrite Hm. reflexivity.
    + right. repeat split. exact Ht.
Qed.

Lemma format_of_arb p :
  format_of p = if is_arb p then Arb else Standard.
Proof. reflexivity. Qed.

(** X6: the structure [detectProjectStructure] returns is coherent: the
    source language is absent exactly for Unknown; when present it fully
    matches the grammar the file's extension selects; the base path is the
    file's directory unless the structure is FolderBased; and for FileBased
    the source language is a suffix of the file's base name. *)
Theorem detected_structure_is_coherent (p : jsstring) :
  let info := structure_of p in
  (type info = Unknown <-> sourceLanguage info = None)
  /\ (forall l, sourceLanguage info = Some l -> is_code_for p l)
  /\ (type info <> FolderBased -> basePath info = Path.dirname p)
  /\ (type info = FolderBased ->
      basePath info = grandparent p
      /\ sourceLanguage info = Some (parent_name p))
  /\ (type info = FileBased ->
      exists l pre, sourceLanguage info = Some l /\ base_name p = pre ++ l).
Proof.
  cbn zeta.
  destruct (structure_cases p)
    as [[Hm ->] | [(Hn & code & Hx & ->) | (Hn & Hx & ->)]];
    cbn [type sourceLanguage basePath].
  - repeat split; try discriminate; try congruence.
  - destruct (extracted_matches _ _ _ Hx) as (Hm & Hsuf).
    assert (Hcode : is_code_for p code)
      by (unfold is_code_for; rewrite format_of_arb; exact Hm).
    repeat split; try discriminate; try congruence.
    intros _. exists code.
    destruct Hsuf as [-> | (_ & pre & ->)].
    + exists []. split; reflexivity.
    + exists (pre ++ "_"). rewrite <- app_assoc. split; reflexivity.
  - repeat split; try discriminate; try congruence.
Qed.

(** ** Which calls write to the file system *)

(** X7: for a structure that is not FolderBased [generateTargetFilePath]
    returns a path in the directory of the source file and leaves the file
    system and the console as they were; for a file-based JSON project the
    file name is the target language followed by the extension, for an
    Unknown structure it is the source base name, a dot, the token and the
    extension. *)
Theorem generate_writes_only_for_folders (p target : jsstring) (w : World) :
  type (structure_of p) <> FolderBased ->
  exists fileName,
    generateTargetFilePath p target w
    = (Returned (Path.join [Path.dirname p; fileName]), w)
    /\ (type (structure_of p) = FileBased -> is_arb p = false ->
        fileName = target ++ Path.extname p)
    /\ (type (structure_of p) = Unknown ->
        fileName = base_name p ++ "." ++ token_of p target ++ Path.extname p).
Proof.
  intros Hty. unfold generateTargetFilePath, bind. rewrite detect_pure.
  destruct (structure_cases p)
    as [[Hm Hs] | [(Hn & code & Hx & Hs) | (Hn & Hx & Hs)]];
    rewrite Hs in *; cbn [type sourceLanguage basePath] in *.
  - congruence.
  - fold (base_name p). fold (is_arb p). destruct (is_arb p) eqn:Harb.
    + eexists. split; [reflexivity |]. split; [discriminate | discriminate].
    + eexists. split; [reflexivity |]. split; [reflexivity | discriminate].
  - fold (base_name p). fold (is_arb p). fold (token_of p target).
    eexists. split; [reflexivity |]. split; [discriminate | reflexivity].
Qed.

Lemma generate_writes_only_for_folders_witness :
  exists fileName,
    generateTargetFilePath "i18n/en.json" "fr" collision_world
    = (Returned (Path.join [Path.dirname "i18n/en.json"; fileName]),
       collision_world)
    /\ (type (structure_of "i18n/en.json") = FileBased ->
        is_arb "i18n/en.json" = false ->
        fileName = str "fr" ++ Path.extname "i18n/en.json")
    /\ (type (structure_of "i18n/en.json") = Unknown ->
        fileName = base_name "i18n/en.json" ++ "."
                   ++ token_of "i18n/en.json" "fr"
                   ++ Path.extname "i18n/en.json").
Proof.
  apply (generate_writes_only_for_folders "i18n/en.json" "fr" collision_world).
  discriminate.
Defined.

Example generate_file_based_json :
  generateTargetFilePath "i18n/en.json" "fr" collision_world
  = (Returned (str "i18n/fr.json"), collision_world).
Proof. reflexivity. Qed.

Example generate_unknown :
  generateTargetFilePath "translations/messages.json" "fr" siblings_world
  = (Returned (str "translations/messages.fr.json"), siblings_world).
Proof. reflexivity. Qed.

(** X8: when nothing exists at the target directory of a folder-based
    project but a regular file stands at one of its ancestors, the directory
    cannot be created: [generateTargetFilePath] ends with the ENOTDIR error
    of [mkdirSync] for the target directory, which it does not catch, and
    creates nothing. *)
Theorem generate_folder_fails_under_a_file (p target : jsstring) (w : World)
    (q : jsstring) :
  type (structure_of p) = FolderBased ->
  exists_in w (target_dir p target) = false ->
  q ∈ Fs.ancestors (S (length (target_dir p target))) (target_dir p target) ->
  Fs.is_file_at (nodes (fs w)) q = true ->
  generateTargetFilePath p target w
  = (Thrown (ENOTDIR (target_dir p target)), w).
Proof.
  intros Hty Hex Hq Hfile. rewrite (generate_folder_based p target w Hty).
  cbn zeta. unfold bind. rewrite existsSync_run, Hex. cbn [negb].
  rewrite (mkdir_obstructed _ q w (absent_is_no_file _ _ Hex) Hq Hfile).
  reflexivity.
Qed.

Lemma generate_folder_fails_under_a_file_witness :
  generateTargetFilePath "locales/en/common.json" "fr"
    (world_of [("locales", FileNode)])
  = (Thrown (ENOTDIR "locales/fr"), world_of [("locales", FileNode)]).
Proof.
  apply (generate_folder_fails_under_a_file "locales/en/common.json" "fr"
           (world_of [("locales", FileNode)]) "locales");
    try reflexivity.
  vm_compute. constructor.
Defined.

Lemma generate_pure_elsewhere (p target : jsstring) (w : World) :
  type (structure_of p) <> FolderBased ->
  exists r, generateTargetFilePath p target w = (Returned r, w).
Proof.
  intros Hty. unfold generateTargetFilePath, bind. rewrite detect_pure.
  destruct (type (structure_of p)); [congruence | |].
  - destruct (jseqb (Path.extname p) ".arb"); eexists; reflexivity.
  - eexists; reflexivity.
Qed.

(** X18: [generateTargetFilePath] never removes or changes an existing
    entry of the file system: every path that existed keeps its kind, the
    console and the unreadable directories are untouched, whatever appears
    is a directory and appears only for a folder-based source, and a call
    that throws (possible only for a folder-based source) leaves the world
    as it was. *)
Theorem generateTargetFilePath_keeps_entries (p target : jsstring) (w : World) :
  let w' := snd (generateTargetFilePath p target w) in
  console w' = console w
  /\ unreadable (fs w') = unreadable (fs w)
  /\ (forall q k, nodes (fs w) !! q = Some k -> nodes (fs w') !! q = Some k)
  /\ (forall q, nodes (fs w) !! q = None ->
                nodes (fs w') !! q = None
                \/ (nodes (fs w') !! q = Some DirNode
                    /\ type (structure_of p) = FolderBased))
  /\ (forall e, fst (generateTargetFilePath p target w) = Thrown e ->
                w' = w /\ type (structure_of p) = FolderBased).
Proof.
  cbn zeta.
  assert (Hsame : forall o, generateTargetFilePath p target w = (o, w) ->
            (forall e, o = Thrown e -> type (structure_of p) = FolderBased) ->
            console (snd (generateTargetFilePath p target w)) = console w
  /\ unreadable (fs (snd (generateTargetFilePath p target w))) = unreadable (fs w)
  /\ (forall q k, nodes (fs w) !! q = Some k ->
        nodes (fs (snd (generateTargetFilePath p target w))) !! q = Some k)
  /\ (forall q, nodes (fs w) !! q = None ->
        nodes (fs (snd (generateTargetFilePath p target w))) !! q = None
        \/ (nodes (fs (snd (generateTargetFilePath p target w))) !! q
            = Some DirNode
            /\ type (structure_of p) = FolderBased))
  /\ (forall e, fst (generateTargetFilePath p target w) = Thrown e ->
        snd (generateTargetFilePath p target w) = w
        /\ type (structure_of p) = FolderBased)).
  { intros o -> Ho. cbn [fst snd]. repeat split; eauto. }
  destruct (type (structure_of p)) eqn:Hty.
  - pose proof (generate_folder_based p target w Hty) as Hgen.
    cbn zeta in Hgen. unfold bind in Hgen. rewrite existsSync_run in Hgen.
    destruct (exists_in w (target_dir p target)) eqn:Hex.
    + cbn [negb] in Hgen. unfold ret in Hgen.
      apply (Hsame _ Hgen). discriminate.
    + cbn [negb] in Hgen. unfold Fs.mkdirSync_recursive in Hgen.
      set (chain := target_dir p target
                    :: Fs.ancestors (S (length (target_dir p target)))
                         (target_dir p target)) in Hgen.
      destruct (List.find (Fs.is_file_at (nodes (fs w))) chain) as [q0 |] eqn:Hf.
      * apply (Hsame _ Hgen). reflexivity.
      * unfold ret in Hgen. cbv beta iota in Hgen.
        rewrite Hgen. cbn [fst snd fs nodes unreadable console].
        rewrite find_none_iff in Hf.
        split; [reflexivity |]. split; [reflexivity |].
        split; [| split; [| discriminate]].
        -- intros q k Hq. destruct (decide (q ∈ chain)) as [Hin | Hout].
           ++ rewrite mkdirs_lookup_in by exact Hin.
              specialize (Hf q Hin). unfold Fs.is_file_at in Hf.
              rewrite Hq in Hf. destruct k; [discriminate | reflexivity].
           ++ rewrite mkdirs_lookup_notin by exact Hout. exact Hq.
        -- intros q Hq. destruct (decide (q ∈ chain)) as [Hin | Hout].
           ++ right. split; [apply mkdirs_lookup_in; exact Hin | reflexivity].
           ++ left. rewrite mkdirs_lookup_notin by exact Hout. exact Hq.
  - destruct (generate_pure_elsewhere p target w) as (r & Hgen);
      [congruence |].
    apply (Hsame _ Hgen). discriminate.
  - destruct (generate_pure_elsewhere p target w) as (r & Hgen);
      [congruence |].
    apply (Hsame _ Hgen). discriminate.
Qed.

(** ** The path [getUniqueFilePath] returns is free *)

Lemma unique_loop_result dir baseName ext w :
  forall fuel counter q w',
    unique_loop fuel dir baseName ext counter w = (Returned (Some q), w') ->
    exists n,
      counter <= n < counter + fuel
      /\ q = candidate dir baseName ext n
      /\ exists_in w q = false
      /\ forall k, counter <= k < n ->
                   exists_in w (candidate dir baseName ext k) = true.
Proof.
  induction fuel as [| fuel IH]; intros counter q w' H.
  - cbn in H. unfold ret in H. discriminate.
  - rewrite unique_loop_step in H.
    destruct (exists_in w (candidate dir baseName ext counter)) eqn:E.
    + apply IH in H as (n & Hn & Hq & Hfree & Hbusy).
      exists n. repeat split; try assumption; try lia.
      intros k Hk. destruct (Nat.eq_dec k counter) as [-> | Hne];
        [assumption | apply Hbusy; lia].
    + injection H as <- <-. exists counter.
      repeat split; try assumption; try lia; try (intros k Hk; lia).
Qed.

(** X9: a path returned by [getUniqueFilePath] never exists in the file
    system it was computed against; it is the argument itself exactly when
    nothing exists at the argument, and otherwise a numbered path all of
    whose lower-numbered siblings exist. *)
Theorem getUniqueFilePath_result_is_free (fuel : nat) (p q : jsstring)
    (w w' : World) :
  getUniqueFilePath fuel p w = (Returned (Some q), w') ->
  exists_in w q = false
  /\ (q = p <-> exists_in w p = false)
  /\ (exists_in w p = true ->
      exists n, 1 <= n <= fuel /\ q = numbered p n
                /\ forall k, 1 <= k < n -> exists_in w (numbered p k) = true).
Proof.
  intros H. rewrite getUniqueFilePath_unfold in H.
  destruct (exists_in w p) eqn:Hp.
  - apply unique_loop_result in H as (n & Hn & Hq & Hfree & Hbusy).
    split; [exact Hfree |]. split.
    + split; [intros -> | discriminate]. congruence.
    + intros _. exists n. repeat split; try assumption; lia.
  - injection H as <- <-. split; [exact Hp |]. split; [tauto | discriminate].
Qed.

Lemma getUniqueFilePath_result_is_free_witness :
  exists_in collision_world "i18n/fr (2).json" = false
  /\ (str "i18n/fr (2).json" = str "i18n/fr.json"
      <-> exists_in collision_world "i18n/fr.json" = false)
  /\ (exists_in collision_world "i18n/fr.json" = true ->
      exists n, 1 <= n <= 3 /\ str "i18n/fr (2).json" = numbered "i18n/fr.json" n
                /\ forall k, 1 <= k < n ->
                     exists_in collision_world (numbered "i18n/fr.json" k) = true).
Proof.
  apply (getUniqueFilePath_result_is_free 3 "i18n/fr.json" "i18n/fr (2).json"
           collision_world collision_world).
  reflexivity.
Defined.

(** ** Detected languages pass validation *)

(** X10: every language [detectLanguagesFromProject] returns fully matches
    the grammar it scanned with and passes [validateLanguageCode], so the
    validation the translate command applies to its targets never rejects a
    detected language. *)
Theorem detected_languages_are_valid (collator : Collator) (p : jsstring)
    (w w' : World) (langs : list jsstring) :
  detectLanguagesFromProject p w = (Returned langs, w') ->
  forall l, l ∈ langs ->
            Matches (scan_format p) l /\ validateLanguageCode l = true.
Proof.
  intros Hrun l Hl.
  assert (Hm : Matches (scan_format p) l).
  { rewrite detectLanguages_run in Hrun. cbn zeta in Hrun.
    destruct (type (structure_of p)) eqn:Hty.
    - destruct (Fs.readdirSync _ w) as [[es | e] w1];
        injection Hrun as <- <-; [| inversion Hl].
      apply sorted_codes_elem, without_source_elem in Hl as [Hl _].
      apply scan_directories_elem in Hl as [Hl | (d & _ & _ & _ & Ht)];
        [inversion Hl |].
      unfold scan_format. destruct (scan_arb p);
        [apply (test_matches Arb) | apply (test_matches Standard)]; exact Ht.
    - destruct (Fs.readdirSync _ w) as [[es | e] w1];
        injection Hrun as <- <-; [| inversion Hl].
      apply sorted_codes_elem, without_source_elem in Hl as [Hl _].
      apply scan_files_elem in Hl as [Hl | (d & _ & _ & _ & Hx & _)];
        [inversion Hl |].
      apply extracted_matches in Hx as [Hx _]. exact Hx.
    - injection Hrun as <- <-. inversion Hl. }
  split; [exact Hm |].
  rewrite validate_is_test. apply (test_matches Standard).
  unfold scan_format in Hm. destruct (scan_arb p);
    [apply arb_is_standard |]; exact Hm.
Qed.

Lemma detected_languages_are_valid_witness :
  Matches (scan_format "locales/en/common.json") "de"
  /\ validateLanguageCode "de" = true.
Proof.
  apply (detected_languages_are_valid root_collator "locales/en/common.json"
           locales_world locales_world [str "de"; str "fr"]).
  - reflexivity.
  - constructor.
Defined.

(* ================================================================= *)
(** * The translation service: counting filtered strings
      (src/translationService.ts) *)

(** A parsed JSON value.  The code never reads a number, so its payload only
    stands for it. *)
Local Unset Elimination Schemes.
Inductive Json : Type :=
| JNull
| JBool (b : bool)
| JNumber (n : Z)
| JString (s : jsstring)
| JArray (items : list Json)
| JObject (members : list (jsstring * Json)).
Local Set Elimination Schemes.

(** [countAllKeys(obj)]: [for (const key in obj)] visits the own members of
    an object, the elements of an array and the characters of a string; a
    number, a boolean, [null] and [undefined] have nothing to visit.  A
    visited value adds one when it is a string, its own count when it is an
    object or an array, and nothing otherwise. *)
Fixpoint countAllKeys (obj : Json) : nat :=
  match obj with
  | JObject members =>
      (fix loop (ms : list (jsstring * Json)) (count : nat) : nat :=
         match ms with
         | [] => count
         | (_, value) :: rest =>
             match value with
             | JString _ => loop rest (count + 1)
             | JObject _ | JArray _ => loop rest (count + countAllKeys value)
             | _ => loop rest count
             end
         end) members 0
  | JArray items =>
      (fix loop (vs : list Json) (count : nat) : nat :=
         match vs with
         | [] => count
         | value :: rest =>
             match value with
             | JString _ => loop rest (count + 1)
             | JObject _ | JArray _ => loop rest (count + countAllKeys value)
             | _ => loop rest count
             end
         end) items 0
  | JString s => length s
  | _ => 0
  end.

(** The string values found at any depth of a value, in visiting order. *)
Fixpoint string_leaves (v : Json) : list jsstring :=
  match v with
  | JString s => [s]
  | JArray items => flat_map string_leaves items
  | JObject members => flat_map (fun m => string_leaves (snd m)) members
  | _ => []
  end.

Definition is_container (v : Json) : bool :=
  match v with
  | JObject _ | JArray _ => true
  | _ => false
  end.

(** What one visited value adds to the count. *)
Definition value_count (value : Json) : nat :=
  match value with
  | JString _ => 1
  | JObject _ | JArray _ => countAllKeys value
  | _ => 0
  end.

Definition total (ns : list nat) : nat := foldr Nat.add 0 ns.

(** The two loops of [countAllKeys], with their running count. *)
Definition count_items : list Json -> nat -> nat :=
  fix loop (vs : list Json) (count : nat) : nat :=
    match vs with
    | [] => count
    | value :: rest =>
        match value with
        | JString _ => loop rest (count + 1)
        | JObject _ | JArray _ => loop rest (count + countAllKeys value)
        | _ => loop rest count
        end
    end.

Definition count_members : list (jsstring * Json) -> nat -> nat :=
  fix loop (ms : list (jsstring * Json)) (count : nat) : nat :=
    match ms with
    | [] => count
    | (_, value) :: rest =>
        match value with
        | JString _ => loop rest (count + 1)
        | JObject _ | JArray _ => loop rest (count + countAllKeys value)
        | _ => loop rest count
        end
    end.

Lemma countAllKeys_array items :
  countAllKeys (JArray items) = count_items items 0.
Proof. reflexivity. Qed.

Lemma countAllKeys_object members :
  countAllKeys (JObject members) = count_members members 0.
Proof. reflexivity. Qed.

Lemma count_items_sum vs count :
  count_items vs count = count + total (map value_count vs).
Proof.
  revert count. induction vs as [| v vs IH]; intros count; cbn [count_items];
    [cbn; lia |].
  destruct v; rewrite IH; unfold total; cbn [map foldr value_count]; lia.
Qed.

Lemma count_members_sum ms count :
  count_members ms count
  = count + total (map (fun m => value_count (snd m)) ms).
Proof.
  revert count. induction ms as [| [k v] ms IH]; intros count;
    cbn [count_members]; [cbn; lia |].
  destruct v; rewrite IH; unfold total; cbn [map foldr value_count snd]; lia.
Qed.

(** Induction over a JSON value and the values nested in it. *)
Fixpoint Json_nested_ind (P : Json -> Prop)
    (Hnull : P JNull) (Hbool : forall b, P (JBool b))
    (Hnumber : forall n, P (JNumber n)) (Hstring : forall s, P (JString s))
    (Harray : forall items, Forall P items -> P (JArray items))
    (Hobject : forall members,
        Forall (fun m => P (snd m)) members -> P (JObject members))
    (v : Json) {struct v} : P v :=
  match v with
  | JNull => Hnull
  | JBool b => Hbool b
  | JNumber n => Hnumber n
  | JString s => Hstring s
  | JArray items =>
      Harray items
        ((fix all (vs : list Json) : Forall P vs :=
            match vs with
            | [] => List.Forall_nil P
            | x :: rest =>
                List.Forall_cons P x rest
                  (Json_nested_ind P Hnull Hbool Hnumber Hstring Harray
                     Hobject x)
                  (all rest)
            end) items)
  | JObject members =>
      Hobject members
        ((fix all (ms : list (jsstring * Json))
            : Forall (fun m => P (snd m)) ms :=
            match ms with
            | [] => List.Forall_nil _
            | m :: rest =>
                List.Forall_cons (fun m => P (snd m)) m rest
                  (Json_nested_ind P Hnull Hbool Hnumber Hstring Harray
                     Hobject (snd m))
                  (all rest)
            end) members)
  end.

Lemma total_flat_map {A} (f : A -> list jsstring) (g : A -> nat) l :
  Forall (fun x => g x = length (f x)) l ->
  total (map g l) = length (flat_map f l).
Proof.
  induction 1 as [| x l Hx _ IH]; [reflexivity |].
  cbn [map flat_map]. rewrite length_app. cbn. rewrite Hx. f_equal. exact IH.
Qed.

Lemma value_count_leaves v : value_count v = length (string_leaves v).
Proof.
  induction v as [| b | n | s | items IH | members IH] using Json_nested_ind;
    try reflexivity.
  - cbn [value_count string_leaves].
    rewrite countAllKeys_array, count_items_sum. cbn [Nat.add].
    apply total_flat_map. exact IH.
  - cbn [value_count string_leaves].
    rewrite countAllKeys_object, count_members_sum. cbn [Nat.add].
    apply (total_flat_map (fun m => string_leaves (snd m))). exact IH.
Qed.

(** X11: for an object or an array [countAllKeys] is the number of string
    values found at any depth; numbers, booleans and nulls add nothing and
    keys play no role. *)
Theorem countAllKeys_counts_string_leaves (v : Json) :
  is_container v = true ->
  countAllKeys v = length (string_leaves v).
Proof.
  intros H. rewrite <- value_count_leaves.
  destruct v; try discriminate; reflexivity.
Qed.

Lemma countAllKeys_counts_string_leaves_witness :
  countAllKeys
    (JObject [(str "title", JString "Hello");
              (str "count", JNumber 3);
              (str "menu", JObject [(str "open", JString "Open");
                                    (str "items", JArray [JString "a"; JNull;
                                                          JArray [JString "b"]])])])
  = 4.
Proof.
  rewrite countAllKeys_counts_string_leaves; reflexivity.
Defined.

(** X12: the count of an object is the sum over its members, so it is
    additive when members are put together and does not depend on the order
    of the keys; wrapping an object or an array in a one-member object keeps
    its count, while a string counted directly counts its characters. *)
Theorem countAllKeys_is_additive :
  (forall ms1 ms2,
      countAllKeys (JObject (ms1 ++ ms2))
      = countAllKeys (JObject ms1) + countAllKeys (JObject ms2))
  /\ (forall ms ms',
        Permutation ms ms' ->
        countAllKeys (JObject ms) = countAllKeys (JObject ms'))
  /\ (forall key v,
        is_container v = true ->
        countAllKeys (JObject [(key, v)]) = countAllKeys v)
  /\ (forall key s,
        countAllKeys (JObject [(key, JString s)]) = 1
        /\ countAllKeys (JString s) = length s).
Proof.
  split; [| split; [| split]].
  - intros ms1 ms2. rewrite !countAllKeys_object, !count_members_sum.
    rewrite map_app. unfold total. rewrite foldr_app.
    generalize (map (fun m : jsstring * Json => value_count (snd m)) ms1).
    intros l. induction l as [| n l IH]; cbn; lia.
  - intros ms ms' Hp. rewrite !countAllKeys_object, !count_members_sum.
    f_equal. unfold total.
    induction Hp as [| m l l' _ IH | a b l | l l' l'' _ IH1 _ IH2];
      cbn [map foldr]; lia.
  - intros key v Hv. rewrite countAllKeys_object, count_members_sum.
    unfold total.
    destruct v; try discriminate; cbn [map foldr snd value_count]; lia.
  - intros key s. split; reflexivity.
Qed.

Lemma countAllKeys_is_additive_witness :
  countAllKeys (JObject [(str "b", JString "x"); (str "a", JArray [JString "y"])])
  = countAllKeys (JObject [(str "a", JArray [JString "y"]); (str "b", JString "x")]).
Proof.
  apply (proj1 (proj2 countAllKeys_is_additive)). apply perm_swap.
Defined.

(* ================================================================= *)
(** * The API key manager (src/apiKeyManager.ts) *)

Module ApiKeys.

(** The part of the editor the class talks to: the secret stored under
    [SECRET_KEY], the user-level [apiKey] setting, the logger's lines, the
    notifications shown and the links opened.  [update(key, undefined,
    Global)] removes the user-level setting; workspace-level overrides of
    the setting are not part of the model. *)
Record Host : Type := mkHost {
  secretKey : option jsstring;
  configKey : option jsstring;
  logged : list jsstring;
  shown : list jsstring;
  opened : list jsstring
}.

Definition logInfo (msg : jsstring) (h : Host) : Host :=
  mkHost (secretKey h) (configKey h) (logged h ++ [msg]) (shown h) (opened h).

Definition show (msg : jsstring) (h : Host) : Host :=
  mkHost (secretKey h) (configKey h) (logged h) (shown h ++ [msg]) (opened h).

Definition openExternal (url : jsstring) (h : Host) : Host :=
  mkHost (secretKey h) (configKey h) (logged h) (shown h) (opened h ++ [url]).

(** [context.secrets.store(SECRET_KEY, key)] and [secrets.delete]. *)
Definition secrets_store (key : jsstring) (h : Host) : Host :=
  mkHost (Some key) (configKey h) (logged h) (shown h) (opened h).

Definition secrets_delete (h : Host) : Host :=
  mkHost None (configKey h) (logged h) (shown h) (opened h).

(** [getConfiguration(SECTION).update(API_KEY, undefined, Global)] *)
Definition config_clear (h : Host) : Host :=
  mkHost (secretKey h) None (logged h) (shown h) (opened h).

(** White space and line terminators among the 8-bit code units. *)
Definition is_white_space (a : ascii) : bool :=
  ((9 <=? code a)%N && (code a <=? 13)%N)
  || (code a =? 32)%N || (code a =? 160)%N.

Fixpoint trimStart (s : jsstring) : jsstring :=
  match s with
  | a :: s' => if is_white_space a then trimStart s' else s
  | [] => []
  end.

(** [s.trim()] *)
Definition trim (s : jsstring) : jsstring :=
  rev (trimStart (rev (trimStart s))).

Definition API_KEYS_URL : jsstring := "https://l10n.dev/ws/keys".

Definition getApiKey (h : Host) : option jsstring * Host :=
  let secureApiKey := secretKey h in
  let configApiKey := configKey h in
  if truthy (option_map trim configApiKey)
     && negb (bool_decide (configApiKey = secureApiKey))
  then
    let h := logInfo "API Key found in configuration, migrating to secure storage" h in
    let h := match configApiKey with
             | Some key => secrets_store key h
             | None => h
             end in
    let h := config_clear h in
    let h := if truthy secureApiKey
             then show "API Key updated securely! 🔐" h
             else show "API Key migrated to secure storage for better security! 🔐" h in
    let h := logInfo "API Key migrated to secure storage" h in
    (configApiKey, h)
  else
    let h := if negb (truthy secureApiKey) then logInfo "No API Key found" h
             else h in
    (secureApiKey, h).

(** [setApiKey()]; [input] is what the input box resolves to ([None] when
    the box is dismissed). *)
Definition setApiKey (input : option jsstring) (h : Host)
    : option jsstring * Host :=
  let h := logInfo "User requested to set new API Key" h in
  let apiKey := input in
  match apiKey with
  | Some key =>
      if truthy apiKey then
        let h := secrets_store key h in
        let h := logInfo "New API Key stored securely" h in
        let h := show "API Key saved securely! 🔐" h in
        (apiKey, h)
      else (apiKey, logInfo "API Key setup cancelled by user" h)
  | None => (apiKey, logInfo "API Key setup cancelled by user" h)
  end.

Definition clearApiKey (h : Host) : Host :=
  let h := logInfo "Clearing API Key from secure storage and configuration" h in
  let h := secrets_delete h in
  let h := config_clear h in
  let h := logInfo "API Key cleared successfully from all storage locations" h in
  show "API Key cleared. You can set a new one in the extension settings or using the 'Set API Key' command." h.

(** [ensureApiKey()]; [action] is the button chosen on the warning, [input]
    what the input box resolves to. *)
Definition ensureApiKey (action input : option jsstring) (h : Host)
    : option jsstring * Host :=
  let '(apiKey, h) := getApiKey h in
  if negb (truthy apiKey) then
    let h := show "API Key not configured. Please set your l10n.dev API key first." h in
    if bool_decide (action = Some (str "Set API Key")) then setApiKey input h
    else if bool_decide (action = Some (str "Get API Key"))
         then (apiKey, openExternal API_KEYS_URL h)
         else (apiKey, h)
  else (apiKey, h).

(** A setting that [getApiKey] would move to the secret store. *)
Definition pending (h : Host) : bool :=
  truthy (option_map trim (configKey h))
  && negb (bool_decide (configKey h = secretKey h)).

End ApiKeys.

Module ApiKeysFacts.
Import ApiKeys.

Lemma getApiKey_pending h :
  pending h = true ->
  exists key h',
    configKey h = Some key
    /\ getApiKey h = (Some key, h')
    /\ secretKey h' = Some key
    /\ configKey h' = None
    /\ (exists msg, shown h' = shown h ++ [msg])
    /\ opened h' = opened h.
Proof.
  unfold pending, getApiKey. intros Hp. rewrite Hp.
  destruct h as [sec cfg lg sh op]. cbn [secretKey configKey] in *.
  destruct cfg as [key |]; [| discriminate].
  exists key. destruct (truthy sec); eexists;
    (split; [reflexivity |]); (split; [reflexivity |]);
    cbn; repeat split; eauto.
Qed.

Lemma getApiKey_settled h :
  pending h = false ->
  getApiKey h
  = (secretKey h,
     if negb (truthy (secretKey h)) then logInfo "No API Key found" h else h).
Proof. unfold pending, getApiKey. intros ->. reflexivity. Qed.

Lemma getApiKey_returns_secret h :
  fst (getApiKey h) = secretKey (snd (getApiKey h)).
Proof.
  destruct (pending h) eqn:Hp.
  - destruct (getApiKey_pending h Hp) as (key & h' & _ & -> & Hs & _).
    cbn [fst snd]. congruence.
  - rewrite (getApiKey_settled h Hp). cbn [fst snd].
    destruct (truthy (secretKey h)); reflexivity.
Qed.

(** X13: [getApiKey] returns what is in the secret store when it ends, and
    leaves no setting that it would still move there; a second call
    therefore returns the same key and changes neither the secret, nor the
    setting, nor the notifications. *)
Theorem getApiKey_settles (h : Host) :
  let r := fst (getApiKey h) in
  let h' := snd (getApiKey h) in
  r = secretKey h'
  /\ pending h' = false
  /\ fst (getApiKey h') = r
  /\ secretKey (snd (getApiKey h')) = secretKey h'
  /\ configKey (snd (getApiKey h')) = configKey h'
  /\ shown (snd (getApiKey h')) = shown h'.
Proof.
  cbn zeta.
  assert (Hsettled : forall r h', r = secretKey h' -> pending h' = false ->
            r = secretKey h' /\ pending h' = false
            /\ fst (getApiKey h') = r
            /\ secretKey (snd (getApiKey h')) = secretKey h'
            /\ configKey (snd (getApiKey h')) = configKey h'
            /\ shown (snd (getApiKey h')) = shown h').
  { intros r h' Hr Hp. rewrite (getApiKey_settled h' Hp). subst r.
    repeat split; try assumption; destruct (truthy (secretKey h'));
      reflexivity. }
  destruct (pending h) eqn:Hp.
  - destruct (getApiKey_pending h Hp) as (key & h' & Hc & -> & Hs & Hc' & _).
    cbn [fst snd]. apply Hsettled; [congruence |].
    unfold pending. rewrite Hc'. reflexivity.
  - rewrite (getApiKey_settled h Hp). cbn [fst snd]. apply Hsettled.
    + destruct (truthy (secretKey h)); reflexivity.
    + destruct (truthy (secretKey h)); exact Hp.
Qed.

Lemma setApiKey_stores h key :
  key <> [] ->
  exists lg sh,
    setApiKey (Some key) h
    = (Some key, mkHost (Some key) (configKey h) lg sh (opened h)).
Proof.
  intros Hkey. destruct key as [| a key]; [congruence |].
  eexists _, _. reflexivity.
Qed.

Lemma setApiKey_then_getApiKey_cases (h : Host) (key : jsstring) :
  key <> [] ->
  let h1 := snd (setApiKey (Some key) h) in
  (forall stale,
      configKey h = Some stale -> trim stale <> [] -> stale <> key ->
      fst (getApiKey h1) = Some stale
      /\ secretKey (snd (getApiKey h1)) = Some stale)
  /\ ((configKey h = None
       \/ exists c, configKey h = Some c /\ (trim c = [] \/ c = key)) ->
      fst (getApiKey h1) = Some key).
Proof.
  intros Hkey. cbn zeta.
  assert (Htr : truthy (Some key) = true) by (apply truthy_nonempty; exact Hkey).
  destruct (setApiKey_stores h key Hkey) as (lg & sh & ->).
  cbn [fst snd secretKey configKey].
  set (h1 := mkHost (Some key) (configKey h) lg sh (opened h)).
  split.
  - intros stale Hc Hblank Hne.
    assert (Hp : pending h1 = true).
    { unfold pending, h1. cbn [secretKey configKey]. rewrite Hc.
      cbn [option_map]. apply truthy_nonempty in Hblank. rewrite Hblank.
      apply andb_true_intro. split; [reflexivity |].
      apply negb_true_iff, bool_decide_eq_false. congruence. }
    destruct (getApiKey_pending h1 Hp) as (k' & h2 & Hc' & -> & Hs & _).
    unfold h1 in Hc'. cbn [configKey] in Hc'. rewrite Hc in Hc'.
    injection Hc' as <-. split; [reflexivity | exact Hs].
  - intros Hcfg.
    assert (Hp : pending h1 = false).
    { unfold pending, h1. cbn [secretKey configKey].
      destruct Hcfg as [-> | (c & -> & [Hb | ->])].
      - reflexivity.
      - cbn [option_map]. rewrite Hb. reflexivity.
      - apply andb_false_intro2, negb_false_iff, bool_decide_eq_true.
        reflexivity. }
    rewrite (getApiKey_settled h1 Hp). reflexivity.
Qed.

(** X14: a key entered with [setApiKey] is what the next [getApiKey] returns
    unless the setting holds a different non-blank key: that stale setting
    then wins, replaces the key just entered and is what is returned.
    Dismissing the input box, or leaving it empty, stores nothing. *)
Theorem setApiKey_then_getApiKey (h : Host) (key : jsstring) :
  key <> [] ->
  let h1 := snd (setApiKey (Some key) h) in
  fst (setApiKey (Some key) h) = Some key
  /\ secretKey h1 = Some key
  /\ configKey h1 = configKey h
  /\ (forall stale,
        configKey h = Some stale -> trim stale <> [] -> stale <> key ->
        fst (getApiKey h1) = Some stale
        /\ secretKey (snd (getApiKey h1)) = Some stale)
  /\ ((configKey h = None
       \/ exists c, configKey h = Some c /\ (trim c = [] \/ c = key)) ->
      fst (getApiKey h1) = Some key
      /\ secretKey (snd (getApiKey h1)) = Some key)
  /\ secretKey (snd (setApiKey None h)) = secretKey h
  /\ secretKey (snd (setApiKey (Some []) h)) = secretKey h.
Proof.
  intros Hkey. cbn zeta.
  assert (Htr : truthy (Some key) = true) by (apply truthy_nonempty; exact Hkey).
  destruct (setApiKey_stores h key Hkey) as (lg & sh & ->).
  cbn [fst snd secretKey configKey].
  set (h1 := mkHost (Some key) (configKey h) lg sh (opened h)).
  split; [reflexivity |]. split; [reflexivity |]. split; [reflexivity |].
  split; [| split; [| split; reflexivity]].
  - intros stale Hc Hblank Hne.
    assert (Hp : pending h1 = true).
    { unfold pending, h1. cbn [secretKey configKey]. rewrite Hc.
      cbn [option_map]. apply truthy_nonempty in Hblank. rewrite Hblank.
      apply andb_true_intro. split; [reflexivity |].
      apply negb_true_iff, bool_decide_eq_false. congruence. }
    destruct (getApiKey_pending h1 Hp) as (k' & h2 & Hc' & -> & Hs & _).
    unfold h1 in Hc'. cbn [configKey] in Hc'. rewrite Hc in Hc'.
    injection Hc' as <-. split; [reflexivity | exact Hs].
  - intros Hcfg.
    assert (Hp : pending h1 = false).
    { unfold pending, h1. cbn [secretKey configKey].
      destruct Hcfg as [-> | (c & -> & [Hb | ->])].
      - reflexivity.
      - cbn [option_map]. rewrite Hb. reflexivity.
      - apply andb_false_intro2, negb_false_iff, bool_decide_eq_true.
        reflexivity. }
    rewrite (getApiKey_settled h1 Hp). unfold h1. cbn [secretKey].
    rewrite Htr. split; reflexivity.
Qed.

Lemma setApiKey_then_getApiKey_witness :
  fst (getApiKey (snd (setApiKey (Some (str "new"))
                        (mkHost (Some (str "old")) (Some (str "old")) [] [] []))))
  = Some (str "old").
Proof.
  destruct (setApiKey_then_getApiKey
              (mkHost (Some (str "old")) (Some (str "old")) [] [] [])
              "new") as (_ & _ & _ & Hstale & _).
  - discriminate.
  - apply (Hstale "old"); [reflexivity | discriminate | discriminate].
Defined.

(** X15: after [clearApiKey] nothing is left: the secret and the setting
    are gone and [getApiKey] returns [undefined], whatever was stored
    before; a key entered after a clear is the one the next [getApiKey]
    returns, since no stale setting can be left to override it. *)
Theorem clearApiKey_forgets (h : Host) :
  secretKey (clearApiKey h) = None
  /\ configKey (clearApiKey h) = None
  /\ fst (getApiKey (clearApiKey h)) = None
  /\ (forall key, key <> [] ->
        fst (getApiKey (snd (setApiKey (Some key) (clearApiKey h)))) = Some key).
Proof.
  split; [reflexivity |]. split; [reflexivity |]. split; [reflexivity |].
  intros key Hkey.
  destruct (setApiKey_then_getApiKey_cases (clearApiKey h) key Hkey)
    as [_ Hfresh].
  apply Hfresh. left. reflexivity.
Qed.

Lemma setApiKey_stored input h :
  truthy (fst (setApiKey input h)) = true ->
  secretKey (snd (setApiKey input h)) = fst (setApiKey input h).
Proof.
  unfold setApiKey. destruct input as [[| a k] |]; cbn;
    (discriminate || reflexivity).
Qed.

Lemma setApiKey_nonempty input h :
  secretKey h <> Some [] -> secretKey (snd (setApiKey input h)) <> Some [].
Proof.
  intros Hne. unfold setApiKey. destruct input as [[| a k] |]; cbn;
    (exact Hne || discriminate).
Qed.

Lemma getApiKey_nonempty h :
  secretKey h <> Some [] -> secretKey (snd (getApiKey h)) <> Some [].
Proof.
  intros Hne. destruct (pending h) eqn:Hp.
  - destruct (getApiKey_pending h Hp) as (key & h' & Hc & -> & Hs & _).
    cbn [snd]. rewrite Hs. unfold pending in Hp. rewrite Hc in Hp.
    cbn [option_map] in Hp. apply andb_prop in Hp as [Hp _].
    destruct key; [discriminate | discriminate].
  - rewrite (getApiKey_settled h Hp). cbn [snd].
    destruct (truthy (secretKey h)); exact Hne.
Qed.

Lemma ensureApiKey_unfold action input h :
  ensureApiKey action input h
  = let g := getApiKey h in
    if truthy (fst g) then g
    else
      let h2 := show "API Key not configured. Please set your l10n.dev API key first."
                  (snd g) in
      if bool_decide (action = Some (str "Set API Key")) then setApiKey input h2
      else if bool_decide (action = Some (str "Get API Key"))
           then (fst g, openExternal API_KEYS_URL h2)
           else (fst g, h2).
Proof.
  unfold ensureApiKey. destruct (getApiKey h) as [apiKey h1]. cbn [fst snd].
  destruct (truthy apiKey); reflexivity.
Qed.

(** X16: a non-empty key returned by [ensureApiKey] is the key held by the
    secret store when the call ends, whichever button and input the user
    chose; and no operation of the class ever stores an empty secret. *)
Theorem ensureApiKey_returns_stored_key (action input : option jsstring)
    (h : Host) :
  let r := fst (ensureApiKey action input h) in
  let h' := snd (ensureApiKey action input h) in
  (truthy r = true -> secretKey h' = r)
  /\ (secretKey h <> Some [] ->
      secretKey h' <> Some []
      /\ secretKey (snd (getApiKey h)) <> Some []
      /\ secretKey (snd (setApiKey input h)) <> Some []
      /\ secretKey (clearApiKey h) <> Some []).
Proof.
  cbn zeta. rewrite ensureApiKey_unfold. cbn zeta.
  pose proof (getApiKey_returns_secret h) as Hr.
  split.
  - destruct (truthy (fst (getApiKey h))) eqn:Htr.
    + intros _. symmetry. exact Hr.
    + destruct (bool_decide (action = Some (str "Set API Key")));
        [apply setApiKey_stored |].
      destruct (bool_decide (action = Some (str "Get API Key")));
        cbn [fst]; congruence.
  - intros Hne. pose proof (getApiKey_nonempty h Hne) as Hget.
    split; [| split; [exact Hget | split;
                      [apply setApiKey_nonempty; exact Hne | discriminate]]].
    destruct (truthy (fst (getApiKey h))); [exact Hget |].
    destruct (bool_decide (action = Some (str "Set API Key")));
      [apply setApiKey_nonempty; exact Hget |].
    destruct (bool_decide (action = Some (str "Get API Key"))); exact Hget.
Qed.

Lemma ensureApiKey_returns_stored_key_witness :
  secretKey (snd (ensureApiKey (Some (str "Set API Key")) (Some (str "k-123"))
                    (mkHost None None [] [] [])))
  = Some (str "k-123").
Proof.
  apply (proj1 (ensureApiKey_returns_stored_key
                  (Some (str "Set API Key")) (Some (str "k-123"))
                  (mkHost None None [] [] []))).
  reflexivity.
Defined.

End ApiKeysFacts.
